(** * Zero-ramification Goldbach scan: radical sieve, odd radical, scan, statistics

    A shallow embedding of [scripts/goldbach_rigid_scan.py] and
    [scripts/export_data.py].  Python integers are [Z]; the numpy [int64]
    radical table is a [list Z] whose in-place products wrap modulo 2^64; the
    [bytearray] primality flags are a [list Z] of bytes 0/1; [primes_set] is a
    duplicate-free list queried only through membership.  Functions that can
    raise return a [result]; loops whose termination is not structural carry
    fuel and report [Diverges] when the source would not leave the loop.
    Floating-point values (rho, bandwidths, ratios) are idealised as real
    numbers, [math.log] being [ln]. *)

From Stdlib Require Import ZArith List FinFun Permutation Sorted Bool Lia Reals Lra.
Import ListNotations.
Open Scope Z_scope.

(** ** Outcomes of Python code *)

Inductive py_exception : Type :=
| IndexError
| ValueError
| ZeroDivisionError.

Inductive result (A : Type) : Type :=
| Ok (a : A)
| Raise (e : py_exception)
| Diverges.

Arguments Ok {A} a.
Arguments Raise {A} e.
Arguments Diverges {A}.

Definition bind {A B : Type} (m : result A) (k : A -> result B) : result B :=
  match m with
  | Ok a => k a
  | Raise e => Raise e
  | Diverges => Diverges
  end.

Notation "x <- m ;; k" := (bind m (fun x => k))
  (at level 61, m at next level, right associativity).
Notation "' pat <- m ;; k" := (bind m (fun x => match x with pat => k end))
  (at level 61, pat pattern, m at next level, right associativity).

(** [for x in xs: body] threading the loop state. *)
Fixpoint for_each {A S : Type} (xs : list A) (s : S) (body : S -> A -> result S)
  : result S :=
  match xs with
  | [] => Ok s
  | x :: xs' => s' <- body s x ;; for_each xs' s' body
  end.

(** ** Python sequences *)

(** [range(start, stop, step)] for a positive step. *)
Definition py_range (start stop step : Z) : list Z :=
  map (fun k => start + step * Z.of_nat k)
      (seq 0 (Z.to_nat ((stop - start + step - 1) / step))).

(** Position designated by a (possibly negative) index, as lists, bytearrays
    and numpy arrays resolve it. *)
Definition py_index {A : Type} (l : list A) (i : Z) : option nat :=
  let n := Z.of_nat (length l) in
  if (0 <=? i) && (i <? n) then Some (Z.to_nat i)
  else if (- n <=? i) && (i <? 0) then Some (Z.to_nat (i + n))
  else None.

Definition getitem {A : Type} (l : list A) (i : Z) : result A :=
  match py_index l i with
  | Some k => match nth_error l k with
              | Some a => Ok a
              | None => Raise IndexError
              end
  | None => Raise IndexError
  end.

Fixpoint set_nth {A : Type} (l : list A) (k : nat) (v : A) : list A :=
  match l, k with
  | [], _ => []
  | _ :: l', O => v :: l'
  | a :: l', S k' => a :: set_nth l' k' v
  end.

Definition setitem {A : Type} (l : list A) (i : Z) (v : A) : result (list A) :=
  match py_index l i with
  | Some k => Ok (set_nth l k v)
  | None => Raise IndexError
  end.

(** [x in s] for a set of integers. *)
Definition mem (x : Z) (s : list Z) : bool := existsb (Z.eqb x) s.

(** Truthiness of a byte. *)
Definition truthy (b : Z) : bool := negb (b =? 0).

(** Two's-complement wrap of a numpy [int64] product. *)
Definition int64 (z : Z) : Z := (z + 2 ^ 63) mod 2 ^ 64 - 2 ^ 63.

(** [while t % d == 0: t //= d]; [None] when the fuel runs out.  Both
    scripts strip factors with this loop. *)
Fixpoint divide_out (fuel : nat) (d t : Z) : option Z :=
  match fuel with
  | O => None
  | S fuel' => if t mod d =? 0 then divide_out fuel' d (t / d) else Some t
  end.

(** For [d >= 2] the loop leaves every nonzero [t] within [log2 |t| + 2]
    tests; it never leaves [t = 0]. *)
Definition divide_fuel (t : Z) : nat := S (S (Z.to_nat (Z.log2 (Z.abs t)))).

(** ** Real-valued helpers (idealised floats) *)

Definition pos (x : R) : bool := if Rlt_dec 0 x then true else false.

(** [math.log] of an integer. *)
Definition py_log (x : Z) : result R :=
  if x <=? 0 then Raise ValueError else Ok (ln (IZR x)).

(** Float division. *)
Definition py_div (a b : R) : result R :=
  if Req_dec_T b 0 then Raise ZeroDivisionError else Ok (a / b)%R.

(** [math.log(cond) / math.log(N) if cond > 1 else 0.0] *)
Definition chen_rho (cond N : Z) : result R :=
  if 1 <? cond then
    a <- py_log cond ;;
    b <- py_log N ;;
    py_div a b
  else Ok 0%R.

(** [min(l)] and [max(l)]. *)
Definition py_min (l : list R) : result R :=
  match l with
  | [] => Raise ValueError
  | x :: l' => Ok (fold_left Rmin l' x)
  end.

Definition py_max (l : list R) : result R :=
  match l with
  | [] => Raise ValueError
  | x :: l' => Ok (fold_left Rmax l' x)
  end.

(** [np.mean(l)]; every call site has already taken [min(l)] or tested that
    [l] is not empty. *)
Definition np_mean (l : list R) : R :=
  (fold_right Rplus 0 l / INR (length l))%R.

(** [round(x, ndigits)]: nearest multiple of [10^-ndigits], ties to even. *)
Definition round_half_even (x : R) : Z :=
  let f := Int_part x in
  let d := (x - IZR f)%R in
  if Rlt_dec d (1 / 2) then f
  else if Rlt_dec (1 / 2) d then f + 1
  else if Z.even f then f else f + 1.

Definition py_round (x : R) (ndigits : Z) : R :=
  (IZR (round_half_even (x * IZR (10 ^ ndigits))) / IZR (10 ^ ndigits))%R.

Inductive category : Type := Goldbach | Mixed | Composite.

Definition category_eqb (a b : category) : bool :=
  match a, b with
  | Goldbach, Goldbach | Mixed, Mixed | Composite, Composite => true
  | _, _ => false
  end.

(** ** goldbach_rigid_scan.py *)

Module Rigid.

(** Body of [for j in range(i, limit + 1, i)]. *)
Definition sieve_mark (i : Z) (st : list Z * list Z) (j : Z)
  : result (list Z * list Z) :=
  let '(rads, is_prime) := st in
  is_prime' <- (if negb (j =? i) then setitem is_prime j 0 else Ok is_prime) ;;
  r <- getitem rads j ;;
  rads' <- setitem rads j (int64 (r * i)) ;;
  Ok (rads', is_prime').

(** Body of [for i in range(2, limit + 1)]. *)
Definition sieve_visit (limit : Z) (st : list Z * list Z) (i : Z)
  : result (list Z * list Z) :=
  b <- getitem (snd st) i ;;
  if truthy b then for_each (py_range i (limit + 1) i) st (sieve_mark i)
  else Ok st.

Definition collect_primes (is_prime : list Z) (acc : list Z) (i : Z)
  : result (list Z) :=
  b <- getitem is_prime i ;;
  Ok (if truthy b then acc ++ [i] else acc).

Definition sieve_radicals (limit : Z) : result (list Z * list Z) :=
  if limit + 1 <? 0 then Raise ValueError else
  let rads := repeat 1 (Z.to_nat (limit + 1)) in
  let is_prime := repeat 1 (Z.to_nat (limit + 1)) in
  is_prime <- setitem is_prime 0 0 ;;
  is_prime <- setitem is_prime 1 0 ;;
  '(rads, is_prime) <-
     for_each (py_range 2 (limit + 1) 1) (rads, is_prime) (sieve_visit limit) ;;
  primes_set <-
     for_each (py_range 2 (limit + 1) 1) [] (collect_primes is_prime) ;;
  Ok (rads, primes_set).

Definition odd_rad (x : Z) (rads : list Z) : result Z :=
  r <- getitem rads x ;;
  match divide_out (divide_fuel r) 2 r with
  | Some r' => Ok (if 0 <? r' then r' else 1)
  | None => Diverges
  end.

Record row : Type := mkRow {
  p : Z;
  q : Z;
  rad_odd_p : Z;
  rad_odd_q : Z;
  conductor_proxy : Z;
  rho : R;
  cat : category
}.

(** Body of [for p in range(3, N // 2 + 1)]. *)
Definition scan_step (N : Z) (rads primes_set : list Z) (rows : list row) (p : Z)
  : result (list row) :=
  let q := N - p in
  if q <=? 1 then Ok rows else
  rp <- odd_rad p rads ;;
  rq <- odd_rad q rads ;;
  rM <- odd_rad (N / 2) rads ;;
  let base := rp * rq * rM * rM in
  let cond := base * base in
  rho <- chen_rho cond N ;;
  let p_is_prime := mem p primes_set in
  let q_is_prime := mem q primes_set in
  let cat := if p_is_prime && q_is_prime then Goldbach
             else if p_is_prime || q_is_prime then Mixed
             else Composite in
  Ok (rows ++ [mkRow p q rp rq cond rho cat]).

Definition scan_N (N : Z) (rads primes_set : list Z) : result (list row) :=
  for_each (py_range 3 (N / 2 + 1) 1) [] (scan_step N rads primes_set).

(** [l.sort(key=lambda x: x['rho'])]: stable, ascending. *)
Fixpoint insert_by_rho (r : row) (l : list row) : list row :=
  match l with
  | [] => [r]
  | h :: t => if Rle_dec (rho r) (rho h) then r :: l else h :: insert_by_rho r t
  end.

Definition sort_by_rho (l : list row) : list row := fold_right insert_by_rho [] l.

Definition of_cat (c : category) (rows : list row) : list row :=
  filter (fun r => category_eqb (cat r) c) rows.

Record class_stats : Type := mkStats {
  rho_min : R;
  rho_max : R;
  rho_mean : R
}.

Definition range_mean (rhos : list R) : result class_stats :=
  lo <- py_min rhos ;;
  hi <- py_max rhos ;;
  Ok (mkStats lo hi (np_mean rhos)).

Record report : Type := mkReport {
  goldbach_stats : class_stats;
  mixed_stats : class_stats;
  composite_stats : class_stats;
  ground_state : row;
  bandwidth_goldbach : R;
  bandwidth_composite : R;
  bandwidth_ratio : R
}.

(** The rho lists the summary is printed from. *)
Definition gb_rhos (rows : list row) : list R :=
  map rho (sort_by_rho (of_cat Goldbach rows)).
Definition mix_rhos (rows : list row) : list R :=
  map rho (filter (fun r => pos (rho r)) (of_cat Mixed rows)).
Definition comp_rhos (rows : list row) : list R :=
  map rho (filter (fun r => pos (rho r)) (sort_by_rho (of_cat Composite rows))).

Definition bandwidth (rhos : list R) : result R :=
  hi <- py_max rhos ;;
  lo <- py_min rhos ;;
  Ok (hi - lo)%R.

(** The class summary printed after the table. *)
Definition summary (rows : list row) : result report :=
  let gb := sort_by_rho (of_cat Goldbach rows) in
  g <- range_mean (gb_rhos rows) ;;
  m <- range_mean (mix_rhos rows) ;;
  c <- range_mean (comp_rhos rows) ;;
  ground <- getitem gb 0 ;;
  bw_gb <- bandwidth (gb_rhos rows) ;;
  bw_comp <- bandwidth (comp_rhos rows) ;;
  num <- bandwidth (comp_rhos rows) ;;
  den <- bandwidth (gb_rhos rows) ;;
  ratio <- py_div num den ;;
  Ok (mkReport g m c ground bw_gb bw_comp ratio).

(** A bandwidth ratio, or [float('inf')]. *)
Inductive ratio_value : Type :=
| Finite (x : R)
| Infinity.

Record series_line : Type := mkLine {
  line_N : Z;
  line_k : Z;
  num_goldbach : Z;
  line_rho_min : R;
  line_rho_mean : R;
  line_rho_max : R;
  BW_goldbach : R;
  BW_composite : R;
  ratio : ratio_value
}.

Definition gb_k (rows_k : list row) : list R :=
  map rho (filter (fun r => category_eqb (cat r) Goldbach) rows_k).
Definition comp_k (rows_k : list row) : list R :=
  map rho (filter (fun r => category_eqb (cat r) Composite && pos (rho r)) rows_k).

Definition is_empty {A : Type} (l : list A) : bool :=
  match l with [] => true | _ => false end.

(** What one iteration of the 2^k loop prints from [rows_k], if anything. *)
Definition series_stats (Nk k : Z) (rows_k : list row) : result (option series_line) :=
  let gb := gb_k rows_k in
  let comp := comp_k rows_k in
  if negb (is_empty gb) && negb (is_empty comp) then
    bw_gb <- bandwidth gb ;;
    bw_comp <- bandwidth comp ;;
    let ratio := if pos bw_gb then Finite (bw_comp / bw_gb) else Infinity in
    lo <- py_min gb ;;
    hi <- py_max gb ;;
    Ok (Some (mkLine Nk k (Z.of_nat (length gb)) lo (np_mean gb) hi
                     bw_gb bw_comp ratio))
  else Ok None.

Definition series_line_of (Nk k : Z) (rads_big primes_big : list Z)
  : result (option series_line) :=
  rows_k <- scan_N Nk rads_big primes_big ;;
  series_stats Nk k rows_k.

(** [for k in range(7, 15)] with its [break]; the printed lines in order. *)
Fixpoint series (LIMIT : Z) (rads_big primes_big : list Z) (ks : list Z)
  : result (list series_line) :=
  match ks with
  | [] => Ok []
  | k :: ks' =>
      let Nk := 2 ^ k in
      if LIMIT <? Nk then Ok []
      else
        line <- series_line_of Nk k rads_big primes_big ;;
        rest <- series LIMIT rads_big primes_big ks' ;;
        Ok (match line with Some l => l :: rest | None => rest end)
  end.

(** [1 if N & (N-1) == 0 else '?']: the value the banner prints for
    [rad_odd(N/2)], [None] standing for the question mark. *)
Definition zero_ramification_note (N : Z) : option Z :=
  if Z.land N (N - 1) =? 0 then Some 1 else None.

(** The printed table: [gb[:5]] and [comp[:5]] after the two sorts. *)
Definition table (rows : list row) : list row * list row :=
  (firstn 5 (sort_by_rho (of_cat Goldbach rows)),
   firstn 5 (sort_by_rho (of_cat Composite rows))).

(** The script's own runs: the summary at [N = 1024] with a sieve built to
    [N + 1], and the 2^k series with a sieve built to [LIMIT + 1]. *)
Definition LIMIT : Z := 16384.

Definition main_summary : result report :=
  '(rads, primes_set) <- sieve_radicals (1024 + 1) ;;
  rows <- scan_N 1024 rads primes_set ;;
  summary rows.

Definition main_series : result (list series_line) :=
  '(rads_big, primes_big) <- sieve_radicals (LIMIT + 1) ;;
  series LIMIT rads_big primes_big (py_range 7 15 1).

End Rigid.

(** ** export_data.py *)

Module ExportData.

(** [is_prime[start::step] = bytearray(len(is_prime[start::step]))] for a
    non-negative [start]: every selected position is zeroed. *)
Definition zero_slice (is_prime : list Z) (start step : Z) : list Z :=
  let n := Z.of_nat (length is_prime) in
  fold_left (fun l j => set_nth l (Z.to_nat j) 0)
            (py_range (Z.min start n) n step) is_prime.

(** [math.isqrt] *)
Definition isqrt (n : Z) : result Z :=
  if n <? 0 then Raise ValueError else Ok (Z.sqrt n).

Definition sieve_visit (is_prime : list Z) (i : Z) : result (list Z) :=
  b <- getitem is_prime i ;;
  Ok (if truthy b then zero_slice is_prime (i * i) i else is_prime).

Definition sieve (limit : Z) : result (list Z) :=
  let is_prime := repeat 1 (Z.to_nat (limit + 1)) in
  is_prime <- setitem is_prime 0 0 ;;
  is_prime <- setitem is_prime 1 0 ;;
  s <- isqrt limit ;;
  for_each (py_range 2 (s + 1) 1) is_prime sieve_visit.

(** [while d * d <= temp: ...; d += 2], on the state [(r, temp)]. *)
Fixpoint trial_loop (fuel : nat) (r temp d : Z) : option (Z * Z) :=
  match fuel with
  | O => None
  | S fuel' =>
      if d * d <=? temp then
        if temp mod d =? 0 then
          match divide_out (divide_fuel temp) d temp with
          | Some temp' => trial_loop fuel' (r * d) temp' (d + 2)
          | None => None
          end
        else trial_loop fuel' r temp (d + 2)
      else Some (r, temp)
  end.

Definition odd_radical (n : Z) : result Z :=
  if n <=? 1 then Ok 1 else
  match divide_out (divide_fuel n) 2 n with
  | None => Diverges
  | Some temp =>
      match trial_loop (Z.to_nat n) 1 temp 3 with
      | None => Diverges
      | Some (r, temp') => Ok (if 1 <? temp' then r * temp' else r)
      end
  end.

(** A row of [decompositions_N1024.csv]. *)
Record row : Type := mkRow {
  row_N : Z;
  p : Z;
  q : Z;
  typ : category;
  rad_odd_p : Z;
  rad_odd_q : Z;
  conductor_proxy : Z;
  rho : R
}.

(** [is_prime[p] and is_prime[q]], with its short circuit. *)
Definition both_prime (is_prime : list Z) (p q : Z) : result bool :=
  bp <- getitem is_prime p ;;
  if truthy bp then bq <- getitem is_prime q ;; Ok (truthy bq) else Ok false.

(** [not is_prime[p] and not is_prime[q]], with its short circuit. *)
Definition neither_prime (is_prime : list Z) (p q : Z) : result bool :=
  bp <- getitem is_prime p ;;
  if negb (truthy bp) then bq <- getitem is_prime q ;; Ok (negb (truthy bq))
  else Ok false.

(** Body of the full scan's [for p in range(3, N // 2 + 1)]. *)
Definition scan_step (N : Z) (is_prime : list Z) (rows : list row) (p : Z)
  : result (list row) :=
  let q := N - p in
  if q <=? 1 then Ok rows else
  rp <- odd_radical p ;;
  rq <- odd_radical q ;;
  let cond := (rp * rq) ^ 2 in
  rho <- chen_rho cond N ;;
  gb <- both_prime is_prime p q ;;
  typ <- (if gb then Ok Goldbach
          else comp <- neither_prime is_prime p q ;;
               Ok (if comp then Composite else Mixed)) ;;
  Ok (rows ++ [mkRow N p q typ rp rq cond (py_round rho 6)]).

(** The full scan at one [N]. *)
Definition scan (N : Z) (is_prime : list Z) : result (list row) :=
  for_each (py_range 3 (N / 2 + 1) 1) [] (scan_step N is_prime).

(** Body of the evolution table's inner loop, on [(gb_rhos, comp_rhos)]. *)
Definition series_step (Nk : Z) (is_prime : list Z) (acc : list R * list R) (p : Z)
  : result (list R * list R) :=
  let '(gb_rhos, comp_rhos) := acc in
  let q := Nk - p in
  if q <=? 1 then Ok acc else
  rp <- odd_radical p ;;
  rq <- odd_radical q ;;
  let cond := (rp * rq) ^ 2 in
  rho <- chen_rho cond Nk ;;
  gb <- both_prime is_prime p q ;;
  if gb then Ok (gb_rhos ++ [rho], comp_rhos)
  else
    comp <- neither_prime is_prime p q ;;
    if comp && pos rho then Ok (gb_rhos, comp_rhos ++ [rho])
    else Ok acc.

(** A row of [bandwidth_evolution_2k.csv]. *)
Record series_row : Type := mkSeriesRow {
  series_N : Z;
  series_k : Z;
  num_goldbach : Z;
  rho_min : R;
  rho_mean : R;
  rho_max : R;
  BW_goldbach : R;
  BW_composite : R;
  ratio : R
}.

Definition is_empty {A : Type} (l : list A) : bool :=
  match l with [] => true | _ => false end.

(** The row appended for [(gb_rhos, comp_rhos)], if any. *)
Definition series_stats (Nk k : Z) (gb_rhos comp_rhos : list R)
  : result (option series_row) :=
  if negb (is_empty gb_rhos) && negb (is_empty comp_rhos) then
    hi_gb <- py_max gb_rhos ;;
    lo_gb <- py_min gb_rhos ;;
    let bw_gb := (hi_gb - lo_gb)%R in
    hi_comp <- py_max comp_rhos ;;
    lo_comp <- py_min comp_rhos ;;
    let bw_comp := (hi_comp - lo_comp)%R in
    let ratio := if pos bw_gb then (bw_comp / bw_gb)%R else 0%R in
    lo <- py_min gb_rhos ;;
    hi <- py_max gb_rhos ;;
    Ok (Some (mkSeriesRow Nk k (Z.of_nat (length gb_rhos))
                (py_round lo 6) (py_round (np_mean gb_rhos) 6) (py_round hi 6)
                (py_round bw_gb 6) (py_round bw_comp 6) (py_round ratio 2)))
  else Ok None.

(** One iteration of [for k in range(7, 15)]. *)
Definition series_row_of (k : Z) (is_prime : list Z) : result (option series_row) :=
  let Nk := 2 ^ k in
  '(gb_rhos, comp_rhos) <-
     for_each (py_range 3 (Nk / 2 + 1) 1) ([], []) (series_step Nk is_prime) ;;
  series_stats Nk k gb_rhos comp_rhos.

Fixpoint series (is_prime : list Z) (ks : list Z) : result (list series_row) :=
  match ks with
  | [] => Ok []
  | k :: ks' =>
      line <- series_row_of k is_prime ;;
      rest <- series is_prime ks' ;;
      Ok (match line with Some l => l :: rest | None => rest end)
  end.

(** The script's own runs, with the flags of [sieve(LIMIT + 1)]. *)
Definition LIMIT : Z := 16384.

Definition decompositions_N1024 : result (list row) :=
  is_prime <- sieve (LIMIT + 1) ;;
  scan 1024 is_prime.

Definition bandwidth_evolution_2k : result (list series_row) :=
  is_prime <- sieve (LIMIT + 1) ;;
  series is_prime (py_range 7 15 1).

End ExportData.

(** ** Reference notions *)

(** Primality by the absence of a divisor in [2, n-1]. *)
Definition is_prime_b (n : Z) : bool :=
  (2 <=? n) && forallb (fun d => negb (n mod d =? 0)) (py_range 2 n 1).

(** The primes in [lo, hi] that divide [n], ascending. *)
Definition prime_divisors_in (lo hi n : Z) : list Z :=
  filter (fun p => is_prime_b p && (n mod p =? 0)) (py_range lo (hi + 1) 1).

Definition product (l : list Z) : Z := fold_right Z.mul 1 l.

(** Product of the primes in [lo, hi] that divide [n]. *)
Definition pprod (lo hi n : Z) : Z := product (prime_divisors_in lo hi n).

(** Product of the distinct prime factors of [n]; 1 for [n <= 1]. *)
Definition radical (n : Z) : Z := pprod 2 n n.

(** Product of the distinct odd prime factors of [n]; 1 for [n <= 1]. *)
Definition odd_part_of_radical (n : Z) : Z := pprod 3 n n.

(** [j] has survived the crossing-out by 2, ..., m. *)
Definition survives (m j : Z) : bool :=
  (2 <=? j) && forallb (fun d => negb (j mod d =? 0) || (d =? j)) (py_range 2 (m + 1) 1).

(** Entry of a table at a non-negative position. *)
Definition entry (l : list Z) (j : Z) : Z := nth (Z.to_nat j) l 0.

(** State of [sieve_radicals] once [i = 2, ..., m] have been visited. *)
Definition sieve_inv (limit m : Z) (st : list Z * list Z) : Prop :=
  length (fst st) = Z.to_nat (limit + 1)
  /\ length (snd st) = Z.to_nat (limit + 1)
  /\ forall j, 0 <= j <= limit ->
       entry (fst st) j = pprod 2 (Z.min m j) j
       /\ entry (snd st) j = (if survives m j then 1 else 0).

(** State of the trial division of [n] before the candidate [d] is tried:
    [r] collects the odd primes below [d], [temp] keeps those from [d] on. *)
Definition trial_inv (n r temp d : Z) : Prop :=
  3 <= d <= n + 1 /\ Z.odd d = true /\ 1 <= temp <= n
  /\ r = pprod 3 (d - 1) n
  /\ (forall p, is_prime_b p = true -> d <= p -> ((p | temp) <-> (p | n)))
  /\ (forall p, is_prime_b p = true -> (p | temp) -> d <= p).

(** [j] is not a multiple [>= d * d] of any [d] in [2, m]. *)
Definition unmarked (m j : Z) : bool :=
  (2 <=? j) && forallb (fun d => negb (j mod d =? 0) || (j <? d * d)) (py_range 2 (m + 1) 1).

(** State of [sieve] once [i = 2, ..., m] have been visited. *)
Definition flags_inv (limit m : Z) (is_prime : list Z) : Prop :=
  length is_prime = Z.to_nat (limit + 1)
  /\ forall j, 0 <= j <= limit -> entry is_prime j = (if unmarked m j then 1 else 0).

(** Chen's ratio as a number: [ln cond / ln N] above 1, else 0. *)
Definition rho_value (cond N : Z) : R :=
  if 1 <? cond then (ln (IZR cond) / ln (IZR N))%R else 0%R.

(** Category as a function of the two primalities. *)
Definition classify (p_is_prime q_is_prime : bool) : category :=
  if p_is_prime && q_is_prime then Goldbach
  else if p_is_prime || q_is_prime then Mixed
  else Composite.

(** The row [scan_N] appends for [p] when the table holds the radicals. *)
Definition rigid_row_of (N : Z) (primes_set : list Z) (p : Z) : Rigid.row :=
  let q := N - p in
  let rp := odd_part_of_radical p in
  let rq := odd_part_of_radical q in
  let rM := odd_part_of_radical (N / 2) in
  let base := rp * rq * rM * rM in
  let cond := base * base in
  Rigid.mkRow p q rp rq cond (rho_value cond N)
              (classify (mem p primes_set) (mem q primes_set)).

(** The row the export scan appends for [p]. *)
Definition export_row_of (N : Z) (is_prime : list Z) (p : Z) : ExportData.row :=
  let q := N - p in
  let rp := odd_part_of_radical p in
  let rq := odd_part_of_radical q in
  let cond := (rp * rq) ^ 2 in
  ExportData.mkRow N p q
    (classify (truthy (entry is_prime p)) (truthy (entry is_prime q)))
    rp rq cond (py_round (rho_value cond N) 6).

(** The rho values of the members of a category with rho > 0, in scan order. *)
Definition positive_rhos (c : category) (rows : list Rigid.row) : list R :=
  map Rigid.rho
      (filter (fun r => category_eqb (Rigid.cat r) c && pos (Rigid.rho r)) rows).

(** The rho list the summary takes the statistics of a category from. *)
Definition summary_rhos (c : category) (rows : list Rigid.row) : list R :=
  match c with
  | Goldbach => Rigid.gb_rhos rows
  | Mixed => Rigid.mix_rhos rows
  | Composite => Rigid.comp_rhos rows
  end.

Definition Rsum (l : list R) : R := fold_right Rplus 0%R l.

(** Rho and category of the decomposition at [p] in the evolution table. *)
Definition export_rho_of (N p : Z) : R :=
  rho_value ((odd_part_of_radical p * odd_part_of_radical (N - p)) ^ 2) N.

Definition export_class (is_prime : list Z) (N p : Z) : category :=
  classify (truthy (entry is_prime p)) (truthy (entry is_prime (N - p))).

(** The rho values of the decompositions of [N] in a category with rho > 0,
    by ascending [p]. *)
Definition export_positive_rhos (c : category) (is_prime : list Z) (N : Z) : list R :=
  map (export_rho_of N)
      (filter (fun p => category_eqb (export_class is_prime N p) c
                        && pos (export_rho_of N p))
              (py_range 3 (N / 2 + 1) 1)).

(** [t] holds the [n] members of [l] with the lowest rho (all of [l] when
    it is shorter), by ascending rho. *)
Definition lowest_by_rho (n : nat) (t l : list Rigid.row) : Prop :=
  length t = Nat.min n (length l)
  /\ StronglySorted (fun a b => (Rigid.rho a <= Rigid.rho b)%R) t
  /\ exists rest,
       Permutation (t ++ rest) l
       /\ forall g r, In g t -> In r rest -> (Rigid.rho g <= Rigid.rho r)%R.

(** * Properties *)

(** ** The result monad *)

Lemma bind_Ok_inv {A B : Type} (m : result A) (k : A -> result B) (b : B) :
  bind m k = Ok b -> exists a, m = Ok a /\ k a = Ok b.
Proof. destruct m; simpl; intros H; try discriminate. eauto. Qed.

Lemma for_each_app {A S : Type} (xs ys : list A) (s : S) body :
  for_each (xs ++ ys) s body = (s' <- for_each xs s body ;; for_each ys s' body).
Proof.
  revert s. induction xs as [|x xs IH]; intros s; simpl; [reflexivity|].
  destruct (body s x); simpl; auto.
Qed.

(** ** Ranges *)

Lemma py_range_unit_length a b : a <= b -> length (py_range a b 1) = Z.to_nat (b - a).
Proof.
  intros H. unfold py_range. rewrite length_map, length_seq.
  f_equal. rewrite Z.div_1_r. lia.
Qed.

Lemma py_range_empty a b s : 0 < s -> b <= a -> py_range a b s = [].
Proof.
  intros Hs H. unfold py_range.
  replace (Z.to_nat ((b - a + s - 1) / s)) with 0%nat; [reflexivity|].
  assert ((b - a + s - 1) / s <= 0); [|lia].
  assert ((b - a + s - 1) / s < 1); [|lia].
  apply Z.div_lt_upper_bound; lia.
Qed.

Lemma py_range_unit_snoc a b : a <= b -> py_range a (b + 1) 1 = py_range a b 1 ++ [b].
Proof.
  intros H. unfold py_range. rewrite !Z.div_1_r.
  replace (Z.to_nat (b + 1 - a + 1 - 1)) with (S (Z.to_nat (b - a + 1 - 1))) by lia.
  rewrite seq_S, map_app. f_equal. cbn [map]. f_equal. lia.
Qed.

Lemma py_range_unit_cons a b : a < b -> py_range a b 1 = a :: py_range (a + 1) b 1.
Proof.
  intros H. unfold py_range. rewrite !Z.div_1_r.
  replace (Z.to_nat (b - a + 1 - 1)) with (S (Z.to_nat (b - (a + 1) + 1 - 1))) by lia.
  cbn [seq map]. f_equal; [lia|].
  rewrite <- seq_shift, map_map. apply map_ext. intros k. lia.
Qed.

Lemma py_range_unit_In a b x : In x (py_range a b 1) <-> a <= x < b.
Proof.
  unfold py_range. rewrite Z.div_1_r, in_map_iff. split.
  - intros (k & <- & Hk). apply in_seq in Hk. lia.
  - intros H. exists (Z.to_nat (x - a)). split; [lia|]. apply in_seq. lia.
Qed.

Lemma py_range_unit_split a m b :
  a <= m <= b -> py_range a b 1 = py_range a m 1 ++ py_range m b 1.
Proof.
  intros [H1 H2].
  assert (G : forall n, py_range a (m + Z.of_nat n) 1
                        = py_range a m 1 ++ py_range m (m + Z.of_nat n) 1).
  { induction n as [|n IH].
    - rewrite Z.add_0_r, (py_range_empty m m) by lia. now rewrite app_nil_r.
    - replace (m + Z.of_nat (S n)) with (m + Z.of_nat n + 1) by lia.
      rewrite !py_range_unit_snoc by lia. rewrite IH. now rewrite app_assoc. }
  specialize (G (Z.to_nat (b - m))). now replace (m + Z.of_nat (Z.to_nat (b - m))) with b in G by lia.
Qed.

(** ** Tables *)

Lemma set_nth_length {A : Type} (l : list A) k v : length (set_nth l k v) = length l.
Proof.
  revert k. induction l as [|a l IH]; intros [|k]; simpl; auto.
Qed.

Lemma nth_set_nth_same {A : Type} (l : list A) k v d :
  (k < length l)%nat -> nth k (set_nth l k v) d = v.
Proof.
  revert k. induction l as [|a l IH]; intros [|k] H; simpl in *; try lia; auto.
  apply IH. lia.
Qed.

Lemma nth_set_nth_other {A : Type} (l : list A) k j v d :
  j <> k -> nth j (set_nth l k v) d = nth j l d.
Proof.
  revert k j. induction l as [|a l IH]; intros [|k] [|j] H; simpl; auto.
  congruence.
Qed.

Lemma py_index_in_range {A : Type} (l : list A) i :
  0 <= i < Z.of_nat (length l) -> py_index l i = Some (Z.to_nat i).
Proof.
  intros H. unfold py_index.
  destruct (Z.leb_spec 0 i); [|lia]. destruct (Z.ltb_spec i (Z.of_nat (length l))); [|lia].
  reflexivity.
Qed.

Lemma py_index_beyond {A : Type} (l : list A) i :
  Z.of_nat (length l) <= i -> py_index l i = None.
Proof.
  intros H. unfold py_index.
  destruct (Z.ltb_spec i (Z.of_nat (length l))); [lia|].
  destruct (Z.ltb_spec i 0); [lia|]. now rewrite !andb_false_r.
Qed.

Lemma getitem_in_range (l : list Z) i :
  0 <= i < Z.of_nat (length l) -> getitem l i = Ok (entry l i).
Proof.
  intros H. unfold getitem, entry. rewrite py_index_in_range by assumption.
  destruct (nth_error l (Z.to_nat i)) eqn:E.
  - now rewrite (nth_error_nth _ _ _ E).
  - apply nth_error_None in E. lia.
Qed.

Lemma getitem_beyond {A : Type} (l : list A) i :
  Z.of_nat (length l) <= i -> getitem l i = Raise IndexError.
Proof. intros H. unfold getitem. now rewrite py_index_beyond. Qed.

Lemma setitem_in_range {A : Type} (l : list A) i v :
  0 <= i < Z.of_nat (length l) -> setitem l i v = Ok (set_nth l (Z.to_nat i) v).
Proof. intros H. unfold setitem. now rewrite py_index_in_range. Qed.

Lemma entry_set_nth (l : list Z) i j v :
  0 <= i < Z.of_nat (length l) -> 0 <= j ->
  entry (set_nth l (Z.to_nat i) v) j = if j =? i then v else entry l j.
Proof.
  intros Hi Hj. unfold entry. destruct (Z.eqb_spec j i) as [->|Hne].
  - apply nth_set_nth_same. lia.
  - apply nth_set_nth_other. lia.
Qed.

Lemma entry_repeat v n j : 0 <= j < Z.of_nat n -> entry (repeat v n) j = v.
Proof.
  intros H. unfold entry. apply nth_repeat_lt. lia.
Qed.

(** ** Multiples visited by the inner sieve loop *)

Lemma py_range_step_In i limit j :
  0 < i -> In j (py_range i (limit + 1) i) <-> (i <= j <= limit /\ j mod i = 0).
Proof.
  intros Hi. unfold py_range.
  replace ((limit + 1 - i + i - 1) / i) with (limit / i) by (f_equal; lia).
  rewrite in_map_iff. split.
  - intros (k & <- & Hk). apply in_seq in Hk.
    assert (Hd : 0 <= limit / i) by lia.
    assert (Z.of_nat k + 1 <= limit / i) by lia.
    assert (i * (limit / i) <= limit) by (apply Z.mul_div_le; lia).
    split; [nia|].
    replace (i + i * Z.of_nat k) with ((1 + Z.of_nat k) * i) by ring.
    apply Z_mod_mult.
  - intros [[H1 H2] H3].
    apply Z.mod_divide in H3; [|lia]. destruct H3 as [c ->].
    assert (1 <= c) by nia.
    exists (Z.to_nat (c - 1)). split; [rewrite Z2Nat.id by lia; ring|].
    apply in_seq. split; [lia|].
    assert (c <= limit / i) by (apply Z.div_le_lower_bound; lia). lia.
Qed.

Lemma py_range_NoDup a b s : 0 < s -> NoDup (py_range a b s).
Proof.
  intros Hs. unfold py_range. apply Injective_map_NoDup.
  - intros x y H. nia.
  - apply seq_NoDup.
Qed.

(** ** The inner loop of [sieve_radicals] *)

Lemma sieve_mark_step i rads isp j :
  length isp = length rads -> 0 <= j < Z.of_nat (length rads) ->
  Rigid.sieve_mark i (rads, isp) j
  = Ok (set_nth rads (Z.to_nat j) (int64 (entry rads j * i)),
        if j =? i then isp else set_nth isp (Z.to_nat j) 0).
Proof.
  intros Hlen Hj. unfold Rigid.sieve_mark.
  destruct (Z.eqb_spec j i); cbn [negb].
  - cbn [bind]. rewrite getitem_in_range by assumption. cbn [bind].
    now rewrite setitem_in_range by assumption.
  - rewrite setitem_in_range by lia. cbn [bind].
    rewrite getitem_in_range by assumption. cbn [bind].
    now rewrite setitem_in_range by assumption.
Qed.

Lemma sieve_mark_loop i xs : forall rads isp,
  NoDup xs -> length isp = length rads ->
  (forall j, In j xs -> 0 <= j < Z.of_nat (length rads)) ->
  exists rads' isp',
    for_each xs (rads, isp) (Rigid.sieve_mark i) = Ok (rads', isp')
    /\ length rads' = length rads /\ length isp' = length rads
    /\ forall j, 0 <= j ->
         (In j xs -> entry rads' j = int64 (entry rads j * i))
         /\ (~ In j xs -> entry rads' j = entry rads j)
         /\ (In j xs -> j <> i -> entry isp' j = 0)
         /\ (~ (In j xs /\ j <> i) -> entry isp' j = entry isp j).
Proof.
  induction xs as [|x xs IH]; intros rads isp Hnd Hlen Hin.
  - exists rads, isp. simpl. repeat split; auto; tauto.
  - inversion Hnd as [|? ? Hx Hnd']; subst.
    assert (Hxr : 0 <= x < Z.of_nat (length rads)) by (apply Hin; now left).
    cbn [for_each]. rewrite sieve_mark_step by assumption. cbn [bind].
    set (rads1 := set_nth rads (Z.to_nat x) (int64 (entry rads x * i))).
    set (isp1 := if x =? i then isp else set_nth isp (Z.to_nat x) 0).
    assert (L1 : length rads1 = length rads) by apply set_nth_length.
    assert (L2 : length isp1 = length rads).
    { unfold isp1. destruct (x =? i); [assumption|]. now rewrite set_nth_length. }
    destruct (IH rads1 isp1 Hnd') as (rads' & isp' & E & Lr & Li & P).
    { congruence. }
    { intros j Hj. rewrite L1. apply Hin. now right. }
    exists rads', isp'. rewrite E. split; [reflexivity|].
    split; [congruence|]. split; [congruence|].
    intros j Hj. destruct (P j Hj) as (P1 & P2 & P3 & P4).
    assert (R1 : entry rads1 j = if j =? x then int64 (entry rads x * i) else entry rads j).
    { unfold rads1. now apply entry_set_nth. }
    assert (I1 : entry isp1 j = if (j =? x) && negb (x =? i) then 0 else entry isp j).
    { unfold isp1. destruct (x =? i); [now rewrite andb_false_r|].
      rewrite entry_set_nth by lia. now rewrite andb_true_r. }
    destruct (Z.eqb_spec j x) as [->|Hjx].
    + repeat split.
      * intros _. now rewrite P2, R1.
      * intros H. exfalso. apply H. now left.
      * intros _ Hne. rewrite P4 by tauto. rewrite I1.
        destruct (Z.eqb_spec x i); [contradiction|reflexivity].
      * intros H. rewrite P4 by tauto. rewrite I1.
        destruct (Z.eqb_spec x i); [reflexivity|]. exfalso. apply H. split; [now left|assumption].
    + simpl in I1. repeat split.
      * intros [H|H]; [congruence|]. now rewrite P1, R1.
      * intros H. rewrite P2, R1; [reflexivity|]. intros H'. apply H. now right.
      * intros [H|H] Hne; [congruence|]. now apply P3.
      * intros H. rewrite P4, I1; [reflexivity|]. intros [H1 H2]. apply H. split; [now right|assumption].
Qed.

(** ** Primes *)

Lemma upward_ind (lo : Z) (P : Z -> Prop) :
  P lo -> (forall h, lo <= h -> P h -> P (h + 1)) -> forall h, lo <= h -> P h.
Proof.
  intros H0 HS h Hh.
  replace h with (lo + Z.of_nat (Z.to_nat (h - lo))) by lia.
  induction (Z.to_nat (h - lo)) as [|k IH].
  - now rewrite Z.add_0_r.
  - replace (lo + Z.of_nat (S k)) with (lo + Z.of_nat k + 1) by lia.
    apply HS; [lia|assumption].
Qed.

Lemma is_prime_b_spec n :
  is_prime_b n = true <-> 2 <= n /\ forall d, 2 <= d < n -> n mod d <> 0.
Proof.
  unfold is_prime_b. rewrite andb_true_iff, Z.leb_le, forallb_forall. split.
  - intros [H1 H2]. split; [assumption|]. intros d Hd.
    specialize (H2 d (proj2 (py_range_unit_In 2 n d) Hd)).
    apply negb_true_iff, Z.eqb_neq in H2. assumption.
  - intros [H1 H2]. split; [assumption|]. intros d Hd.
    apply py_range_unit_In in Hd. apply negb_true_iff, Z.eqb_neq. auto.
Qed.

Lemma is_prime_b_false n :
  2 <= n -> is_prime_b n = false -> exists d, 2 <= d < n /\ n mod d = 0.
Proof.
  intros Hn H. unfold is_prime_b in H.
  destruct (Z.leb_spec 2 n); [|lia]. cbn [andb] in H.
  destruct (forallb (fun d => negb (n mod d =? 0)) (py_range 2 n 1)) eqn:E; [discriminate|].
  clear H. apply not_true_iff_false in E.
  assert (G : ~ forall d, In d (py_range 2 n 1) -> negb (n mod d =? 0) = true).
  { intros G. apply E. now apply forallb_forall. }
  clear E. revert G. generalize (fun d => proj1 (py_range_unit_In 2 n d)).
  induction (py_range 2 n 1) as [|x xs IH]; intros Hr G.
  - exfalso. apply G. intros d [].
  - destruct (Z.eqb_spec (n mod x) 0) as [e|ne].
    + exists x. split; [apply Hr; now left|assumption].
    + apply IH.
      * intros d Hd. apply Hr. now right.
      * intros G'. apply G. intros d [<-|Hd]; [|now apply G'].
        now apply negb_true_iff, Z.eqb_neq.
Qed.

Lemma is_prime_b_ge2 n : is_prime_b n = true -> 2 <= n.
Proof. intros H. now apply is_prime_b_spec in H. Qed.

(** The boolean test agrees with the standard library's [Z.prime]. *)
Lemma is_prime_b_prime n : is_prime_b n = true <-> Z.prime n.
Proof.
  rewrite is_prime_b_spec. unfold Z.prime. split.
  - intros [H1 H2]. split; [lia|]. intros d Hd Hdiv.
    apply (H2 d); [lia|]. apply Z.mod_divide; [lia|assumption].
  - intros [H1 H2]. split; [lia|]. intros d Hd Hmod.
    apply (H2 d); [lia|]. apply Z.mod_divide; [lia|assumption].
Qed.

Lemma prime_divisor_exists n :
  2 <= n -> exists p, is_prime_b p = true /\ (p | n).
Proof.
  intros Hn. pattern n. apply (Zlt_lower_bound_ind _ 2); [|assumption].
  clear n Hn. intros n IH Hn.
  destruct (is_prime_b n) eqn:E.
  - exists n. split; [assumption|apply Z.divide_refl].
  - destruct (is_prime_b_false n Hn E) as (d & Hd & Hmod).
    destruct (IH d ltac:(lia)) as (p & Hp & Hpd).
    exists p. split; [assumption|].
    apply Z.divide_trans with d; [assumption|]. apply Z.mod_divide; [lia|assumption].
Qed.

(** A composite number has a prime factor not above its square root. *)
Lemma small_prime_divisor n :
  2 <= n -> is_prime_b n = false ->
  exists p, is_prime_b p = true /\ (p | n) /\ p * p <= n.
Proof.
  intros Hn E.
  destruct (is_prime_b_false n Hn E) as (d & Hd & Hmod).
  apply Z.mod_divide in Hmod; [|lia]. destruct Hmod as [e He].
  assert (2 <= e) by nia.
  destruct (Z_le_gt_dec d e).
  - destruct (prime_divisor_exists d ltac:(lia)) as (p & Hp & Hpd).
    exists p. split; [assumption|]. split.
    + apply Z.divide_trans with d; [assumption|]. exists e. lia.
    + assert (p <= d) by (apply Z.divide_pos_le; [lia|assumption]).
      apply is_prime_b_ge2 in Hp. nia.
  - destruct (prime_divisor_exists e ltac:(lia)) as (p & Hp & Hpd).
    exists p. split; [assumption|]. split.
    + apply Z.divide_trans with e; [assumption|]. exists d. lia.
    + assert (p <= e) by (apply Z.divide_pos_le; [lia|assumption]).
      apply is_prime_b_ge2 in Hp. nia.
Qed.

Lemma prime_divides_self_only p q :
  is_prime_b p = true -> is_prime_b q = true -> (p | q) -> p = q.
Proof.
  intros Hp Hq. apply Z.divide_prime_prime; now apply is_prime_b_prime.
Qed.

Lemma prime_divides_mul p a b :
  is_prime_b p = true -> (p | a * b) -> (p | a) \/ (p | b).
Proof. intros Hp. apply Z.divide_prime_mul. now apply is_prime_b_prime. Qed.

Lemma prime_divides_pow p d k :
  is_prime_b p = true -> 0 <= k -> (p | d ^ k) -> (p | d).
Proof.
  intros Hp Hk. pattern k. apply natlike_ind; [| |assumption].
  - rewrite Z.pow_0_r. intros H. apply is_prime_b_ge2 in Hp.
    apply Z.divide_pos_le in H; lia.
  - intros x Hx IH H. rewrite Z.pow_succ_r in H by assumption.
    apply prime_divides_mul in H; tauto.
Qed.

Lemma mod_divide_iff n d : 0 < d -> n mod d = 0 <-> (d | n).
Proof. intros H. apply Z.mod_divide. lia. Qed.

(** ** Products of prime divisors *)

Lemma product_app a b : product (a ++ b) = product a * product b.
Proof.
  unfold product. induction a as [|x a IH]; simpl fold_right.
  - destruct (fold_right Z.mul 1 b); reflexivity.
  - rewrite IH. ring.
Qed.

Lemma pprod_empty lo hi n : hi < lo -> pprod lo hi n = 1.
Proof.
  intros H. unfold pprod, prime_divisors_in. now rewrite py_range_empty by lia.
Qed.

Lemma pprod_snoc lo hi n :
  lo <= hi + 1 ->
  pprod lo (hi + 1) n
  = pprod lo hi n * (if is_prime_b (hi + 1) && (n mod (hi + 1) =? 0) then hi + 1 else 1).
Proof.
  intros H. unfold pprod, prime_divisors_in.
  rewrite py_range_unit_snoc by lia. rewrite filter_app, product_app. f_equal.
  cbn [filter]. destruct (is_prime_b (hi + 1) && (n mod (hi + 1) =? 0)); unfold product; simpl; lia.
Qed.

Lemma pprod_split lo m hi n :
  lo <= m + 1 <= hi + 1 -> pprod lo hi n = pprod lo m n * pprod (m + 1) hi n.
Proof.
  intros H. unfold pprod, prime_divisors_in.
  rewrite (py_range_unit_split lo (m + 1) (hi + 1)) by lia.
  now rewrite filter_app, product_app.
Qed.

Lemma pprod_factors lo hi n x :
  In x (prime_divisors_in lo hi n) <->
  lo <= x <= hi /\ is_prime_b x = true /\ n mod x = 0.
Proof.
  unfold prime_divisors_in. rewrite filter_In, py_range_unit_In, andb_true_iff, Z.eqb_eq.
  intuition lia.
Qed.

Lemma product_pos l : (forall x, In x l -> 1 <= x) -> 1 <= product l.
Proof.
  unfold product. induction l as [|x l IH]; intros H; simpl fold_right; [lia|].
  assert (1 <= x) by (apply H; now left).
  assert (1 <= fold_right Z.mul 1 l) by (apply IH; intros y Hy; apply H; now right).
  nia.
Qed.

Lemma pprod_pos lo hi n : 1 <= pprod lo hi n.
Proof.
  apply product_pos. intros x Hx. apply pprod_factors in Hx.
  destruct Hx as (_ & Hp & _). apply is_prime_b_ge2 in Hp. lia.
Qed.

Lemma product_coprime l p :
  (forall x, In x l -> Z.coprime x p) -> Z.coprime (product l) p.
Proof.
  unfold product. induction l as [|x l IH]; intros H; simpl fold_right.
  - apply Z.coprime_1_l.
  - apply Z.coprime_mul_l; [apply H; now left|apply IH; intros y Hy; apply H; now right].
Qed.

Lemma primes_coprime x p :
  is_prime_b x = true -> is_prime_b p = true -> x <> p -> Z.coprime x p.
Proof.
  intros Hx Hp Hne. apply Z.coprime_prime_l; [now apply is_prime_b_prime|].
  intros Hd. apply Hne. now apply prime_divides_self_only.
Qed.

Lemma pprod_coprime lo hi n p :
  is_prime_b p = true -> hi < p -> Z.coprime (pprod lo hi n) p.
Proof.
  intros Hp Hlt. apply product_coprime. intros x Hx. apply pprod_factors in Hx.
  apply primes_coprime; try tauto. lia.
Qed.

Lemma mul_divide_coprime a b n : (a | n) -> (b | n) -> Z.coprime a b -> (a * b | n).
Proof.
  intros [k ->] Hb Hc.
  assert (Hbk : (b | k)).
  { apply Z.gauss with a; [now rewrite Z.mul_comm|]. now rewrite Z.gcd_comm. }
  destruct Hbk as [c ->]. exists c. ring.
Qed.

Lemma pprod_divides lo hi n : (pprod lo hi n | n).
Proof.
  destruct (Z_lt_le_dec hi (lo - 1)) as [Hlt|Hle].
  - rewrite pprod_empty by lia. apply Z.divide_1_l.
  - revert hi Hle. apply upward_ind.
    + rewrite pprod_empty by lia. apply Z.divide_1_l.
    + intros h Hh IH. rewrite pprod_snoc by lia.
      destruct (is_prime_b (h + 1)) eqn:Ep; cbn [andb]; [|now rewrite Z.mul_1_r].
      destruct (Z.eqb_spec (n mod (h + 1)) 0) as [e|ne]; [|now rewrite Z.mul_1_r].
      apply mul_divide_coprime; [assumption| |].
      * apply Z.mod_divide; [|assumption]. apply is_prime_b_ge2 in Ep. lia.
      * apply pprod_coprime; [assumption|lia].
Qed.

Lemma pprod_le lo hi n : 1 <= n -> pprod lo hi n <= n.
Proof.
  intros Hn. apply Z.divide_pos_le; [lia|apply pprod_divides].
Qed.

Lemma pprod_stable lo hi n : 1 <= n -> lo <= n + 1 -> n <= hi -> pprod lo hi n = pprod lo n n.
Proof.
  intros Hn Hlo. revert hi. apply upward_ind; [reflexivity|].
  intros h Hh IH. rewrite pprod_snoc by lia. rewrite IH.
  rewrite Z.mod_small by lia.
  destruct (Z.eqb_spec n 0); [lia|]. rewrite andb_false_r. ring.
Qed.

Lemma radical_0 : radical 0 = 1.
Proof. reflexivity. Qed.

Lemma radical_1 : radical 1 = 1.
Proof. reflexivity. Qed.

(** ** Survivors of the crossing-out *)

Lemma survives_spec m j :
  survives m j = true <->
  2 <= j /\ forall d, 2 <= d <= m -> j mod d = 0 -> d = j.
Proof.
  unfold survives. rewrite andb_true_iff, Z.leb_le, forallb_forall. split.
  - intros [H1 H2]. split; [assumption|]. intros d Hd Hmod.
    specialize (H2 d (proj2 (py_range_unit_In 2 (m + 1) d) ltac:(lia))).
    rewrite Hmod in H2. cbn in H2. now apply Z.eqb_eq in H2.
  - intros [H1 H2]. split; [assumption|]. intros d Hd.
    apply py_range_unit_In in Hd.
    destruct (Z.eqb_spec (j mod d) 0) as [e|ne]; cbn; [|reflexivity].
    apply Z.eqb_eq. apply H2; [lia|assumption].
Qed.

Lemma survives_below i : survives (i - 1) i = is_prime_b i.
Proof.
  apply eq_true_iff_eq. rewrite survives_spec, is_prime_b_spec. split.
  - intros [H1 H2]. split; [assumption|]. intros d Hd Hmod.
    specialize (H2 d ltac:(lia) Hmod). lia.
  - intros [H1 H2]. split; [assumption|]. intros d Hd Hmod.
    exfalso. apply (H2 d); [lia|assumption].
Qed.

Lemma survives_full m j : j <= m -> survives m j = is_prime_b j.
Proof.
  intros Hle. apply eq_true_iff_eq. rewrite survives_spec, is_prime_b_spec. split.
  - intros [H1 H2]. split; [assumption|]. intros d Hd Hmod.
    specialize (H2 d ltac:(lia) Hmod). lia.
  - intros [H1 H2]. split; [assumption|]. intros d Hd Hmod.
    destruct (Z_lt_le_dec d j) as [Hlt|Hge].
    + exfalso. apply (H2 d); [lia|assumption].
    + destruct (Z.eq_dec d j); [assumption|].
      rewrite Z.mod_small in Hmod by lia. lia.
Qed.

Lemma survives_step m j :
  1 <= m ->
  survives (m + 1) j = survives m j && (negb (j mod (m + 1) =? 0) || (m + 1 =? j)).
Proof.
  intros Hm. unfold survives. rewrite (py_range_unit_snoc 2 (m + 1)) by lia.
  rewrite forallb_app. cbn [forallb]. now rewrite andb_true_r, andb_assoc.
Qed.

(** ** The outer loop of [sieve_radicals] *)

Lemma int64_small z : - 2 ^ 63 <= z < 2 ^ 63 -> int64 z = z.
Proof.
  intros H. unfold int64. rewrite Z.mod_small; lia.
Qed.

Lemma sieve_inv_init limit :
  1 <= limit ->
  exists isp,
    (isp0 <- setitem (repeat 1 (Z.to_nat (limit + 1))) 0 0 ;; setitem isp0 1 0) = Ok isp
    /\ sieve_inv limit 1 (repeat 1 (Z.to_nat (limit + 1)), isp).
Proof.
  intros Hl.
  rewrite setitem_in_range by (rewrite repeat_length; lia). cbn [bind].
  rewrite setitem_in_range by (rewrite set_nth_length, repeat_length; lia).
  eexists. split; [reflexivity|].
  unfold sieve_inv. cbn [fst snd]. rewrite !set_nth_length, !repeat_length.
  split; [reflexivity|]. split; [reflexivity|].
  intros j Hj. split.
  - rewrite entry_repeat by lia. rewrite pprod_empty by lia. reflexivity.
  - rewrite entry_set_nth by (rewrite ?set_nth_length, ?repeat_length; lia).
    unfold survives. rewrite (py_range_empty 2 (1 + 1)) by lia. cbn [forallb].
    rewrite andb_true_r.
    destruct (Z.eqb_spec j 1) as [->|H1]; [reflexivity|].
    rewrite entry_set_nth by (rewrite ?repeat_length; lia).
    destruct (Z.eqb_spec j 0) as [->|H0]; [reflexivity|].
    rewrite entry_repeat by lia.
    destruct (Z.leb_spec 2 j); [reflexivity|lia].
Qed.

Lemma survives_composite i j :
  2 <= i -> is_prime_b i = false -> survives i j = survives (i - 1) j.
Proof.
  intros Hi Hc. replace i with (i - 1 + 1) at 1 by lia.
  rewrite survives_step by lia. replace (i - 1 + 1) with i by lia.
  destruct (survives (i - 1) j) eqn:E; [|reflexivity]. cbn [andb].
  destruct (Z.eqb_spec (j mod i) 0) as [e|ne]; [|reflexivity]. cbn [negb orb].
  apply Z.eqb_eq. apply survives_spec in E. destruct E as [Hj E].
  destruct (is_prime_b_false i Hi Hc) as (d & Hd & Hmod).
  assert (Hdj : j mod d = 0).
  { apply Z.mod_divide; [lia|]. apply Z.divide_trans with i; apply Z.mod_divide; auto; lia. }
  specialize (E d ltac:(lia) Hdj). subst d.
  apply Z.mod_divide in e; [|lia]. apply Z.divide_pos_le in e; lia.
Qed.

Lemma sieve_visit_inv limit i st :
  limit < 2 ^ 63 -> 2 <= i <= limit -> sieve_inv limit (i - 1) st ->
  exists st', Rigid.sieve_visit limit st i = Ok st' /\ sieve_inv limit i st'.
Proof.
  intros Hbig Hi (Lr & Li & Inv). destruct st as [rads isp]. cbn [fst snd] in *.
  unfold Rigid.sieve_visit. cbn [snd].
  rewrite getitem_in_range by lia. cbn [bind].
  rewrite (proj2 (Inv i ltac:(lia))), survives_below.
  destruct (is_prime_b i) eqn:Ep; cbn [truthy Z.eqb negb].
  - destruct (sieve_mark_loop i (py_range i (limit + 1) i) rads isp)
      as (rads' & isp' & E & Lr' & Li' & P).
    { apply py_range_NoDup. lia. }
    { lia. }
    { intros j Hj. apply py_range_step_In in Hj; lia. }
    exists (rads', isp'). split; [assumption|].
    unfold sieve_inv. cbn [fst snd]. split; [lia|]. split; [lia|].
    intros j Hj. destruct (P j ltac:(lia)) as (P1 & P2 & P3 & P4).
    destruct (Inv j Hj) as [Ir Ii].
    assert (Hin : In j (py_range i (limit + 1) i) <-> i <= j /\ j mod i = 0).
    { rewrite py_range_step_In by lia. lia. }
    assert (Hst : survives i j = survives (i - 1) j && (negb (j mod i =? 0) || (i =? j))).
    { replace i with (i - 1 + 1) at 1 by lia. rewrite survives_step by lia.
      now replace (i - 1 + 1) with i by lia. }
    destruct (Z_lt_le_dec j i) as [Hlt|Hge].
    + split.
      * rewrite P2 by (rewrite Hin; lia). rewrite Ir. f_equal. lia.
      * rewrite P4 by (rewrite Hin; lia). rewrite Ii, Hst.
        destruct (Z.eq_dec j 0) as [->|Hj0]; [reflexivity|].
        rewrite Z.mod_small by lia. destruct (Z.eqb_spec j 0); [lia|].
        cbn [negb orb]. now rewrite andb_true_r.
    + replace (Z.min i j) with i by lia.
      replace (Z.min (i - 1) j) with (i - 1) in Ir by lia.
      replace i with (i - 1 + 1) at 1 by lia. rewrite pprod_snoc by lia.
      replace (i - 1 + 1) with i by lia. rewrite Ep. cbn [andb].
      destruct (Z.eqb_spec (j mod i) 0) as [e|ne].
      * split.
        -- rewrite P1 by (rewrite Hin; lia). rewrite Ir.
           apply int64_small.
           assert (B : 1 <= pprod 2 i j <= j) by (split; [apply pprod_pos|apply pprod_le; lia]).
           assert (S : pprod 2 i j = pprod 2 (i - 1) j * i).
           { replace i with (i - 1 + 1) at 1 by lia. rewrite pprod_snoc by lia.
             replace (i - 1 + 1) with i by lia. now rewrite Ep, e. }
           rewrite <- S. lia.
        -- rewrite Hst. cbn [negb orb].
           destruct (Z.eqb_spec i j) as [<-|Hne].
           ++ rewrite P4 by tauto. rewrite Ii. now rewrite andb_true_r.
           ++ rewrite P3 by (rewrite ?Hin; lia || congruence). now rewrite andb_false_r.
      * split.
        -- rewrite P2 by (rewrite Hin; lia). rewrite Ir. ring.
        -- rewrite P4 by (rewrite Hin; lia). rewrite Ii, Hst.
           cbn [negb orb]. now rewrite andb_true_r.
  - exists (rads, isp). split; [reflexivity|].
    unfold sieve_inv. cbn [fst snd]. split; [assumption|]. split; [assumption|].
    intros j Hj. destruct (Inv j Hj) as [Ir Ii]. split.
    + rewrite Ir. destruct (Z_lt_le_dec j i) as [Hlt|Hge].
      * f_equal. lia.
      * replace (Z.min i j) with i by lia. replace (Z.min (i - 1) j) with (i - 1) by lia.
        replace i with (i - 1 + 1) at 2 by lia. rewrite pprod_snoc by lia.
        replace (i - 1 + 1) with i by lia. rewrite Ep. cbn [andb]. ring.
    + rewrite Ii. rewrite (survives_composite i j) by (assumption || lia). reflexivity.
Qed.

Lemma sieve_loop_inv limit st0 :
  limit < 2 ^ 63 -> sieve_inv limit 1 st0 ->
  forall m, 1 <= m -> m <= limit ->
  exists st, for_each (py_range 2 (m + 1) 1) st0 (Rigid.sieve_visit limit) = Ok st
             /\ sieve_inv limit m st.
Proof.
  intros Hbig H0. apply (upward_ind 1 (fun m => m <= limit -> _)).
  - intros _. exists st0. rewrite py_range_empty by lia. auto.
  - intros h Hh IH Hle. destruct (IH ltac:(lia)) as (st & E & Inv).
    rewrite py_range_unit_snoc by lia. rewrite for_each_app, E. cbn [bind for_each].
    destruct (sieve_visit_inv limit (h + 1) st Hbig ltac:(lia)) as (st' & E' & Inv').
    { now replace (h + 1 - 1) with h by lia. }
    exists st'. rewrite E'. auto.
Qed.

Lemma collect_primes_loop isp xs : forall acc,
  (forall x, In x xs -> 0 <= x < Z.of_nat (length isp)) ->
  for_each xs acc (Rigid.collect_primes isp)
  = Ok (acc ++ filter (fun i => truthy (entry isp i)) xs).
Proof.
  induction xs as [|x xs IH]; intros acc H; cbn [for_each filter].
  - now rewrite app_nil_r.
  - unfold Rigid.collect_primes at 1. rewrite getitem_in_range by (apply H; now left).
    cbn [bind]. rewrite IH by (intros y Hy; apply H; now right).
    destruct (truthy (entry isp x)); [|reflexivity]. now rewrite <- app_assoc.
Qed.

(** ** [sieve_radicals] returns the radical table and the primes *)

Lemma mem_In x s : mem x s = true <-> In x s.
Proof.
  unfold mem. rewrite existsb_exists. split.
  - intros (y & Hy & E). apply Z.eqb_eq in E. now subst.
  - intros H. exists x. split; [assumption|apply Z.eqb_refl].
Qed.

Lemma sieve_radicals_correct limit :
  1 <= limit < 2 ^ 63 ->
  exists rads primes_set,
    Rigid.sieve_radicals limit = Ok (rads, primes_set)
    /\ length rads = Z.to_nat (limit + 1)
    /\ (forall n, 0 <= n <= limit -> entry rads n = radical n)
    /\ (forall x, In x primes_set <-> 2 <= x <= limit /\ is_prime_b x = true).
Proof.
  intros [Hl Hbig]. unfold Rigid.sieve_radicals.
  destruct (Z.ltb_spec (limit + 1) 0); [lia|].
  destruct (sieve_inv_init limit Hl) as (isp0 & E0 & Inv0).
  apply bind_Ok_inv in E0. destruct E0 as (ispa & Ea & Eb).
  rewrite Ea. cbn [bind]. rewrite Eb. cbn [bind].
  destruct (sieve_loop_inv limit _ Hbig Inv0 limit Hl (Z.le_refl _))
    as ([rads isp] & E & Lr & Li & Inv).
  cbn [fst snd] in *. rewrite E. cbn [bind].
  rewrite collect_primes_loop by
    (intros x Hx; apply py_range_unit_In in Hx; lia).
  cbn [bind app]. eexists _, _. split; [reflexivity|]. split; [assumption|]. split.
  - intros n Hn. rewrite (proj1 (Inv n Hn)). replace (Z.min limit n) with n by lia.
    reflexivity.
  - intros x. rewrite filter_In, py_range_unit_In. split.
    + intros [Hx Ht]. split; [lia|].
      rewrite (proj2 (Inv x ltac:(lia))) in Ht. rewrite survives_full in Ht by lia.
      destruct (is_prime_b x); [reflexivity|discriminate].
    + intros [Hx Hp]. split; [lia|].
      rewrite (proj2 (Inv x ltac:(lia))). rewrite survives_full by lia. now rewrite Hp.
Qed.

Lemma sieve_radicals_needs_limit limit r :
  Rigid.sieve_radicals limit = Ok r -> 1 <= limit.
Proof.
  unfold Rigid.sieve_radicals. destruct (Z.ltb_spec (limit + 1) 0); [discriminate|].
  destruct (Z_lt_le_dec limit 1) as [Hlt|Hge]; [|auto].
  assert (C : limit = -1 \/ limit = 0) by lia.
  destruct C as [-> | ->]; discriminate.
Qed.

(** What a table returned by [sieve_radicals] holds. *)
Lemma sieve_radicals_table limit rads primes_set :
  limit < 2 ^ 63 -> Rigid.sieve_radicals limit = Ok (rads, primes_set) ->
  1 <= limit
  /\ length rads = Z.to_nat (limit + 1)
  /\ (forall n, 0 <= n <= limit -> entry rads n = radical n)
  /\ (forall x, mem x primes_set = is_prime_b x && (x <=? limit)).
Proof.
  intros Hbig E. pose proof (sieve_radicals_needs_limit _ _ E) as Hl.
  destruct (sieve_radicals_correct limit (conj Hl Hbig)) as (rads' & ps' & E' & L & T & P).
  rewrite E in E'. injection E' as <- <-.
  repeat split; auto.
  intros x. apply eq_true_iff_eq. rewrite mem_In, P, andb_true_iff, Z.leb_le.
  split; [tauto|]. intros [Hp Hx]. pose proof (is_prime_b_ge2 _ Hp). tauto.
Qed.

(** The prime divisors multiplied into the radical are exactly the primes
    dividing [n], each once. *)
Lemma prime_divisors_in_complete n x :
  1 <= n -> In x (prime_divisors_in 2 n n) <-> Z.prime x /\ (x | n).
Proof.
  intros Hn. rewrite pprod_factors, is_prime_b_prime. split.
  - intros (Hx & Hp & Hm). split; [assumption|]. apply Z.mod_divide; [lia|assumption].
  - intros [Hp Hd]. pose proof (Z.prime_ge_2 _ Hp).
    split; [|split; [assumption|]].
    + split; [lia|]. apply Z.divide_pos_le; [lia|assumption].
    + apply Z.mod_divide; [lia|assumption].
Qed.

Lemma prime_divisors_in_NoDup lo hi n : NoDup (prime_divisors_in lo hi n).
Proof.
  unfold prime_divisors_in. apply NoDup_filter. apply py_range_NoDup. lia.
Qed.

(** ** Dividing a factor out *)

Lemma divide_out_spec d : forall fuel t,
  2 <= d -> 1 <= t -> t < 2 ^ Z.of_nat fuel ->
  exists t' k, divide_out (S fuel) d t = Some t'
               /\ 0 <= k /\ t = d ^ k * t' /\ 1 <= t' /\ t' mod d <> 0.
Proof.
  induction fuel as [|fuel IH]; intros t Hd Ht Hlt.
  - simpl in Hlt. lia.
  - cbn [divide_out]. destruct (Z.eqb_spec (t mod d) 0) as [e|ne].
    + apply Z.mod_divide in e; [|lia]. destruct e as [c ->].
      rewrite Z.div_mul by lia.
      assert (Hc : 1 <= c) by nia.
      assert (Hc2 : c < 2 ^ Z.of_nat fuel).
      { rewrite Nat2Z.inj_succ, Z.pow_succ_r in Hlt by lia. nia. }
      destruct (IH c Hd Hc Hc2) as (t' & k & E & Hk & Hck & Ht' & Hm).
      exists t', (k + 1). cbn [divide_out] in E. rewrite E.
      repeat split; auto; try lia.
      rewrite Z.pow_add_r, Z.pow_1_r by lia. rewrite Hck at 1. ring.
    + exists t, 0. repeat split; auto; try lia.
Qed.

Lemma divide_out_total d t :
  2 <= d -> 1 <= t ->
  exists t' k, divide_out (divide_fuel t) d t = Some t'
               /\ 0 <= k /\ t = d ^ k * t' /\ 1 <= t' /\ t' mod d <> 0.
Proof.
  intros Hd Ht. unfold divide_fuel. apply divide_out_spec; try assumption.
  rewrite Z.abs_eq by lia.
  destruct (Z.log2_spec t ltac:(lia)) as [_ H].
  rewrite Nat2Z.inj_succ, Z2Nat.id by apply Z.log2_nonneg. exact H.
Qed.

Lemma divide_out_indivisible fuel d t :
  t mod d <> 0 -> divide_out (S fuel) d t = Some t.
Proof.
  intros H. cbn [divide_out]. destruct (Z.eqb_spec (t mod d) 0); [contradiction|reflexivity].
Qed.

Lemma divide_out_divisible fuel d t :
  t mod d = 0 -> divide_out (S fuel) d t = divide_out fuel d (t / d).
Proof.
  intros H. cbn [divide_out]. now rewrite H.
Qed.

(** ** The odd part of the radical *)

Lemma prime_ge3_odd x : is_prime_b x = true -> 3 <= x -> Z.odd x = true.
Proof.
  intros Hp Hx. apply is_prime_b_spec in Hp. destruct Hp as [_ Hp].
  specialize (Hp 2 ltac:(lia)). rewrite Zmod_odd in Hp.
  destruct (Z.odd x); [reflexivity|contradiction].
Qed.

Lemma product_odd l : (forall x, In x l -> Z.odd x = true) -> Z.odd (product l) = true.
Proof.
  unfold product. induction l as [|x l IH]; intros H; simpl fold_right; [reflexivity|].
  rewrite Z.odd_mul, H by (now left). rewrite IH; [reflexivity|].
  intros y Hy. apply H. now right.
Qed.

Lemma pprod_odd lo hi n : 3 <= lo -> Z.odd (pprod lo hi n) = true.
Proof.
  intros H. apply product_odd. intros x Hx. apply pprod_factors in Hx.
  apply prime_ge3_odd; [tauto|lia].
Qed.

Lemma is_prime_b_2 : is_prime_b 2 = true.
Proof. reflexivity. Qed.

Lemma radical_odd_part n :
  2 <= n -> radical n = (if n mod 2 =? 0 then 2 else 1) * odd_part_of_radical n.
Proof.
  intros Hn. unfold radical, odd_part_of_radical.
  rewrite (pprod_split 2 2 n n) by lia. f_equal.
  replace 2 with (1 + 1) at 2 by lia. rewrite pprod_snoc by lia.
  rewrite pprod_empty by lia. replace (1 + 1) with 2 by lia.
  rewrite is_prime_b_2. cbn [andb]. ring.
Qed.

Lemma odd_part_of_radical_small n : n <= 2 -> odd_part_of_radical n = 1.
Proof. intros H. apply pprod_empty. lia. Qed.

Lemma odd_mod2 x : Z.odd x = true -> x mod 2 <> 0.
Proof. intros H. rewrite Zmod_odd, H. lia. Qed.

Lemma odd_rad_of_radical rads n :
  0 <= n < Z.of_nat (length rads) -> entry rads n = radical n ->
  Rigid.odd_rad n rads = Ok (odd_part_of_radical n).
Proof.
  intros Hn Hr. unfold Rigid.odd_rad. rewrite getitem_in_range by assumption.
  cbn [bind]. rewrite Hr.
  pose proof (pprod_pos 3 n n) as Hpos. fold (odd_part_of_radical n) in Hpos.
  pose proof (pprod_odd 3 n n ltac:(lia)) as Hodd. fold (odd_part_of_radical n) in Hodd.
  assert (Fin : forall f, divide_out (S f) 2 (odd_part_of_radical n)
                          = Some (odd_part_of_radical n)).
  { intros f. apply divide_out_indivisible. now apply odd_mod2. }
  assert (Hres : (if 0 <? odd_part_of_radical n then odd_part_of_radical n else 1)
                 = odd_part_of_radical n).
  { destruct (Z.ltb_spec 0 (odd_part_of_radical n)); [reflexivity|lia]. }
  destruct (Z_lt_le_dec n 2) as [Hlt|Hge].
  - assert (E : radical n = odd_part_of_radical n).
    { rewrite odd_part_of_radical_small by lia.
      assert (C : n = 0 \/ n = 1) by lia. destruct C as [-> | ->]; reflexivity. }
    rewrite E. unfold divide_fuel. rewrite Fin, Hres. reflexivity.
  - rewrite radical_odd_part by assumption.
    destruct (Z.eqb_spec (n mod 2) 0) as [e|ne].
    + unfold divide_fuel. rewrite divide_out_divisible by (rewrite Z.mul_comm; apply Z_mod_mult).
      rewrite (Z.mul_comm 2), Z.div_mul by lia.
      rewrite Fin, Hres. reflexivity.
    + rewrite Z.mul_1_l. unfold divide_fuel. rewrite Fin, Hres. reflexivity.
Qed.

(** ** Trial division computes the odd part of the radical *)

Lemma pprod_none lo hi n :
  (forall x, lo <= x <= hi -> is_prime_b x = true -> n mod x = 0 -> False) ->
  pprod lo hi n = 1.
Proof.
  intros H. unfold pprod.
  destruct (prime_divisors_in lo hi n) as [|x l] eqn:E; [reflexivity|].
  exfalso. assert (Hx : In x (prime_divisors_in lo hi n)) by (rewrite E; now left).
  apply pprod_factors in Hx. destruct Hx as (H1 & H2 & H3). eauto.
Qed.

Lemma pprod_single t n : is_prime_b t = true -> n mod t = 0 -> pprod t t n = t.
Proof.
  intros Hp Hm. replace t with (t - 1 + 1) at 2 by lia.
  rewrite pprod_snoc by lia. rewrite pprod_empty by lia.
  replace (t - 1 + 1) with t by lia. rewrite Hp, Hm.
  change (0 =? 0) with true. cbn [andb]. lia.
Qed.

Lemma successor_of_odd_not_prime d : 3 <= d -> Z.odd d = true -> is_prime_b (d + 1) = false.
Proof.
  intros Hd Ho. destruct (is_prime_b (d + 1)) eqn:E; [|reflexivity].
  apply is_prime_b_spec in E. destruct E as [_ E].
  exfalso. apply (E 2); [lia|]. rewrite Zmod_odd, Z.odd_add, Ho. reflexivity.
Qed.

Lemma trial_inv_advance n d :
  Z.odd d = true -> 3 <= d ->
  pprod 3 (d + 2 - 1) n
  = pprod 3 (d - 1) n * (if is_prime_b d && (n mod d =? 0) then d else 1).
Proof.
  intros Ho Hd. replace (d + 2 - 1) with (d + 1) by lia.
  rewrite pprod_snoc by lia. rewrite successor_of_odd_not_prime by assumption.
  cbn [andb]. rewrite Z.mul_1_r.
  replace d with (d - 1 + 1) at 1 by lia. rewrite pprod_snoc by lia.
  now replace (d - 1 + 1) with d by lia.
Qed.

Lemma trial_inv_skip n r temp d :
  trial_inv n r temp d -> d * d <= temp -> temp mod d <> 0 ->
  trial_inv n r temp (d + 2).
Proof.
  intros ((Hd1 & Hd2) & Ho & Ht & Hr & H3 & H4) Hsq Hnd.
  unfold trial_inv. split; [nia|]. split.
  { rewrite Z.odd_add, Ho. reflexivity. }
  split; [assumption|]. split; [|split].
  - rewrite (trial_inv_advance n d) by assumption. rewrite <- Hr.
    destruct (is_prime_b d) eqn:Ep; cbn [andb]; [|ring].
    destruct (Z.eqb_spec (n mod d) 0) as [e|ne]; [|ring].
    exfalso. apply Hnd. apply Z.mod_divide; [lia|].
    apply H3; [assumption|lia|]. apply Z.mod_divide; [lia|assumption].
  - intros p Hp Hle. apply H3; [assumption|lia].
  - intros p Hp Hdiv. pose proof (H4 p Hp Hdiv) as Hge.
    destruct (Z.eq_dec p d) as [->|Hne].
    { exfalso. apply Hnd. apply Z.mod_divide; [lia|assumption]. }
    destruct (Z.eq_dec p (d + 1)) as [->|Hne'].
    { rewrite successor_of_odd_not_prime in Hp by assumption. discriminate. }
    lia.
Qed.

Lemma trial_inv_candidate_prime n r temp d :
  trial_inv n r temp d -> temp mod d = 0 -> is_prime_b d = true.
Proof.
  intros ((Hd1 & Hd2) & Ho & Ht & Hr & H3 & H4) Hm.
  destruct (prime_divisor_exists d ltac:(lia)) as (p & Hp & Hpd).
  assert (Hpt : (p | temp)).
  { apply Z.divide_trans with d; [assumption|]. apply Z.mod_divide; [lia|assumption]. }
  pose proof (H4 p Hp Hpt). apply Z.divide_pos_le in Hpd; [|lia].
  now replace d with p by lia.
Qed.

Lemma trial_inv_take n r temp d k temp' :
  trial_inv n r temp d -> d * d <= temp -> temp mod d = 0 ->
  0 <= k -> temp = d ^ k * temp' -> 1 <= temp' -> temp' mod d <> 0 ->
  trial_inv n (r * d) temp' (d + 2).
Proof.
  intros Inv Hsq Hm Hk Hfac Ht' Hnd.
  pose proof (trial_inv_candidate_prime _ _ _ _ Inv Hm) as Hdp.
  destruct Inv as ((Hd1 & Hd2) & Ho & Ht & Hr & H3 & H4).
  assert (Hpow : 0 < d ^ k) by (apply Z.pow_pos_nonneg; lia).
  assert (Hdn : n mod d = 0).
  { apply Z.mod_divide; [lia|]. apply H3; [assumption|lia|].
    apply Z.mod_divide; [lia|assumption]. }
  unfold trial_inv. split; [nia|]. split.
  { rewrite Z.odd_add, Ho. reflexivity. }
  split; [nia|]. split; [|split].
  - rewrite (trial_inv_advance n d) by assumption. rewrite <- Hr.
    now rewrite Hdp, Hdn.
  - intros p Hp Hle. rewrite <- (H3 p Hp ltac:(lia)). rewrite Hfac. split.
    + intros H. now apply Z.divide_mul_r.
    + intros H. apply prime_divides_mul in H; [|assumption].
      destruct H as [H|H]; [|assumption].
      apply prime_divides_pow in H; try assumption.
      apply Z.divide_pos_le in H; lia.
  - intros p Hp Hdiv.
    assert (Hpt : (p | temp)) by (rewrite Hfac; now apply Z.divide_mul_r).
    pose proof (H4 p Hp Hpt) as Hge.
    destruct (Z.eq_dec p d) as [->|Hne].
    { exfalso. apply Hnd. apply Z.mod_divide; [lia|assumption]. }
    destruct (Z.eq_dec p (d + 1)) as [->|Hne'].
    { rewrite successor_of_odd_not_prime in Hp by assumption. discriminate. }
    lia.
Qed.

Lemma trial_inv_finish n r temp d :
  trial_inv n r temp d -> temp < d * d ->
  (if 1 <? temp then r * temp else r) = odd_part_of_radical n.
Proof.
  intros ((Hd1 & Hd2) & Ho & Ht & Hr & H3 & H4) Hsq.
  unfold odd_part_of_radical. rewrite (pprod_split 3 (d - 1) n n) by lia.
  rewrite <- Hr. replace (d - 1 + 1) with d by lia.
  destruct (Z.ltb_spec 1 temp) as [Hgt|Hle].
  - assert (Hp : is_prime_b temp = true).
    { destruct (is_prime_b temp) eqn:E; [reflexivity|].
      destruct (small_prime_divisor temp ltac:(lia) E) as (p & Hp & Hpd & Hpp).
      pose proof (H4 p Hp Hpd). nia. }
    pose proof (H4 temp Hp (Z.divide_refl _)) as Hge.
    assert (Hdiv : n mod temp = 0).
    { apply Z.mod_divide; [lia|]. apply H3; [assumption|lia|apply Z.divide_refl]. }
    f_equal. rewrite (pprod_split d (temp - 1) n n) by lia.
    replace (temp - 1 + 1) with temp by lia.
    rewrite (pprod_split temp temp n n) by lia.
    rewrite pprod_single by assumption.
    assert (Only : forall x, d <= x <= n -> is_prime_b x = true -> n mod x = 0 -> x = temp).
    { intros x Hx Hxp Hxm. apply prime_divides_self_only; try assumption.
      apply H3; [assumption|lia|]. apply Z.mod_divide; [lia|assumption]. }
    rewrite !pprod_none; [ring| |].
    + intros x Hx Hxp Hxm. specialize (Only x ltac:(lia) Hxp Hxm). lia.
    + intros x Hx Hxp Hxm. specialize (Only x ltac:(lia) Hxp Hxm). lia.
  - rewrite pprod_none; [ring|].
    intros x Hx Hxp Hxm.
    assert (Hxt : (x | temp)).
    { apply H3; [assumption|lia|]. apply Z.mod_divide; [|assumption].
      apply is_prime_b_ge2 in Hxp. lia. }
    apply Z.divide_pos_le in Hxt; lia.
Qed.

Lemma trial_loop_correct n : forall fuel r temp d,
  trial_inv n r temp d -> 1 <= Z.of_nat fuel -> temp - d + 1 <= Z.of_nat fuel ->
  exists r' temp',
    ExportData.trial_loop fuel r temp d = Some (r', temp')
    /\ (if 1 <? temp' then r' * temp' else r') = odd_part_of_radical n.
Proof.
  induction fuel as [|fuel IH]; intros r temp d Inv Hf1 Hf2; [simpl in Hf1; lia|].
  cbn [ExportData.trial_loop].
  pose proof Inv as ((Hd1 & Hd2) & Ho & Ht & _).
  destruct (Z.leb_spec (d * d) temp) as [Hsq|Hsq].
  - destruct (Z.eqb_spec (temp mod d) 0) as [e|ne].
    + destruct (divide_out_total d temp ltac:(lia) ltac:(lia))
        as (temp' & k & E & Hk & Hfac & Ht' & Hnd).
      rewrite E.
      assert (Hpow : 0 < d ^ k) by (apply Z.pow_pos_nonneg; lia).
      apply IH; [|nia|nia].
      now apply (trial_inv_take n r temp d k temp').
    + apply IH; [|nia|nia]. now apply trial_inv_skip.
  - exists r, temp. split; [reflexivity|]. now apply (trial_inv_finish n r temp d).
Qed.

Lemma odd_radical_correct n : ExportData.odd_radical n = Ok (odd_part_of_radical n).
Proof.
  unfold ExportData.odd_radical. destruct (Z.leb_spec n 1) as [Hle|Hgt].
  - now rewrite odd_part_of_radical_small by lia.
  - destruct (divide_out_total 2 n ltac:(lia) ltac:(lia))
      as (temp & k & E & Hk & Hfac & Ht & Hnd).
    rewrite E.
    assert (Hpow : 0 < 2 ^ k) by (apply Z.pow_pos_nonneg; lia).
    assert (Inv : trial_inv n 1 temp 3).
    { unfold trial_inv. split; [lia|]. split; [reflexivity|]. split; [nia|].
      split; [now rewrite pprod_empty by lia|]. split.
      - intros p Hp Hle. rewrite Hfac. split.
        + intros H. now apply Z.divide_mul_r.
        + intros H. apply prime_divides_mul in H; [|assumption].
          destruct H as [H|H]; [|assumption].
          apply prime_divides_pow in H; try assumption.
          apply Z.divide_pos_le in H; lia.
      - intros p Hp Hdiv. pose proof (is_prime_b_ge2 _ Hp).
        destruct (Z.eq_dec p 2) as [->|]; [|lia].
        exfalso. apply Hnd. apply Z.mod_divide; [lia|assumption]. }
    destruct (trial_loop_correct n (Z.to_nat n) 1 temp 3 Inv ltac:(lia) ltac:(nia))
      as (r' & temp' & E' & Hres).
    rewrite E'. now rewrite Hres.
Qed.

(** ** The sieve of [export_data.py] *)

Lemma py_range_In a b s j :
  0 < s -> In j (py_range a b s) <-> (a <= j < b /\ (j - a) mod s = 0).
Proof.
  intros Hs. unfold py_range. rewrite in_map_iff. split.
  - intros (k & <- & Hk). apply in_seq in Hk.
    assert (Hq : Z.of_nat k + 1 <= (b - a + s - 1) / s) by lia.
    assert (Hm : s * ((b - a + s - 1) / s) <= b - a + s - 1) by (apply Z.mul_div_le; lia).
    split; [nia|].
    replace (a + s * Z.of_nat k - a) with (Z.of_nat k * s) by ring. apply Z_mod_mult.
  - intros [[H1 H2] H3].
    apply Z.mod_divide in H3; [|lia]. destruct H3 as [c Hc].
    assert (0 <= c) by nia.
    exists (Z.to_nat c). split; [rewrite Z2Nat.id by lia; lia|].
    apply in_seq. split; [lia|].
    assert (c + 1 <= (b - a + s - 1) / s) by (apply Z.div_le_lower_bound; nia). lia.
Qed.

Lemma zero_all_spec xs : forall l,
  (forall x, In x xs -> 0 <= x < Z.of_nat (length l)) ->
  length (fold_left (fun l j => set_nth l (Z.to_nat j) 0) xs l) = length l
  /\ forall j, 0 <= j ->
       (In j xs -> entry (fold_left (fun l j => set_nth l (Z.to_nat j) 0) xs l) j = 0)
       /\ (~ In j xs ->
           entry (fold_left (fun l j => set_nth l (Z.to_nat j) 0) xs l) j = entry l j).
Proof.
  induction xs as [|x xs IH]; intros l H; cbn [fold_left].
  - split; [reflexivity|]. intros j Hj. split; [intros []|reflexivity].
  - assert (Hx : 0 <= x < Z.of_nat (length l)) by (apply H; now left).
    destruct (IH (set_nth l (Z.to_nat x) 0)) as [L P].
    { intros y Hy. rewrite set_nth_length. apply H. now right. }
    rewrite set_nth_length in L. split; [assumption|].
    intros j Hj. destruct (P j Hj) as [P1 P2].
    destruct (in_dec Z.eq_dec j xs) as [Hin|Hnin].
    + split; [intros _; now apply P1|]. intros Hn. exfalso. apply Hn. now right.
    + rewrite (P2 Hnin). rewrite entry_set_nth by lia.
      destruct (Z.eqb_spec j x) as [->|Hne].
      * split; [reflexivity|]. intros Hn. exfalso. apply Hn. now left.
      * split; [intros [e|Hin]; [congruence|contradiction]|reflexivity].
Qed.

Lemma zero_slice_spec isp limit i :
  length isp = Z.to_nat (limit + 1) -> 2 <= i -> i * i <= limit ->
  length (ExportData.zero_slice isp (i * i) i) = length isp
  /\ forall j, 0 <= j <= limit ->
       entry (ExportData.zero_slice isp (i * i) i) j
       = if (i * i <=? j) && (j mod i =? 0) then 0 else entry isp j.
Proof.
  intros L Hi Hsq. unfold ExportData.zero_slice. rewrite L.
  replace (Z.of_nat (Z.to_nat (limit + 1))) with (limit + 1) by lia.
  replace (Z.min (i * i) (limit + 1)) with (i * i) by lia.
  destruct (zero_all_spec (py_range (i * i) (limit + 1) i) isp) as [L' P].
  { intros x Hx. apply py_range_In in Hx; [|lia]. nia. }
  split; [congruence|]. intros j Hj. destruct (P j ltac:(lia)) as [P1 P2].
  assert (Hin : In j (py_range (i * i) (limit + 1) i) <-> i * i <= j /\ j mod i = 0).
  { rewrite py_range_In by lia.
    replace (j - i * i) with (j + (- i) * i) by ring. rewrite Z_mod_plus_full. lia. }
  destruct (Z.leb_spec (i * i) j) as [H1|H1]; cbn [andb].
  - destruct (Z.eqb_spec (j mod i) 0) as [e|ne].
    + apply P1. apply Hin. auto.
    + apply P2. rewrite Hin. tauto.
  - apply P2. rewrite Hin. lia.
Qed.

Lemma unmarked_spec m j :
  unmarked m j = true <->
  2 <= j /\ forall d, 2 <= d <= m -> j mod d = 0 -> j < d * d.
Proof.
  unfold unmarked. rewrite andb_true_iff, Z.leb_le, forallb_forall. split.
  - intros [H1 H2]. split; [assumption|]. intros d Hd Hmod.
    specialize (H2 d (proj2 (py_range_unit_In 2 (m + 1) d) ltac:(lia))).
    rewrite Hmod in H2. cbn in H2. now apply Z.ltb_lt in H2.
  - intros [H1 H2]. split; [assumption|]. intros d Hd.
    apply py_range_unit_In in Hd.
    destruct (Z.eqb_spec (j mod d) 0) as [e|ne]; cbn; [|reflexivity].
    apply Z.ltb_lt. apply H2; [lia|assumption].
Qed.

Lemma unmarked_step m j :
  1 <= m ->
  unmarked (m + 1) j
  = unmarked m j && (negb (j mod (m + 1) =? 0) || (j <? (m + 1) * (m + 1))).
Proof.
  intros Hm. unfold unmarked. rewrite (py_range_unit_snoc 2 (m + 1)) by lia.
  rewrite forallb_app. cbn [forallb]. now rewrite andb_true_r, andb_assoc.
Qed.

Lemma unmarked_false i :
  2 <= i -> unmarked (i - 1) i = false ->
  exists d, 2 <= d < i /\ i mod d = 0 /\ d * d <= i.
Proof.
  intros Hi H. destruct (is_prime_b i) eqn:Ep.
  - exfalso. apply not_true_iff_false in H. apply H. apply unmarked_spec.
    split; [assumption|]. intros d Hd Hm. apply is_prime_b_spec in Ep.
    exfalso. apply (proj2 Ep d); [lia|assumption].
  - destruct (small_prime_divisor i Hi Ep) as (p & Hp & Hpd & Hpp).
    pose proof (is_prime_b_ge2 _ Hp). exists p. split; [nia|].
    split; [|assumption]. apply Z.mod_divide; [lia|assumption].
Qed.

Lemma unmarked_full limit j :
  0 <= j <= limit -> unmarked (Z.sqrt limit) j = is_prime_b j.
Proof.
  intros Hj. apply eq_true_iff_eq. rewrite unmarked_spec. split.
  - intros [H1 H2]. destruct (is_prime_b j) eqn:Ep; [reflexivity|].
    destruct (small_prime_divisor j H1 Ep) as (p & Hp & Hpd & Hpp).
    pose proof (is_prime_b_ge2 _ Hp).
    assert (p <= Z.sqrt limit).
    { apply Z.sqrt_le_square; lia. }
    assert (j < p * p); [|lia].
    apply H2; [lia|]. apply Z.mod_divide; [lia|assumption].
  - intros Hp. apply is_prime_b_spec in Hp. destruct Hp as [H1 H2].
    split; [assumption|]. intros d Hd Hm.
    destruct (Z_lt_le_dec d j) as [Hlt|Hge].
    + exfalso. apply (H2 d); [lia|assumption].
    + nia.
Qed.

Lemma export_visit_inv limit i isp :
  2 <= i -> i * i <= limit -> flags_inv limit (i - 1) isp ->
  exists isp', ExportData.sieve_visit isp i = Ok isp' /\ flags_inv limit i isp'.
Proof.
  intros Hi Hsq [L Inv]. unfold ExportData.sieve_visit.
  rewrite getitem_in_range by nia. cbn [bind].
  eexists. split; [reflexivity|].
  rewrite (Inv i ltac:(nia)).
  assert (Hst : forall j, unmarked i j
                = unmarked (i - 1) j && (negb (j mod i =? 0) || (j <? i * i))).
  { intros j. replace i with (i - 1 + 1) at 1 by lia. rewrite unmarked_step by lia.
    now replace (i - 1 + 1) with i by lia. }
  destruct (unmarked (i - 1) i) eqn:Eu; cbn [truthy Z.eqb negb].
  - destruct (zero_slice_spec isp limit i L Hi Hsq) as [L' P].
    split; [congruence|]. intros j Hj. rewrite (P j Hj), Hst, (Inv j Hj).
    destruct (Z.leb_spec (i * i) j) as [H1|H1]; cbn [andb].
    + destruct (Z.eqb_spec (j mod i) 0) as [e|ne]; cbn [negb orb].
      * destruct (Z.ltb_spec j (i * i)); [lia|]. now rewrite andb_false_r.
      * now rewrite andb_true_r.
    + destruct (Z.ltb_spec j (i * i)); [|lia]. now rewrite orb_true_r, andb_true_r.
  - split; [assumption|]. intros j Hj. rewrite (Inv j Hj), Hst.
    destruct (unmarked (i - 1) j) eqn:Ej; [|reflexivity]. cbn [andb].
    destruct (Z.eqb_spec (j mod i) 0) as [e|ne]; [|reflexivity]. cbn [negb orb].
    destruct (Z.ltb_spec j (i * i)) as [Hlt|Hge]; [reflexivity|].
    exfalso. destruct (unmarked_false i Hi Eu) as (d & Hd & Hdm & Hdd).
    apply unmarked_spec in Ej. destruct Ej as [_ Ej].
    assert (Hjd : j mod d = 0).
    { apply Z.mod_divide; [lia|]. apply Z.divide_trans with i; apply Z.mod_divide; auto; lia. }
    specialize (Ej d ltac:(lia) Hjd). nia.
Qed.

Lemma export_loop_inv limit isp0 :
  flags_inv limit 1 isp0 ->
  forall m, 1 <= m -> m * m <= limit ->
  exists isp, for_each (py_range 2 (m + 1) 1) isp0 ExportData.sieve_visit = Ok isp
              /\ flags_inv limit m isp.
Proof.
  intros H0. apply (upward_ind 1 (fun m => m * m <= limit -> _)).
  - intros _. exists isp0. rewrite py_range_empty by lia. auto.
  - intros h Hh IH Hle. destruct (IH ltac:(nia)) as (isp & E & Inv).
    rewrite py_range_unit_snoc by lia. rewrite for_each_app, E. cbn [bind for_each].
    destruct (export_visit_inv limit (h + 1) isp ltac:(lia) Hle) as (isp' & E' & Inv').
    { now replace (h + 1 - 1) with h by lia. }
    exists isp'. rewrite E'. auto.
Qed.

Lemma sieve_correct limit :
  1 <= limit ->
  exists is_prime,
    ExportData.sieve limit = Ok is_prime
    /\ length is_prime = Z.to_nat (limit + 1)
    /\ forall n, 0 <= n <= limit -> entry is_prime n = (if is_prime_b n then 1 else 0).
Proof.
  intros Hl. unfold ExportData.sieve.
  destruct (sieve_inv_init limit Hl) as (isp0 & E0 & (_ & L0 & Inv0)).
  cbn [fst snd] in *.
  apply bind_Ok_inv in E0. destruct E0 as (ispa & Ea & Eb).
  rewrite Ea. cbn [bind]. rewrite Eb. cbn [bind].
  unfold ExportData.isqrt. destruct (Z.ltb_spec limit 0); [lia|]. cbn [bind].
  assert (F0 : flags_inv limit 1 isp0).
  { split; [assumption|]. intros j Hj. rewrite (proj2 (Inv0 j Hj)).
    unfold survives, unmarked. now rewrite (py_range_empty 2 (1 + 1)) by lia. }
  pose proof (Z.sqrt_spec limit ltac:(lia)) as Hs. cbv zeta in Hs.
  assert (1 <= Z.sqrt limit) by (apply Z.sqrt_le_square; lia).
  destruct (export_loop_inv limit isp0 F0 (Z.sqrt limit)) as (isp & E & L & Inv); [lia|lia|].
  exists isp. split; [assumption|]. split; [assumption|].
  intros n Hn. rewrite (Inv n Hn). now rewrite unmarked_full.
Qed.

(** ** Chen's ratio *)

Lemma ln_IZR_pos z : 1 < z -> (0 < ln (IZR z))%R.
Proof.
  intros H. rewrite <- ln_1. apply ln_increasing; [lra|]. now apply IZR_lt.
Qed.

Lemma chen_rho_value cond N : 2 <= N -> chen_rho cond N = Ok (rho_value cond N).
Proof.
  intros HN. unfold chen_rho, rho_value. destruct (Z.ltb_spec 1 cond) as [Hc|Hc]; [|reflexivity].
  unfold py_log. destruct (Z.leb_spec cond 0); [lia|]. destruct (Z.leb_spec N 0); [lia|].
  cbn [bind]. unfold py_div. destruct (Req_dec_T (ln (IZR N)) 0) as [e|ne]; [|reflexivity].
  pose proof (ln_IZR_pos N ltac:(lia)). lra.
Qed.

Lemma rho_value_nonneg cond N : 2 <= N -> (0 <= rho_value cond N)%R.
Proof.
  intros HN. unfold rho_value. destruct (Z.ltb_spec 1 cond) as [Hc|Hc]; [|lra].
  apply Rlt_le, Rdiv_lt_0_compat; apply ln_IZR_pos; lia.
Qed.

Lemma rho_value_pos cond N : 2 <= N -> 1 < cond -> (0 < rho_value cond N)%R.
Proof.
  intros HN Hc. unfold rho_value. destruct (Z.ltb_spec 1 cond); [|lia].
  apply Rdiv_lt_0_compat; apply ln_IZR_pos; lia.
Qed.

Lemma rho_value_zero cond N : 2 <= N -> rho_value cond N = 0%R <-> cond <= 1.
Proof.
  intros HN. split.
  - intros H. destruct (Z_le_gt_dec cond 1); [assumption|].
    pose proof (rho_value_pos cond N HN ltac:(lia)). lra.
  - intros H. unfold rho_value. destruct (Z.ltb_spec 1 cond); [lia|reflexivity].
Qed.

(** ** The scans as maps over the range of [p] *)

Lemma for_each_map {A B : Type} (f : A -> B) body xs : forall acc,
  (forall acc x, In x xs -> body acc x = Ok (acc ++ [f x])) ->
  for_each xs acc body = Ok (acc ++ map f xs).
Proof.
  induction xs as [|x xs IH]; intros acc H; cbn [for_each map].
  - now rewrite app_nil_r.
  - rewrite H by now left. cbn [bind]. rewrite IH.
    + now rewrite <- app_assoc.
    + intros acc' y Hy. apply H. now right.
Qed.

Lemma scan_range_bounds N p : In p (py_range 3 (N / 2 + 1) 1) -> 3 <= p /\ 2 * p <= N.
Proof.
  intros H. apply py_range_unit_In in H.
  pose proof (Z.mul_div_le N 2 ltac:(lia)). lia.
Qed.

Lemma scan_range_empty N : N <= 5 -> py_range 3 (N / 2 + 1) 1 = [].
Proof.
  intros H. apply py_range_empty; [lia|].
  assert (N / 2 < 3) by (apply Z.div_lt_upper_bound; lia). lia.
Qed.

(** With a radical table covering [0, N - 3], [scan_N] appends one row per
    [p] in [3, N // 2]. *)
Lemma scan_N_rows N limit rads primes_set :
  length rads = Z.to_nat (limit + 1) ->
  (forall n, 0 <= n <= limit -> entry rads n = radical n) ->
  N - 3 <= limit ->
  Rigid.scan_N N rads primes_set
  = Ok (map (rigid_row_of N primes_set) (py_range 3 (N / 2 + 1) 1)).
Proof.
  intros L T Hlim. unfold Rigid.scan_N.
  rewrite (for_each_map (rigid_row_of N primes_set)); [reflexivity|].
  intros acc p Hp. apply scan_range_bounds in Hp. destruct Hp as [Hp1 Hp2].
  assert (Hh : 3 <= N / 2) by (apply Z.div_le_lower_bound; lia).
  assert (Hh2 : N / 2 <= N - 3).
  { assert (2 * (N / 2) <= N) by (apply Z.mul_div_le; lia). lia. }
  unfold Rigid.scan_step. destruct (Z.leb_spec (N - p) 1); [lia|].
  rewrite !odd_rad_of_radical by (try apply T; lia). cbn [bind].
  rewrite chen_rho_value by lia. cbn [bind]. reflexivity.
Qed.

Lemma classify_export a b :
  (if a && b then Goldbach else if negb a && negb b then Composite else Mixed)
  = classify a b.
Proof. destruct a, b; reflexivity. Qed.

(** With flags covering [0, N - 3], the export scan appends one row per [p]
    in [3, N // 2]. *)
Lemma export_scan_rows N is_prime :
  N - 3 < Z.of_nat (length is_prime) ->
  ExportData.scan N is_prime
  = Ok (map (export_row_of N is_prime) (py_range 3 (N / 2 + 1) 1)).
Proof.
  intros L. unfold ExportData.scan.
  rewrite (for_each_map (export_row_of N is_prime)); [reflexivity|].
  intros acc p Hp. apply scan_range_bounds in Hp. destruct Hp as [Hp1 Hp2].
  unfold ExportData.scan_step. destruct (Z.leb_spec (N - p) 1); [lia|].
  rewrite !odd_radical_correct. cbn [bind].
  rewrite chen_rho_value by lia. cbn [bind].
  unfold ExportData.both_prime, ExportData.neither_prime.
  rewrite !getitem_in_range by lia. cbn [bind]. unfold export_row_of.
  rewrite <- classify_export.
  destruct (truthy (entry is_prime p)); cbn [bind negb andb];
    rewrite ?getitem_in_range by lia; cbn [bind];
    destruct (truthy (entry is_prime (N - p))); reflexivity.
Qed.

Lemma scan_N_small N rads primes_set : N <= 5 -> Rigid.scan_N N rads primes_set = Ok [].
Proof.
  intros H. unfold Rigid.scan_N. now rewrite scan_range_empty.
Qed.

Lemma export_scan_small N is_prime : N <= 5 -> ExportData.scan N is_prime = Ok [].
Proof.
  intros H. unfold ExportData.scan. now rewrite scan_range_empty.
Qed.

(** * The radical sieve *)

(** C5.  After [sieve_radicals(limit)] (which returns for every limit from 1
    up to the [int64] range) the radical table holds at every [n] in
    [0, limit] the product of the distinct prime factors of [n], with entry 1
    at 0 and 1, and the returned set holds exactly the primes in [2, limit];
    the flags returned by the export script's [sieve] are set exactly at the
    primes. *)
Theorem sieve_radicals_spec limit :
  1 <= limit < 2 ^ 63 ->
  (exists rads primes_set,
      Rigid.sieve_radicals limit = Ok (rads, primes_set)
      /\ (forall n, 0 <= n <= limit -> getitem rads n = Ok (radical n))
      /\ (forall x, mem x primes_set = true <-> 2 <= x <= limit /\ Z.prime x))
  /\ radical 0 = 1 /\ radical 1 = 1
  /\ (forall n, radical n = product (prime_divisors_in 2 n n)
                /\ NoDup (prime_divisors_in 2 n n)
                /\ (1 <= n -> forall x, In x (prime_divisors_in 2 n n)
                                        <-> Z.prime x /\ (x | n)))
  /\ (exists is_prime,
         ExportData.sieve limit = Ok is_prime
         /\ forall n, 0 <= n <= limit ->
              exists b, getitem is_prime n = Ok b /\ (truthy b = true <-> Z.prime n)).
Proof.
  intros Hl. split; [|split; [reflexivity|split; [reflexivity|split]]].
  - destruct (sieve_radicals_correct limit Hl) as (rads & ps & E & L & T & P).
    exists rads, ps. split; [assumption|]. split.
    + intros n Hn. rewrite getitem_in_range by lia. now rewrite T.
    + intros x. rewrite mem_In, P, is_prime_b_prime. reflexivity.
  - intros n. split; [reflexivity|]. split; [apply prime_divisors_in_NoDup|].
    intros Hn x. now apply prime_divisors_in_complete.
  - destruct (sieve_correct limit (proj1 Hl)) as (isp & E & L & T).
    exists isp. split; [assumption|]. intros n Hn.
    exists (if is_prime_b n then 1 else 0). split.
    + rewrite getitem_in_range by lia. now rewrite T.
    + rewrite <- is_prime_b_prime. destruct (is_prime_b n); cbn; intuition congruence.
Qed.

Lemma sieve_radicals_spec_witness :
  1 <= 30 < 2 ^ 63
  /\ exists rads primes_set,
       Rigid.sieve_radicals 30 = Ok (rads, primes_set)
       /\ getitem rads 30 = Ok (radical 30).
Proof.
  assert (H : 1 <= 30 < 2 ^ 63) by lia.
  split; [exact H|].
  destruct (sieve_radicals_spec 30 H) as ((rads & ps & E & T & _) & _).
  exists rads, ps. split; [exact E|]. apply T. lia.
Defined.

(** * The odd radical *)

(** C4.  On the domain [0, limit] of a built sieve the table-lookup odd
    radical [odd_rad] and the trial-division [odd_radical] return the same
    integer, the product of the odd primes dividing [n]; both return 1 for
    [n <= 1]. *)
Theorem odd_rad_agrees_with_odd_radical limit rads primes_set n :
  limit < 2 ^ 63 ->
  Rigid.sieve_radicals limit = Ok (rads, primes_set) ->
  0 <= n <= limit ->
  exists v, Rigid.odd_rad n rads = Ok v
            /\ ExportData.odd_radical n = Ok v
            /\ v = odd_part_of_radical n
            /\ (n <= 1 -> v = 1).
Proof.
  intros Hbig E Hn.
  destruct (sieve_radicals_table _ _ _ Hbig E) as (Hl & L & T & _).
  exists (odd_part_of_radical n). split; [|split; [|split]].
  - apply odd_rad_of_radical; [lia|now apply T].
  - apply odd_radical_correct.
  - reflexivity.
  - intros H. apply odd_part_of_radical_small. lia.
Qed.

Lemma odd_rad_agrees_with_odd_radical_witness :
  exists v, Rigid.odd_rad 6 [1; 1; 2; 3; 2; 5; 6] = Ok v
            /\ ExportData.odd_radical 6 = Ok v
            /\ v = odd_part_of_radical 6
            /\ (6 <= 1 -> v = 1).
Proof.
  apply (odd_rad_agrees_with_odd_radical 6 [1; 1; 2; 3; 2; 5; 6] [2; 3; 5] 6).
  - lia.
  - reflexivity.
  - lia.
Defined.

(** * The decomposition scan *)

(** C2 fails as stated: for [N = 0] and for a negative [N] both scans return
    the empty sequence; nothing is raised. *)
Lemma scan_of_nonpositive_N_returns :
  Rigid.scan_N 0 [1; 1; 2; 3; 2; 5; 6] [2; 3; 5] = Ok []
  /\ Rigid.scan_N (-4) [1; 1; 2; 3; 2; 5; 6] [2; 3; 5] = Ok []
  /\ ExportData.scan 0 [0; 0; 1; 1; 0; 1; 0] = Ok []
  /\ ExportData.scan (-4) [0; 0; 1; 1; 0; 1; 0] = Ok [].
Proof. repeat split; reflexivity. Qed.

(** C2, amended.  For every [N <= 5], in particular [N = 0] and every
    [N < 0], the decomposition scan raises nothing and returns the empty
    sequence, whatever tables it is given. *)
Theorem scan_below_6_is_empty N rads primes_set is_prime :
  N <= 5 ->
  Rigid.scan_N N rads primes_set = Ok [] /\ ExportData.scan N is_prime = Ok [].
Proof.
  intros H. split; [now apply scan_N_small|now apply export_scan_small].
Qed.

Lemma scan_below_6_is_empty_witness :
  -7 <= 5
  /\ Rigid.scan_N (-7) [1; 1] [] = Ok [] /\ ExportData.scan (-7) [0; 0] = Ok [].
Proof.
  split; [lia|]. apply (scan_below_6_is_empty (-7) [1; 1] [] [0; 0]). lia.
Defined.

(** C3 fails as stated: [N = 8] is even and at least 6, the sieve built to
    [limit = 4 = N / 2] is valid, and the scan raises [IndexError] when it
    looks up [q = 5]. *)
Lemma scan_8_with_limit_4_raises :
  4 >= 8 / 2
  /\ Rigid.sieve_radicals 4 = Ok ([1; 1; 2; 3; 2], [2; 3])
  /\ Rigid.scan_N 8 [1; 1; 2; 3; 2] [2; 3] = Raise IndexError.
Proof. repeat split; try reflexivity. discriminate. Qed.

Lemma scan_N_beyond_table N limit rads primes_set :
  length rads = Z.to_nat (limit + 1) -> 1 <= limit ->
  (forall n, 0 <= n <= limit -> entry rads n = radical n) ->
  6 <= N -> limit < N - 3 ->
  Rigid.scan_N N rads primes_set = Raise IndexError.
Proof.
  intros L Hl T HN Hlim. unfold Rigid.scan_N.
  assert (3 <= N / 2) by (apply Z.div_le_lower_bound; lia).
  rewrite py_range_unit_cons by lia. cbn [for_each].
  assert (S : Rigid.scan_step N rads primes_set [] 3 = Raise IndexError).
  { unfold Rigid.scan_step. destruct (Z.leb_spec (N - 3) 1); [lia|].
    assert (Q : Rigid.odd_rad (N - 3) rads = Raise IndexError).
    { unfold Rigid.odd_rad. now rewrite getitem_beyond by lia. }
    destruct (Z_le_gt_dec 3 limit) as [H3|H3].
    - rewrite odd_rad_of_radical by (try apply T; lia). cbn [bind]. now rewrite Q.
    - unfold Rigid.odd_rad at 1. now rewrite getitem_beyond by lia. }
  now rewrite S.
Qed.

(** C3, amended.  For every [N] (in particular every even [N >= 6]),
    scanning [N] with a sieve built to any limit of at least [N - 3] (within
    the [int64] range) completes and returns one row per [p] in
    [3, N // 2]: no lookup leaves the table.  The bound is exact: for
    [N >= 6] a sieve built to less than [N - 3] makes the scan raise
    [IndexError]. *)
Theorem scan_N_completes N limit rads primes_set :
  limit < 2 ^ 63 ->
  Rigid.sieve_radicals limit = Ok (rads, primes_set) ->
  (N - 3 <= limit ->
   exists rows, Rigid.scan_N N rads primes_set = Ok rows
                /\ Z.of_nat (length rows) = Z.max 0 (N / 2 - 2))
  /\ (6 <= N -> limit < N - 3 ->
      Rigid.scan_N N rads primes_set = Raise IndexError).
Proof.
  intros Hbig E.
  destruct (sieve_radicals_table _ _ _ Hbig E) as (Hl & L & T & _).
  split.
  - intros Hlim. eexists. split; [now apply (scan_N_rows N limit)|].
    rewrite length_map. destruct (Z_le_gt_dec N 5) as [Hs|Hs].
    + rewrite scan_range_empty by assumption.
      assert (N / 2 < 3) by (apply Z.div_lt_upper_bound; lia). simpl. lia.
    + assert (3 <= N / 2) by (apply Z.div_le_lower_bound; lia).
      rewrite py_range_unit_length by lia. lia.
  - intros HN Hlim. now apply (scan_N_beyond_table N limit).
Qed.

Lemma scan_N_completes_witness :
  8 - 3 <= 5
  /\ exists rows, Rigid.scan_N 8 [1; 1; 2; 3; 2; 5] [2; 3; 5] = Ok rows
                  /\ Z.of_nat (length rows) = Z.max 0 (8 / 2 - 2).
Proof.
  assert (B : 5 < 2 ^ 63) by lia.
  assert (E : Rigid.sieve_radicals 5 = Ok ([1; 1; 2; 3; 2; 5], [2; 3; 5])) by reflexivity.
  assert (H : 8 - 3 <= 5) by lia.
  split; [exact H|].
  exact (proj1 (scan_N_completes 8 5 [1; 1; 2; 3; 2; 5] [2; 3; 5] B E) H).
Defined.

(** ** Odd radicals of primes and of powers of two *)

Lemma odd_part_of_radical_prime x :
  is_prime_b x = true -> 3 <= x -> odd_part_of_radical x = x.
Proof.
  intros Hp Hx. unfold odd_part_of_radical.
  rewrite (pprod_split 3 (x - 1) x x) by lia. replace (x - 1 + 1) with x by lia.
  rewrite pprod_single by (assumption || apply Z_mod_same_full).
  rewrite pprod_none; [ring|].
  intros y Hy Hyp Hym.
  assert (y = x); [|lia].
  apply prime_divides_self_only; try assumption. apply Z.mod_divide; [lia|assumption].
Qed.

Lemma odd_part_of_radical_pow2 m : 0 <= m -> odd_part_of_radical (2 ^ m) = 1.
Proof.
  intros Hm. apply pprod_none. intros x Hx Hp Hmod.
  apply Z.mod_divide in Hmod; [|lia].
  apply prime_divides_pow in Hmod; try assumption.
  apply Z.divide_pos_le in Hmod; lia.
Qed.

Lemma odd_part_of_radical_half_pow2 k : 0 <= k -> odd_part_of_radical (2 ^ k / 2) = 1.
Proof.
  intros Hk. destruct (Z.eq_dec k 0) as [->|Hne].
  - reflexivity.
  - replace k with (k - 1 + 1) by lia. rewrite Z.pow_add_r, Z.pow_1_r by lia.
    rewrite Z.div_mul by lia. apply odd_part_of_radical_pow2. lia.
Qed.

Lemma odd_part_of_radical_pos n : 1 <= odd_part_of_radical n.
Proof. apply pprod_pos. Qed.

Lemma scan_1024_row_3 limit :
  1031 <= limit ->
       exists is_prime rows,
         ExportData.sieve limit = Ok is_prime
         /\ ExportData.scan 1024 is_prime = Ok rows
         /\ (exists r, In r rows /\ ExportData.p r = 3 /\ ExportData.q r = 1021
                       /\ ExportData.typ r = Goldbach)
         /\ (forall r, In r rows -> ExportData.p r = 3 ->
               ExportData.q r = 1021 /\ ExportData.typ r = Goldbach
               /\ ExportData.rad_odd_p r = 3 /\ ExportData.rad_odd_q r = 1021
               /\ ExportData.conductor_proxy r = (3 * 1021) ^ 2).
Proof.
  intros Hl.
  destruct (sieve_correct limit ltac:(lia)) as (isp & E & L & T).
  exists isp. eexists. split; [exact E|].
  split; [apply export_scan_rows; lia|].
  assert (P3 : is_prime_b 3 = true) by reflexivity.
  assert (P1021 : is_prime_b 1021 = true) by (vm_compute; reflexivity).
  assert (Row : ExportData.typ (export_row_of 1024 isp 3) = Goldbach
                /\ ExportData.rad_odd_p (export_row_of 1024 isp 3) = 3
                /\ ExportData.rad_odd_q (export_row_of 1024 isp 3) = 1021).
  { unfold export_row_of. cbn [ExportData.typ ExportData.rad_odd_p ExportData.rad_odd_q].
    replace (1024 - 3) with 1021 by lia.
    rewrite !T by lia. rewrite P3, P1021.
    rewrite !odd_part_of_radical_prime by (assumption || lia). auto. }
  destruct Row as (R1 & R2 & R3). split.
  - exists (export_row_of 1024 isp 3). split; [|split; [reflexivity|split; [reflexivity|exact R1]]].
    apply in_map. apply py_range_unit_In. replace (1024 / 2) with 512 by reflexivity. lia.
  - intros r Hr Hp3. apply in_map_iff in Hr. destruct Hr as (x & <- & _).
    cbn [ExportData.p export_row_of] in Hp3. subst x.
    split; [reflexivity|]. split; [exact R1|]. split; [exact R2|]. split; [exact R3|].
    unfold export_row_of in *. cbn [ExportData.conductor_proxy ExportData.rad_odd_p ExportData.rad_odd_q] in *.
    now rewrite R2, R3.
Qed.


(** C9.  [odd_radical(1024) = 1], and with the flags of a sieve built to any
    limit of at least 1031 the product-model scan of [N = 1024] returns rows
    among which the one for [p = 3] has [q = 1021], both odd radicals equal
    to the summands, and category Goldbach; so does the script's own run,
    whose sieve is built to [LIMIT + 1 = 16385]. *)
Theorem scan_1024_has_goldbach_3_1021 :
  ExportData.odd_radical 1024 = Ok 1
  /\ (forall limit, 1031 <= limit ->
       exists is_prime rows,
         ExportData.sieve limit = Ok is_prime
         /\ ExportData.scan 1024 is_prime = Ok rows
         /\ (exists r, In r rows /\ ExportData.p r = 3 /\ ExportData.q r = 1021
                       /\ ExportData.typ r = Goldbach)
         /\ (forall r, In r rows -> ExportData.p r = 3 ->
               ExportData.q r = 1021 /\ ExportData.typ r = Goldbach
               /\ ExportData.rad_odd_p r = 3 /\ ExportData.rad_odd_q r = 1021
               /\ ExportData.conductor_proxy r = (3 * 1021) ^ 2))
  /\ (exists rows,
        ExportData.decompositions_N1024 = Ok rows
        /\ exists r, In r rows /\ ExportData.p r = 3 /\ ExportData.q r = 1021
                     /\ ExportData.typ r = Goldbach).
Proof.
  split; [reflexivity|]. split; [exact scan_1024_row_3|].
  destruct (scan_1024_row_3 (ExportData.LIMIT + 1)) as (isp & rows & E & S & Ex & _).
  { unfold ExportData.LIMIT. lia. }
  exists rows. split; [|exact Ex].
  unfold ExportData.decompositions_N1024. now rewrite E.
Qed.

Lemma scan_1024_has_goldbach_3_1021_witness :
  1031 <= 1031
  /\ exists is_prime rows,
       ExportData.sieve 1031 = Ok is_prime
       /\ ExportData.scan 1024 is_prime = Ok rows
       /\ exists r, In r rows /\ ExportData.p r = 3 /\ ExportData.q r = 1021
                    /\ ExportData.typ r = Goldbach.
Proof.
  assert (H : 1031 <= 1031) by lia.
  split; [exact H|].
  destruct (proj1 (proj2 scan_1024_has_goldbach_3_1021) 1031 H)
    as (isp & rows & E & S & Ex & _).
  exists isp, rows. auto.
Defined.

(** ** What a scan step can append *)

Lemma for_each_rows_inv {A B : Type} (body : list B -> A -> result (list B))
      (Q : A -> B -> Prop) xs :
  (forall acc x acc', In x xs -> body acc x = Ok acc' ->
     acc' = acc \/ exists r, acc' = acc ++ [r] /\ Q x r) ->
  forall acc rows, for_each xs acc body = Ok rows ->
  forall r, In r rows -> In r acc \/ exists x, In x xs /\ Q x r.
Proof.
  induction xs as [|x xs IH]; intros Hb acc rows E r Hr; cbn [for_each] in E.
  - injection E as <-. now left.
  - apply bind_Ok_inv in E. destruct E as (acc' & E1 & E2).
    destruct (IH (fun a y a' Hy => Hb a y a' (or_intror Hy)) acc' rows E2 r Hr)
      as [Hin|(y & Hy & HQ)].
    + destruct (Hb acc x acc' (or_introl eq_refl) E1) as [->|(r' & -> & HQ)].
      * now left.
      * apply in_app_or in Hin. destruct Hin as [Hin|[<-|[]]]; [now left|].
        right. exists x. split; [now left|assumption].
    + right. exists y. split; [now right|assumption].
Qed.

Lemma rigid_scan_step_inv N rads primes_set acc x acc' :
  Rigid.scan_step N rads primes_set acc x = Ok acc' ->
  acc' = acc
  \/ exists r, acc' = acc ++ [r]
               /\ Rigid.p r = x /\ Rigid.q r = N - x
               /\ chen_rho (Rigid.conductor_proxy r) N = Ok (Rigid.rho r).
Proof.
  unfold Rigid.scan_step. destruct (N - x <=? 1); [intros E; injection E as <-; now left|].
  intros E. right.
  apply bind_Ok_inv in E. destruct E as (rp & _ & E).
  apply bind_Ok_inv in E. destruct E as (rq & _ & E).
  apply bind_Ok_inv in E. destruct E as (rM & _ & E).
  apply bind_Ok_inv in E. destruct E as (rho & Er & E).
  injection E as <-. eexists. split; [reflexivity|]. cbn. auto.
Qed.

Lemma export_scan_step_inv N is_prime acc x acc' :
  ExportData.scan_step N is_prime acc x = Ok acc' ->
  acc' = acc
  \/ exists r rho, acc' = acc ++ [r]
                   /\ ExportData.p r = x /\ ExportData.q r = N - x
                   /\ chen_rho (ExportData.conductor_proxy r) N = Ok rho
                   /\ ExportData.rho r = py_round rho 6.
Proof.
  unfold ExportData.scan_step. destruct (N - x <=? 1); [intros E; injection E as <-; now left|].
  intros E. right.
  apply bind_Ok_inv in E. destruct E as (rp & _ & E).
  apply bind_Ok_inv in E. destruct E as (rq & _ & E).
  apply bind_Ok_inv in E. destruct E as (rho & Er & E).
  apply bind_Ok_inv in E. destruct E as (gb & _ & E).
  apply bind_Ok_inv in E. destruct E as (typ & _ & E).
  injection E as <-. eexists. exists rho. split; [reflexivity|]. cbn. auto.
Qed.

(** * Chen's ratio of a decomposition *)

(** C8.  For every decomposition produced by a scan, whatever the tables,
    rho is at least 0 and is 0 exactly when the conductor proxy is at most 1;
    above 1 it is [ln(conductor_proxy) / ln(N)], strictly positive.  In the
    export rows the stored value is this rho rounded to six decimals. *)
Theorem rho_nonneg_zero_iff_trivial_conductor N :
  (forall rads primes_set rows r,
      Rigid.scan_N N rads primes_set = Ok rows -> In r rows ->
      (0 <= Rigid.rho r)%R
      /\ (Rigid.rho r = 0%R <-> Rigid.conductor_proxy r <= 1)
      /\ (1 < Rigid.conductor_proxy r ->
          Rigid.rho r = (ln (IZR (Rigid.conductor_proxy r)) / ln (IZR N))%R
          /\ (0 < Rigid.rho r)%R))
  /\ (forall is_prime rows r,
         ExportData.scan N is_prime = Ok rows -> In r rows ->
         exists rho,
           ExportData.rho r = py_round rho 6
           /\ (0 <= rho)%R
           /\ (rho = 0%R <-> ExportData.conductor_proxy r <= 1)
           /\ (1 < ExportData.conductor_proxy r ->
               rho = (ln (IZR (ExportData.conductor_proxy r)) / ln (IZR N))%R
               /\ (0 < rho)%R)).
Proof.
  assert (V : forall cond, 1 < cond ->
                rho_value cond N = (ln (IZR cond) / ln (IZR N))%R).
  { intros cond H. unfold rho_value. destruct (Z.ltb_spec 1 cond); [reflexivity|lia]. }
  split.
  - intros rads ps rows r E Hr. unfold Rigid.scan_N in E.
    destruct (for_each_rows_inv _ _ _
                (fun acc x acc' _ => rigid_scan_step_inv N rads ps acc x acc')
                _ _ E r Hr) as [[]|(x & Hx & _ & _ & Hrho)].
    apply scan_range_bounds in Hx. rewrite chen_rho_value in Hrho by lia.
    injection Hrho as Hrho. rewrite <- Hrho.
    split; [apply rho_value_nonneg; lia|]. split; [apply rho_value_zero; lia|].
    intros Hc. split; [now apply V|apply rho_value_pos; lia].
  - intros isp rows r E Hr. unfold ExportData.scan in E.
    destruct (for_each_rows_inv _
                (fun x r => exists rho, ExportData.p r = x /\ ExportData.q r = N - x
                   /\ chen_rho (ExportData.conductor_proxy r) N = Ok rho
                   /\ ExportData.rho r = py_round rho 6) _
                (fun acc x acc' _ H =>
                   match export_scan_step_inv N isp acc x acc' H with
                   | or_introl e => or_introl e
                   | or_intror (ex_intro _ r (ex_intro _ rho (conj e P))) =>
                       or_intror (ex_intro _ r (conj e (ex_intro _ rho P)))
                   end)
                _ _ E r Hr) as [[]|(x & Hx & rho & _ & _ & Hrho & Hround)].
    apply scan_range_bounds in Hx. rewrite chen_rho_value in Hrho by lia.
    injection Hrho as Hrho. subst rho. eexists.
    split; [exact Hround|]. split; [apply rho_value_nonneg; lia|].
    split; [apply rho_value_zero; lia|].
    intros Hc. split; [now apply V|apply rho_value_pos; lia].
Qed.

Lemma table_of_limit_5 :
  length [1; 1; 2; 3; 2; 5] = Z.to_nat (5 + 1)
  /\ forall n, 0 <= n <= 5 -> entry [1; 1; 2; 3; 2; 5] n = radical n.
Proof.
  assert (E : Rigid.sieve_radicals 5 = Ok ([1; 1; 2; 3; 2; 5], [2; 3; 5])) by reflexivity.
  destruct (sieve_radicals_table 5 _ _ ltac:(lia) E) as (_ & L & T & _). auto.
Qed.

Lemma rho_nonneg_zero_iff_trivial_conductor_witness :
  exists rows r,
    Rigid.scan_N 8 [1; 1; 2; 3; 2; 5] [2; 3; 5] = Ok rows /\ In r rows
    /\ (0 <= Rigid.rho r)%R
    /\ (Rigid.rho r = 0%R <-> Rigid.conductor_proxy r <= 1).
Proof.
  exists (map (rigid_row_of 8 [2; 3; 5]) (py_range 3 (8 / 2 + 1) 1)).
  exists (rigid_row_of 8 [2; 3; 5] 3).
  assert (E : Rigid.scan_N 8 [1; 1; 2; 3; 2; 5] [2; 3; 5]
              = Ok (map (rigid_row_of 8 [2; 3; 5]) (py_range 3 (8 / 2 + 1) 1))).
  { apply (scan_N_rows 8 5); [apply table_of_limit_5|apply table_of_limit_5|lia]. }
  assert (I : In (rigid_row_of 8 [2; 3; 5] 3)
                 (map (rigid_row_of 8 [2; 3; 5]) (py_range 3 (8 / 2 + 1) 1))).
  { apply in_map. left. reflexivity. }
  split; [exact E|]. split; [exact I|].
  destruct (proj1 (rho_nonneg_zero_iff_trivial_conductor 8) _ _ _ _ E I) as (H1 & H2 & _).
  split; [exact H1|exact H2].
Defined.

(** * Goldbach decompositions *)

Lemma classify_Goldbach a b : classify a b = Goldbach <-> a = true /\ b = true.
Proof. destruct a, b; cbn; intuition congruence. Qed.

Lemma rigid_row_goldbach N limit primes_set x :
  (forall y, mem y primes_set = is_prime_b y && (y <=? limit)) ->
  3 <= x -> 2 * x <= N ->
  Rigid.cat (rigid_row_of N primes_set x) = Goldbach ->
  is_prime_b x = true /\ is_prime_b (N - x) = true
  /\ Rigid.rad_odd_p (rigid_row_of N primes_set x) = x
  /\ Rigid.rad_odd_q (rigid_row_of N primes_set x) = N - x
  /\ 81 <= Rigid.conductor_proxy (rigid_row_of N primes_set x)
  /\ (0 < Rigid.rho (rigid_row_of N primes_set x))%R.
Proof.
  intros M Hx1 Hx2 Hc. unfold rigid_row_of in *.
  cbn [Rigid.cat Rigid.rad_odd_p Rigid.rad_odd_q Rigid.conductor_proxy Rigid.rho] in *.
  apply classify_Goldbach in Hc. rewrite !M in Hc. destruct Hc as [Hp Hq].
  apply andb_true_iff in Hp, Hq. destruct Hp as [Hp _]. destruct Hq as [Hq _].
  rewrite !odd_part_of_radical_prime by (assumption || lia).
  pose proof (odd_part_of_radical_pos (N / 2)) as HM.
  set (rM := odd_part_of_radical (N / 2)) in *.
  assert (Hb : 9 <= x * (N - x) * rM * rM) by nia.
  assert (Hcond : 81 <= x * (N - x) * rM * rM * (x * (N - x) * rM * rM)) by nia.
  repeat split; auto. apply rho_value_pos; lia.
Qed.

Lemma goldbach_rows_facts N limit rads primes_set rows :
  limit < 2 ^ 63 -> N - 3 <= limit ->
  Rigid.sieve_radicals limit = Ok (rads, primes_set) ->
  Rigid.scan_N N rads primes_set = Ok rows ->
  (forall r, In r rows -> Rigid.cat r = Goldbach ->
     3 <= Rigid.p r /\ 3 <= Rigid.q r
     /\ Z.prime (Rigid.p r) /\ Z.prime (Rigid.q r)
     /\ Rigid.rad_odd_p r = Rigid.p r /\ Rigid.rad_odd_q r = Rigid.q r
     /\ 81 <= Rigid.conductor_proxy r
     /\ (0 < Rigid.rho r)%R)
  /\ Rigid.gb_k rows = positive_rhos Goldbach rows
  /\ Rigid.of_cat Goldbach rows
     = filter (fun r => category_eqb (Rigid.cat r) Goldbach && pos (Rigid.rho r)) rows.
Proof.
  intros Hbig Hlim E S.
  destruct (sieve_radicals_table _ _ _ Hbig E) as (Hl & L & T & M).
  rewrite (scan_N_rows N limit rads primes_set L T Hlim) in S. injection S as <-.
  assert (G : forall r, In r (map (rigid_row_of N primes_set) (py_range 3 (N / 2 + 1) 1)) ->
                Rigid.cat r = Goldbach ->
                3 <= Rigid.p r /\ 3 <= Rigid.q r
                /\ Z.prime (Rigid.p r) /\ Z.prime (Rigid.q r)
                /\ Rigid.rad_odd_p r = Rigid.p r /\ Rigid.rad_odd_q r = Rigid.q r
                /\ 81 <= Rigid.conductor_proxy r
                /\ (0 < Rigid.rho r)%R).
  { intros r Hr Hc. apply in_map_iff in Hr. destruct Hr as (x & <- & Hx).
    apply scan_range_bounds in Hx. destruct Hx as [Hx1 Hx2].
    destruct (rigid_row_goldbach N limit primes_set x M Hx1 Hx2 Hc)
      as (Hp & Hq & R1 & R2 & C & P).
    cbn [Rigid.p Rigid.q rigid_row_of] in *.
    repeat split; try (apply is_prime_b_prime); auto; lia. }
  assert (F : forall r, In r (map (rigid_row_of N primes_set) (py_range 3 (N / 2 + 1) 1)) ->
                category_eqb (Rigid.cat r) Goldbach
                = category_eqb (Rigid.cat r) Goldbach && pos (Rigid.rho r)).
  { intros r Hr. destruct (Rigid.cat r) eqn:Ec; cbn [category_eqb andb]; try reflexivity.
    destruct (G r Hr Ec) as (_ & _ & _ & _ & _ & _ & _ & P).
    unfold pos. destruct (Rlt_dec 0 (Rigid.rho r)); [reflexivity|contradiction]. }
  split; [exact G|]. split.
  - unfold Rigid.gb_k, positive_rhos. f_equal. now apply filter_ext_in.
  - unfold Rigid.of_cat. now apply filter_ext_in.
Qed.

Lemma sieve_needs_limit limit r : ExportData.sieve limit = Ok r -> 1 <= limit.
Proof.
  unfold ExportData.sieve. intros E.
  destruct (Z_le_gt_dec 1 limit) as [H|H]; [assumption|exfalso].
  destruct (Z.eq_dec limit 0) as [->|Hne]; [discriminate|].
  replace (Z.to_nat (limit + 1)) with 0%nat in E by lia. discriminate.
Qed.

(** * Zero ramification at powers of two *)

Lemma rows_agree_at_pow2 k primes_set is_prime xs :
  0 <= k ->
  Forall2 (fun r r' =>
             Rigid.p r = ExportData.p r' /\ Rigid.q r = ExportData.q r'
             /\ Rigid.rad_odd_p r = ExportData.rad_odd_p r'
             /\ Rigid.rad_odd_q r = ExportData.rad_odd_q r'
             /\ Rigid.conductor_proxy r = ExportData.conductor_proxy r'
             /\ Rigid.conductor_proxy r = (Rigid.rad_odd_p r * Rigid.rad_odd_q r) ^ 2
             /\ Rigid.rho r = rho_value (ExportData.conductor_proxy r') (2 ^ k)
             /\ ExportData.rho r' = py_round (Rigid.rho r) 6)
          (map (rigid_row_of (2 ^ k) primes_set) xs)
          (map (export_row_of (2 ^ k) is_prime) xs).
Proof.
  intros Hk. induction xs as [|x xs IH]; cbn [map]; constructor; [|assumption].
  unfold rigid_row_of, export_row_of.
  cbn [Rigid.p Rigid.q Rigid.rad_odd_p Rigid.rad_odd_q Rigid.conductor_proxy Rigid.rho
       ExportData.p ExportData.q ExportData.rad_odd_p ExportData.rad_odd_q
       ExportData.conductor_proxy ExportData.rho].
  rewrite odd_part_of_radical_half_pow2 by assumption.
  assert (C : odd_part_of_radical x * odd_part_of_radical (2 ^ k - x) * 1 * 1
              * (odd_part_of_radical x * odd_part_of_radical (2 ^ k - x) * 1 * 1)
              = (odd_part_of_radical x * odd_part_of_radical (2 ^ k - x)) ^ 2) by ring.
  rewrite C. repeat split; reflexivity.
Qed.

(** C6.  For [N = 2^k] and sieves covering [0, N - 3], [odd_rad(N // 2)] is 1
    and the scan that folds it into the base returns, decomposition by
    decomposition, the conductor proxy [(rp * rq)^2] of the product-model
    scan, hence the same rho (which the export rows store rounded to six
    decimals). *)
Theorem conductor_models_agree_at_powers_of_two k limit limit' rads primes_set is_prime :
  0 <= k ->
  limit < 2 ^ 63 -> 2 ^ k - 3 <= limit -> 2 ^ k - 3 <= limit' ->
  Rigid.sieve_radicals limit = Ok (rads, primes_set) ->
  ExportData.sieve limit' = Ok is_prime ->
  (2 ^ k / 2 <= limit -> Rigid.odd_rad (2 ^ k / 2) rads = Ok 1)
  /\ exists rows rows',
       Rigid.scan_N (2 ^ k) rads primes_set = Ok rows
       /\ ExportData.scan (2 ^ k) is_prime = Ok rows'
       /\ Forall2 (fun r r' =>
             Rigid.p r = ExportData.p r' /\ Rigid.q r = ExportData.q r'
             /\ Rigid.rad_odd_p r = ExportData.rad_odd_p r'
             /\ Rigid.rad_odd_q r = ExportData.rad_odd_q r'
             /\ Rigid.conductor_proxy r = ExportData.conductor_proxy r'
             /\ Rigid.conductor_proxy r = (Rigid.rad_odd_p r * Rigid.rad_odd_q r) ^ 2
             /\ Rigid.rho r = rho_value (ExportData.conductor_proxy r') (2 ^ k)
             /\ ExportData.rho r' = py_round (Rigid.rho r) 6)
          rows rows'.
Proof.
  intros Hk Hbig Hlim Hlim' E E'.
  destruct (sieve_radicals_table _ _ _ Hbig E) as (Hl & L & T & _).
  pose proof (sieve_needs_limit _ _ E') as Hl'.
  destruct (sieve_correct limit' Hl') as (isp & Es & Ls & _).
  rewrite E' in Es. injection Es as <-.
  assert (Hpos : 0 < 2 ^ k) by (apply Z.pow_pos_nonneg; lia).
  assert (Hhalf : 0 <= 2 ^ k / 2) by (apply Z.div_pos; lia).
  split.
  - intros Hh. rewrite odd_rad_of_radical by (try apply T; lia).
    now rewrite odd_part_of_radical_half_pow2.
  - eexists. eexists.
    split; [now apply (scan_N_rows (2 ^ k) limit)|].
    split; [apply export_scan_rows; lia|].
    now apply rows_agree_at_pow2.
Qed.

Lemma conductor_models_agree_at_powers_of_two_witness :
  exists rows rows',
    Rigid.scan_N (2 ^ 3) [1; 1; 2; 3; 2; 5] [2; 3; 5] = Ok rows
    /\ ExportData.scan (2 ^ 3) [0; 0; 1; 1; 0; 1] = Ok rows'
    /\ Forall2 (fun r r' =>
          Rigid.p r = ExportData.p r' /\ Rigid.q r = ExportData.q r'
          /\ Rigid.rad_odd_p r = ExportData.rad_odd_p r'
          /\ Rigid.rad_odd_q r = ExportData.rad_odd_q r'
          /\ Rigid.conductor_proxy r = ExportData.conductor_proxy r'
          /\ Rigid.conductor_proxy r = (Rigid.rad_odd_p r * Rigid.rad_odd_q r) ^ 2
          /\ Rigid.rho r = rho_value (ExportData.conductor_proxy r') (2 ^ 3)
          /\ ExportData.rho r' = py_round (Rigid.rho r) 6)
       rows rows'.
Proof.
  apply (conductor_models_agree_at_powers_of_two 3 5 5
           [1; 1; 2; 3; 2; 5] [2; 3; 5] [0; 0; 1; 1; 0; 1]).
  - lia.
  - lia.
  - simpl. lia.
  - simpl. lia.
  - reflexivity.
  - reflexivity.
Defined.

(** * Aggregation *)

(** ** Minimum, maximum and mean of a list *)

Lemma fold_left_Rmin_spec l : forall x,
  In (fold_left Rmin l x) (x :: l)
  /\ forall y, In y (x :: l) -> (fold_left Rmin l x <= y)%R.
Proof.
  induction l as [|a l IH]; intros x; cbn [fold_left].
  - split; [now left|]. intros y [<-|[]]. lra.
  - destruct (IH (Rmin x a)) as [I B]. split.
    + destruct I as [I|I]; [|right; now right].
      rewrite <- I. unfold Rmin. destruct (Rle_dec x a); [now left|right; now left].
    + intros y Hy.
      assert (Bm : (fold_left Rmin l (Rmin x a) <= Rmin x a)%R) by (apply B; now left).
      destruct Hy as [<-|[<-|Hy]].
      * pose proof (Rmin_l x a). lra.
      * pose proof (Rmin_r x a). lra.
      * apply B. now right.
Qed.

Lemma fold_left_Rmax_spec l : forall x,
  In (fold_left Rmax l x) (x :: l)
  /\ forall y, In y (x :: l) -> (y <= fold_left Rmax l x)%R.
Proof.
  induction l as [|a l IH]; intros x; cbn [fold_left].
  - split; [now left|]. intros y [<-|[]]. lra.
  - destruct (IH (Rmax x a)) as [I B]. split.
    + destruct I as [I|I]; [|right; now right].
      rewrite <- I. unfold Rmax. destruct (Rle_dec x a); [right; now left|now left].
    + intros y Hy.
      assert (Bm : (Rmax x a <= fold_left Rmax l (Rmax x a))%R) by (apply B; now left).
      destruct Hy as [<-|[<-|Hy]].
      * pose proof (Rmax_l x a). lra.
      * pose proof (Rmax_r x a). lra.
      * apply B. now right.
Qed.

(** [min(l)] is the least element of [l]; it raises on the empty list. *)
Lemma py_min_spec l m :
  py_min l = Ok m <-> In m l /\ forall y, In y l -> (m <= y)%R.
Proof.
  destruct l as [|x l]; cbn [py_min].
  - split; [discriminate|intros [[] _]].
  - destruct (fold_left_Rmin_spec l x) as [I B]. split.
    + intros E. injection E as <-. auto.
    + intros [I' B']. f_equal. apply Rle_antisym; [now apply B|now apply B'].
Qed.

Lemma py_max_spec l m :
  py_max l = Ok m <-> In m l /\ forall y, In y l -> (y <= m)%R.
Proof.
  destruct l as [|x l]; cbn [py_max].
  - split; [discriminate|intros [[] _]].
  - destruct (fold_left_Rmax_spec l x) as [I B]. split.
    + intros E. injection E as <-. auto.
    + intros [I' B']. f_equal. apply Rle_antisym; [now apply B'|now apply B].
Qed.

Lemma py_min_perm l l' : Permutation l l' -> py_min l = py_min l'.
Proof.
  intros P. destruct l as [|x l].
  - apply Permutation_nil in P. now subst.
  - symmetry. apply py_min_spec.
    destruct (fold_left_Rmin_spec l x) as [I B]. split.
    + now apply (Permutation_in _ P).
    + intros y Hy. apply B. apply (Permutation_in _ (Permutation_sym P)). assumption.
Qed.

Lemma py_max_perm l l' : Permutation l l' -> py_max l = py_max l'.
Proof.
  intros P. destruct l as [|x l].
  - apply Permutation_nil in P. now subst.
  - symmetry. apply py_max_spec.
    destruct (fold_left_Rmax_spec l x) as [I B]. split.
    + now apply (Permutation_in _ P).
    + intros y Hy. apply B. apply (Permutation_in _ (Permutation_sym P)). assumption.
Qed.

Lemma Rsum_perm l l' : Permutation l l' -> Rsum l = Rsum l'.
Proof.
  unfold Rsum. induction 1; cbn [fold_right]; lra.
Qed.

Lemma np_mean_perm l l' : Permutation l l' -> np_mean l = np_mean l'.
Proof.
  intros P. unfold np_mean. fold (Rsum l) (Rsum l').
  now rewrite (Rsum_perm _ _ P), (Permutation_length P).
Qed.

Lemma range_mean_perm l l' :
  Permutation l l' -> Rigid.range_mean l = Rigid.range_mean l'.
Proof.
  intros P. unfold Rigid.range_mean.
  now rewrite (py_min_perm _ _ P), (py_max_perm _ _ P), (np_mean_perm _ _ P).
Qed.

Lemma bandwidth_perm l l' :
  Permutation l l' -> Rigid.bandwidth l = Rigid.bandwidth l'.
Proof.
  intros P. unfold Rigid.bandwidth.
  now rewrite (py_min_perm _ _ P), (py_max_perm _ _ P).
Qed.

(** ** Sorting by rho rearranges *)

Lemma insert_by_rho_perm r l : Permutation (Rigid.insert_by_rho r l) (r :: l).
Proof.
  induction l as [|h t IH]; cbn [Rigid.insert_by_rho]; [reflexivity|].
  destruct (Rle_dec (Rigid.rho r) (Rigid.rho h)); [reflexivity|].
  rewrite IH. apply perm_swap.
Qed.

Lemma sort_by_rho_perm l : Permutation (Rigid.sort_by_rho l) l.
Proof.
  unfold Rigid.sort_by_rho. induction l as [|h t IH]; cbn [fold_right]; [reflexivity|].
  rewrite insert_by_rho_perm. now constructor.
Qed.

Lemma filter_perm {A : Type} (f : A -> bool) l l' :
  Permutation l l' -> Permutation (filter f l) (filter f l').
Proof.
  induction 1; cbn [filter].
  - reflexivity.
  - destruct (f x); [now constructor|assumption].
  - destruct (f x), (f y); try reflexivity. apply perm_swap.
  - etransitivity; eassumption.
Qed.

Lemma filter_twice {A : Type} (f g : A -> bool) l :
  filter g (filter f l) = filter (fun x => f x && g x) l.
Proof.
  induction l as [|a l IH]; cbn [filter]; [reflexivity|].
  destruct (f a); cbn [filter andb]; [|assumption].
  destruct (g a); now rewrite IH.
Qed.

(** ** The rho lists of the summary and of the 2^k loops *)

Lemma of_cat_positive c rows :
  map Rigid.rho (filter (fun r => pos (Rigid.rho r)) (Rigid.of_cat c rows))
  = positive_rhos c rows.
Proof. unfold Rigid.of_cat, positive_rhos. now rewrite filter_twice. Qed.

Lemma mix_rhos_positive rows : Rigid.mix_rhos rows = positive_rhos Mixed rows.
Proof. apply of_cat_positive. Qed.

Lemma comp_rhos_positive rows :
  Permutation (Rigid.comp_rhos rows) (positive_rhos Composite rows).
Proof.
  unfold Rigid.comp_rhos. rewrite <- of_cat_positive.
  apply Permutation_map, filter_perm, sort_by_rho_perm.
Qed.

Lemma comp_k_positive rows : Rigid.comp_k rows = positive_rhos Composite rows.
Proof. reflexivity. Qed.

Lemma export_series_step N is_prime gb comp x :
  N - 3 < Z.of_nat (length is_prime) -> 3 <= x -> 2 * x <= N ->
  ExportData.series_step N is_prime (gb, comp) x
  = Ok (if category_eqb (export_class is_prime N x) Goldbach
        then gb ++ [export_rho_of N x] else gb,
        if category_eqb (export_class is_prime N x) Composite
           && pos (export_rho_of N x)
        then comp ++ [export_rho_of N x] else comp).
Proof.
  intros L Hx1 Hx2. unfold ExportData.series_step.
  destruct (Z.leb_spec (N - x) 1); [lia|].
  rewrite !odd_radical_correct. cbn [bind].
  rewrite chen_rho_value by lia. cbn [bind]. fold (export_rho_of N x).
  unfold ExportData.both_prime, ExportData.neither_prime, export_class.
  rewrite !getitem_in_range by lia. cbn [bind].
  destruct (truthy (entry is_prime x)); cbn [bind negb andb];
    rewrite ?getitem_in_range by lia; cbn [bind];
    destruct (truthy (entry is_prime (N - x))); cbn [negb andb classify category_eqb orb];
    try reflexivity.
  destruct (pos (export_rho_of N x)); reflexivity.
Qed.

Lemma export_series_loop N is_prime xs : forall gb comp,
  N - 3 < Z.of_nat (length is_prime) ->
  (forall x, In x xs -> 3 <= x /\ 2 * x <= N) ->
  for_each xs (gb, comp) (ExportData.series_step N is_prime)
  = Ok (gb ++ map (export_rho_of N)
                  (filter (fun p => category_eqb (export_class is_prime N p) Goldbach) xs),
        comp ++ map (export_rho_of N)
                    (filter (fun p => category_eqb (export_class is_prime N p) Composite
                                      && pos (export_rho_of N p)) xs)).
Proof.
  induction xs as [|x xs IH]; intros gb comp L H; cbn [for_each filter map].
  - now rewrite !app_nil_r.
  - destruct (H x (or_introl eq_refl)) as [Hx1 Hx2].
    rewrite export_series_step by assumption. cbn [bind].
    rewrite IH by (auto; intros y Hy; apply H; now right).
    destruct (category_eqb (export_class is_prime N x) Goldbach);
      destruct (category_eqb (export_class is_prime N x) Composite && pos (export_rho_of N x));
      cbn [map]; rewrite <- ?app_assoc; reflexivity.
Qed.

Lemma export_goldbach_positive limit is_prime N x :
  ExportData.sieve limit = Ok is_prime -> N - 3 <= limit ->
  3 <= x -> 2 * x <= N ->
  export_class is_prime N x = Goldbach -> (0 < export_rho_of N x)%R.
Proof.
  intros E Hlim Hx1 Hx2 Hc.
  pose proof (sieve_needs_limit _ _ E) as Hl.
  destruct (sieve_correct limit Hl) as (isp & Es & Ls & T).
  rewrite E in Es. injection Es as <-.
  unfold export_class in Hc. apply classify_Goldbach in Hc.
  rewrite !T in Hc by lia. destruct Hc as [Hp Hq].
  assert (Pp : is_prime_b x = true) by (destruct (is_prime_b x); [reflexivity|discriminate]).
  assert (Pq : is_prime_b (N - x) = true)
    by (destruct (is_prime_b (N - x)); [reflexivity|discriminate]).
  unfold export_rho_of. rewrite !odd_part_of_radical_prime by (assumption || lia).
  apply rho_value_pos; [lia|]. rewrite Z.pow_2_r. nia.
Qed.

(** With the flags of a sieve covering [0, N - 3], the inner loop of the
    evolution table leaves in [gb_rhos] and [comp_rhos] the rho values of the
    Goldbach and Composite decompositions with rho > 0. *)
Lemma export_series_lists limit is_prime N :
  ExportData.sieve limit = Ok is_prime -> N - 3 <= limit ->
  for_each (py_range 3 (N / 2 + 1) 1) ([], []) (ExportData.series_step N is_prime)
  = Ok (export_positive_rhos Goldbach is_prime N,
        export_positive_rhos Composite is_prime N).
Proof.
  intros E Hlim.
  pose proof (sieve_needs_limit _ _ E) as Hl.
  destruct (sieve_correct limit Hl) as (isp & Es & Ls & T).
  rewrite E in Es. injection Es as <-.
  rewrite export_series_loop by (try apply scan_range_bounds; lia).
  cbn [app]. unfold export_positive_rhos. do 3 f_equal.
  apply filter_ext_in. intros x Hx. apply scan_range_bounds in Hx.
  destruct (category_eqb (export_class is_prime N x) Goldbach) eqn:Ec; [|reflexivity].
  assert (Hc : export_class is_prime N x = Goldbach)
    by (destruct (export_class is_prime N x); [reflexivity|discriminate|discriminate]).
  pose proof (export_goldbach_positive limit is_prime N x E Hlim
                (proj1 Hx) (proj2 Hx) Hc) as P.
  unfold pos. destruct (Rlt_dec 0 (export_rho_of N x)); [reflexivity|contradiction].
Qed.

Lemma summary_rhos_positive N limit rads primes_set rows c :
  limit < 2 ^ 63 -> N - 3 <= limit ->
  Rigid.sieve_radicals limit = Ok (rads, primes_set) ->
  Rigid.scan_N N rads primes_set = Ok rows ->
  Permutation (summary_rhos c rows) (positive_rhos c rows).
Proof.
  intros Hbig Hlim E S. destruct c; cbn [summary_rhos].
  - destruct (goldbach_rows_facts N limit rads primes_set rows Hbig Hlim E S)
      as (_ & _ & F).
    unfold Rigid.gb_rhos, positive_rhos. rewrite <- F.
    apply Permutation_map, sort_by_rho_perm.
  - now rewrite mix_rhos_positive.
  - apply comp_rhos_positive.
Qed.

Lemma range_mean_spec l st :
  Rigid.range_mean l = Ok st ->
  (In (Rigid.rho_min st) l /\ forall y, In y l -> (Rigid.rho_min st <= y)%R)
  /\ (In (Rigid.rho_max st) l /\ forall y, In y l -> (y <= Rigid.rho_max st)%R)
  /\ Rigid.rho_mean st = (Rsum l / INR (length l))%R.
Proof.
  unfold Rigid.range_mean. intros E.
  apply bind_Ok_inv in E. destruct E as (lo & Elo & E).
  apply bind_Ok_inv in E. destruct E as (hi & Ehi & E).
  injection E as <-. cbn [Rigid.rho_min Rigid.rho_max Rigid.rho_mean].
  split; [now apply py_min_spec|]. split; [now apply py_max_spec|reflexivity].
Qed.

Lemma bandwidth_spec l b :
  Rigid.bandwidth l = Ok b ->
  exists lo hi, py_min l = Ok lo /\ py_max l = Ok hi /\ b = (hi - lo)%R.
Proof.
  unfold Rigid.bandwidth. intros E.
  apply bind_Ok_inv in E. destruct E as (hi & Ehi & E).
  apply bind_Ok_inv in E. destruct E as (lo & Elo & E).
  injection E as <-. eauto.
Qed.

(** C7.  For rows produced by a scan with an adequate sieve, the rho list
    each statistic is taken from is, for every category, a rearrangement of
    the rho values of that category's members with rho > 0 (members with
    rho = 0 are left out); the minimum, maximum and arithmetic mean of the
    summary, the bandwidths [max - min], and the figures of the 2^k loops of
    both scripts are those of these filtered values. *)
Theorem statistics_over_positive_members N limit rads primes_set rows :
  limit < 2 ^ 63 -> N - 3 <= limit ->
  Rigid.sieve_radicals limit = Ok (rads, primes_set) ->
  Rigid.scan_N N rads primes_set = Ok rows ->
  (forall c, Permutation (summary_rhos c rows) (positive_rhos c rows))
  /\ (forall rep, Rigid.summary rows = Ok rep ->
        Rigid.range_mean (positive_rhos Goldbach rows) = Ok (Rigid.goldbach_stats rep)
        /\ Rigid.range_mean (positive_rhos Mixed rows) = Ok (Rigid.mixed_stats rep)
        /\ Rigid.range_mean (positive_rhos Composite rows) = Ok (Rigid.composite_stats rep)
        /\ Rigid.bandwidth (positive_rhos Goldbach rows) = Ok (Rigid.bandwidth_goldbach rep)
        /\ Rigid.bandwidth (positive_rhos Composite rows)
           = Ok (Rigid.bandwidth_composite rep))
  /\ (forall Nk k line, Rigid.series_stats Nk k rows = Ok (Some line) ->
        py_min (positive_rhos Goldbach rows) = Ok (Rigid.line_rho_min line)
        /\ py_max (positive_rhos Goldbach rows) = Ok (Rigid.line_rho_max line)
        /\ Rigid.line_rho_mean line = np_mean (positive_rhos Goldbach rows)
        /\ Rigid.bandwidth (positive_rhos Goldbach rows) = Ok (Rigid.BW_goldbach line)
        /\ Rigid.bandwidth (positive_rhos Composite rows) = Ok (Rigid.BW_composite line))
  /\ (forall l st, Rigid.range_mean l = Ok st ->
        (In (Rigid.rho_min st) l /\ forall y, In y l -> (Rigid.rho_min st <= y)%R)
        /\ (In (Rigid.rho_max st) l /\ forall y, In y l -> (y <= Rigid.rho_max st)%R)
        /\ Rigid.rho_mean st = (Rsum l / INR (length l))%R)
  /\ (forall l b, Rigid.bandwidth l = Ok b ->
        exists lo hi, py_min l = Ok lo /\ py_max l = Ok hi /\ b = (hi - lo)%R)
  /\ (forall limit' is_prime k row,
        ExportData.sieve limit' = Ok is_prime -> 2 ^ k - 3 <= limit' ->
        ExportData.series_row_of k is_prime = Ok (Some row) ->
        exists lo hi lo' hi',
          py_min (export_positive_rhos Goldbach is_prime (2 ^ k)) = Ok lo
          /\ py_max (export_positive_rhos Goldbach is_prime (2 ^ k)) = Ok hi
          /\ py_min (export_positive_rhos Composite is_prime (2 ^ k)) = Ok lo'
          /\ py_max (export_positive_rhos Composite is_prime (2 ^ k)) = Ok hi'
          /\ ExportData.rho_min row = py_round lo 6
          /\ ExportData.rho_mean row
             = py_round (np_mean (export_positive_rhos Goldbach is_prime (2 ^ k))) 6
          /\ ExportData.rho_max row = py_round hi 6
          /\ ExportData.BW_goldbach row = py_round (hi - lo) 6
          /\ ExportData.BW_composite row = py_round (hi' - lo') 6).
Proof.
  intros Hbig Hlim E S.
  assert (P : forall c, Permutation (summary_rhos c rows) (positive_rhos c rows)).
  { intros c. now apply (summary_rhos_positive N limit rads primes_set). }
  destruct (goldbach_rows_facts N limit rads primes_set rows Hbig Hlim E S)
    as (_ & Gk & _).
  split; [exact P|]. split; [|split; [|split; [|split]]].
  - intros rep Hs. unfold Rigid.summary in Hs.
    apply bind_Ok_inv in Hs. destruct Hs as (g & Eg & Hs).
    apply bind_Ok_inv in Hs. destruct Hs as (m & Em & Hs).
    apply bind_Ok_inv in Hs. destruct Hs as (c & Ec & Hs).
    apply bind_Ok_inv in Hs. destruct Hs as (ground & _ & Hs).
    apply bind_Ok_inv in Hs. destruct Hs as (bg & Ebg & Hs).
    apply bind_Ok_inv in Hs. destruct Hs as (bc & Ebc & Hs).
    apply bind_Ok_inv in Hs. destruct Hs as (num & _ & Hs).
    apply bind_Ok_inv in Hs. destruct Hs as (den & _ & Hs).
    apply bind_Ok_inv in Hs. destruct Hs as (ratio & _ & Hs).
    injection Hs as <-.
    cbn [Rigid.goldbach_stats Rigid.mixed_stats Rigid.composite_stats
         Rigid.bandwidth_goldbach Rigid.bandwidth_composite].
    rewrite <- (range_mean_perm _ _ (P Goldbach)), <- (range_mean_perm _ _ (P Mixed)),
      <- (range_mean_perm _ _ (P Composite)), <- (bandwidth_perm _ _ (P Goldbach)),
      <- (bandwidth_perm _ _ (P Composite)).
    cbn [summary_rhos]. auto.
  - intros Nk k line Hs. unfold Rigid.series_stats in Hs.
    rewrite Gk, comp_k_positive in Hs.
    destruct (negb (Rigid.is_empty (positive_rhos Goldbach rows))
              && negb (Rigid.is_empty (positive_rhos Composite rows)));
      [|discriminate].
    apply bind_Ok_inv in Hs. destruct Hs as (bg & Ebg & Hs).
    apply bind_Ok_inv in Hs. destruct Hs as (bc & Ebc & Hs).
    apply bind_Ok_inv in Hs. destruct Hs as (lo & Elo & Hs).
    apply bind_Ok_inv in Hs. destruct Hs as (hi & Ehi & Hs).
    injection Hs as <-.
    cbn [Rigid.line_rho_min Rigid.line_rho_max Rigid.line_rho_mean
         Rigid.BW_goldbach Rigid.BW_composite]. auto.
  - exact range_mean_spec.
  - exact bandwidth_spec.
  - intros limit' is_prime k row Es Hl' Hr. unfold ExportData.series_row_of in Hr.
    rewrite (export_series_lists limit' is_prime (2 ^ k) Es Hl') in Hr. cbn [bind] in Hr.
    unfold ExportData.series_stats in Hr.
    destruct (negb (ExportData.is_empty (export_positive_rhos Goldbach is_prime (2 ^ k)))
              && negb (ExportData.is_empty
                         (export_positive_rhos Composite is_prime (2 ^ k))));
      [|discriminate].
    apply bind_Ok_inv in Hr. destruct Hr as (hi & Ehi & Hr).
    apply bind_Ok_inv in Hr. destruct Hr as (lo & Elo & Hr).
    apply bind_Ok_inv in Hr. destruct Hr as (hi' & Ehi' & Hr).
    apply bind_Ok_inv in Hr. destruct Hr as (lo' & Elo' & Hr).
    apply bind_Ok_inv in Hr. destruct Hr as (lo2 & Elo2 & Hr).
    apply bind_Ok_inv in Hr. destruct Hr as (hi2 & Ehi2 & Hr).
    injection Hr as <-.
    assert (lo2 = lo) by congruence. assert (hi2 = hi) by congruence. subst lo2 hi2.
    exists lo, hi, lo', hi'.
    cbn [ExportData.rho_min ExportData.rho_mean ExportData.rho_max
         ExportData.BW_goldbach ExportData.BW_composite].
    repeat split; auto.
Qed.

(** C10.  With an adequate sieve (limit at least [N - 3]), every
    decomposition the scan classifies as Goldbach has both summands prime and
    at least 3, odd radicals equal to the summands, a conductor proxy of at
    least 81 and rho > 0.  So the unfiltered Goldbach rho lists the statistics
    use are the rho > 0 filtered ones: the list of the 2^k loop equals it, the
    sorted list of the summary rearranges it, and the [gb_rhos] of the export
    script's evolution loop is its product-model counterpart, all positive. *)
Theorem goldbach_rows_have_positive_rho N limit rads primes_set rows :
  limit < 2 ^ 63 -> N - 3 <= limit ->
  Rigid.sieve_radicals limit = Ok (rads, primes_set) ->
  Rigid.scan_N N rads primes_set = Ok rows ->
  (forall r, In r rows -> Rigid.cat r = Goldbach ->
     3 <= Rigid.p r /\ 3 <= Rigid.q r
     /\ Z.prime (Rigid.p r) /\ Z.prime (Rigid.q r)
     /\ Rigid.rad_odd_p r = Rigid.p r /\ Rigid.rad_odd_q r = Rigid.q r
     /\ 81 <= Rigid.conductor_proxy r
     /\ (0 < Rigid.rho r)%R)
  /\ Rigid.gb_k rows = positive_rhos Goldbach rows
  /\ Permutation (Rigid.gb_rhos rows) (positive_rhos Goldbach rows)
  /\ (forall limit' is_prime,
        ExportData.sieve limit' = Ok is_prime -> N - 3 <= limit' ->
        exists gb_rhos comp_rhos,
          for_each (py_range 3 (N / 2 + 1) 1) ([], [])
                   (ExportData.series_step N is_prime) = Ok (gb_rhos, comp_rhos)
          /\ gb_rhos = export_positive_rhos Goldbach is_prime N
          /\ Forall (fun x => (0 < x)%R) gb_rhos).
Proof.
  intros Hbig Hlim E S.
  destruct (goldbach_rows_facts N limit rads primes_set rows Hbig Hlim E S) as (G & Gk & _).
  split; [exact G|]. split; [exact Gk|]. split.
  - apply (summary_rhos_positive N limit rads primes_set rows Goldbach); assumption.
  - intros limit' is_prime Es Hl'. eexists. eexists.
    split; [now apply (export_series_lists limit')|]. split; [reflexivity|].
    apply Forall_forall. intros x Hx. unfold export_positive_rhos in Hx.
    apply in_map_iff in Hx. destruct Hx as (y & <- & Hy).
    apply filter_In in Hy. destruct Hy as [_ Hy]. apply andb_true_iff in Hy.
    destruct Hy as [_ Hy]. unfold pos in Hy.
    destruct (Rlt_dec 0 (export_rho_of N y)); [assumption|discriminate].
Qed.

Lemma goldbach_rows_have_positive_rho_witness :
  exists rows,
    Rigid.scan_N 8 [1; 1; 2; 3; 2; 5] [2; 3; 5] = Ok rows
    /\ Rigid.gb_k rows = positive_rhos Goldbach rows.
Proof.
  exists (map (rigid_row_of 8 [2; 3; 5]) (py_range 3 (8 / 2 + 1) 1)).
  assert (E : Rigid.scan_N 8 [1; 1; 2; 3; 2; 5] [2; 3; 5]
              = Ok (map (rigid_row_of 8 [2; 3; 5]) (py_range 3 (8 / 2 + 1) 1))).
  { apply (scan_N_rows 8 5); [apply table_of_limit_5|apply table_of_limit_5|lia]. }
  split; [exact E|].
  apply (goldbach_rows_have_positive_rho 8 5 [1; 1; 2; 3; 2; 5] [2; 3; 5]).
  - lia.
  - lia.
  - reflexivity.
  - exact E.
Defined.

(** * The bandwidth ratio *)

Lemma py_min_nonempty l : l <> [] -> exists m, py_min l = Ok m.
Proof. destruct l; [congruence|]. intros _. cbn. eauto. Qed.

Lemma py_max_nonempty l : l <> [] -> exists m, py_max l = Ok m.
Proof. destruct l; [congruence|]. intros _. cbn. eauto. Qed.

Lemma max_above_min l lo hi : py_min l = Ok lo -> py_max l = Ok hi -> (lo <= hi)%R.
Proof.
  intros Hlo Hhi. apply py_min_spec in Hlo. apply py_max_spec in Hhi.
  apply Hhi. apply Hlo.
Qed.

Lemma pos_true x : pos x = true <-> (0 < x)%R.
Proof. unfold pos. destruct (Rlt_dec 0 x); intuition discriminate. Qed.

Lemma pos_false x : pos x = false <-> (x <= 0)%R.
Proof. unfold pos. destruct (Rlt_dec 0 x); split; intros; try discriminate; lra. Qed.

Lemma is_empty_nil {A : Type} (l : list A) : Rigid.is_empty l = true <-> l = [].
Proof. destruct l; cbn; intuition congruence. Qed.

(** What one iteration of the 2^k loop of [goldbach_rigid_scan.py] reports. *)
Lemma rigid_series_stats_some Nk k rows line :
  Rigid.series_stats Nk k rows = Ok (Some line) ->
  Rigid.gb_k rows <> [] /\ Rigid.comp_k rows <> []
  /\ exists lo hi lo' hi',
       py_min (Rigid.gb_k rows) = Ok lo /\ py_max (Rigid.gb_k rows) = Ok hi
       /\ py_min (Rigid.comp_k rows) = Ok lo' /\ py_max (Rigid.comp_k rows) = Ok hi'
       /\ Rigid.BW_goldbach line = (hi - lo)%R
       /\ Rigid.BW_composite line = (hi' - lo')%R
       /\ Rigid.ratio line
          = if pos (hi - lo) then Rigid.Finite ((hi' - lo') / (hi - lo)) else Rigid.Infinity.
Proof.
  unfold Rigid.series_stats. intros E.
  destruct (Rigid.gb_k rows) as [|g gs] eqn:Eg; [discriminate|].
  destruct (Rigid.comp_k rows) as [|c cs] eqn:Ec; [discriminate|].
  cbn [Rigid.is_empty negb andb] in E. unfold Rigid.bandwidth in E.
  apply bind_Ok_inv in E. destruct E as (bg & Ebg & E).
  apply bind_Ok_inv in Ebg. destruct Ebg as (hi & Ehi & Ebg).
  apply bind_Ok_inv in Ebg. destruct Ebg as (lo & Elo & Ebg). injection Ebg as <-.
  apply bind_Ok_inv in E. destruct E as (bc & Ebc & E).
  apply bind_Ok_inv in Ebc. destruct Ebc as (hi' & Ehi' & Ebc).
  apply bind_Ok_inv in Ebc. destruct Ebc as (lo' & Elo' & Ebc). injection Ebc as <-.
  apply bind_Ok_inv in E. destruct E as (lo2 & _ & E).
  apply bind_Ok_inv in E. destruct E as (hi2 & _ & E). injection E as <-.
  split; [discriminate|]. split; [discriminate|].
  exists lo, hi, lo', hi'. cbn [Rigid.BW_goldbach Rigid.BW_composite Rigid.ratio]. auto 10.
Qed.

Lemma rigid_series_stats_total Nk k rows :
  Rigid.gb_k rows <> [] -> Rigid.comp_k rows <> [] ->
  exists line, Rigid.series_stats Nk k rows = Ok (Some line).
Proof.
  intros Hg Hc. unfold Rigid.series_stats, Rigid.bandwidth.
  destruct (py_min_nonempty _ Hg) as (lo & Elo). destruct (py_max_nonempty _ Hg) as (hi & Ehi).
  destruct (py_min_nonempty _ Hc) as (lo' & Elo'). destruct (py_max_nonempty _ Hc) as (hi' & Ehi').
  destruct (Rigid.gb_k rows) as [|g gs]; [congruence|].
  destruct (Rigid.comp_k rows) as [|c cs]; [congruence|].
  cbn [Rigid.is_empty negb andb]. rewrite Ehi, Elo, Ehi', Elo'. cbn [bind]. eauto.
Qed.

Lemma rigid_series_stats_none Nk k rows :
  Rigid.gb_k rows = [] \/ Rigid.comp_k rows = [] ->
  Rigid.series_stats Nk k rows = Ok None.
Proof.
  unfold Rigid.series_stats. intros [-> | ->]; cbn [Rigid.is_empty negb andb];
    [reflexivity|now rewrite andb_false_r].
Qed.

(** C1, amended.  In the 2^k loop of [goldbach_rigid_scan.py] a ratio is
    reported only when the Goldbach list and the list of Composite members
    with rho > 0 are both non-empty (otherwise no line is printed).  The
    reported ratio is the explicit infinity sentinel whenever the Goldbach
    bandwidth is 0, whatever the Composite bandwidth, and is
    [bw_comp / bw_gb] otherwise; so it is 0 exactly when the Composite
    bandwidth is 0 and the Goldbach bandwidth is positive. *)
Theorem degenerate_ratio_is_infinity Nk k rows :
  (Rigid.gb_k rows = [] \/ Rigid.comp_k rows = [] ->
   Rigid.series_stats Nk k rows = Ok None)
  /\ (Rigid.gb_k rows <> [] -> Rigid.comp_k rows <> [] ->
      exists line, Rigid.series_stats Nk k rows = Ok (Some line))
  /\ (forall line, Rigid.series_stats Nk k rows = Ok (Some line) ->
        Rigid.gb_k rows <> [] /\ Rigid.comp_k rows <> []
        /\ Rigid.bandwidth (Rigid.gb_k rows) = Ok (Rigid.BW_goldbach line)
        /\ Rigid.bandwidth (Rigid.comp_k rows) = Ok (Rigid.BW_composite line)
        /\ (0 <= Rigid.BW_goldbach line)%R /\ (0 <= Rigid.BW_composite line)%R
        /\ (Rigid.BW_goldbach line = 0%R -> Rigid.ratio line = Rigid.Infinity)
        /\ ((0 < Rigid.BW_goldbach line)%R ->
            Rigid.ratio line
            = Rigid.Finite (Rigid.BW_composite line / Rigid.BW_goldbach line))
        /\ (Rigid.ratio line = Rigid.Finite 0 <->
            (0 < Rigid.BW_goldbach line)%R /\ Rigid.BW_composite line = 0%R)).
Proof.
  split; [apply rigid_series_stats_none|]. split; [apply rigid_series_stats_total|].
  intros line E.
  destruct (rigid_series_stats_some Nk k rows line E)
    as (Hg & Hc & lo & hi & lo' & hi' & Elo & Ehi & Elo' & Ehi' & Bg & Bc & Rt).
  pose proof (max_above_min _ _ _ Elo Ehi) as Og.
  pose proof (max_above_min _ _ _ Elo' Ehi') as Oc.
  rewrite Bg, Bc, Rt. unfold Rigid.bandwidth. rewrite Ehi, Elo, Ehi', Elo'. cbn [bind].
  split; [exact Hg|]. split; [exact Hc|]. split; [reflexivity|]. split; [reflexivity|].
  split; [lra|]. split; [lra|]. split; [|split; [|split]].
  - intros Z0. rewrite Z0. unfold pos. destruct (Rlt_dec 0 0); [lra|reflexivity].
  - intros P. rewrite (proj2 (pos_true _) P). reflexivity.
  - destruct (pos (hi - lo)) eqn:Ep; [|discriminate]. apply pos_true in Ep.
    intros F. injection F as F. split; [exact Ep|].
    assert (Q : ((hi' - lo') / (hi - lo) * (hi - lo) = hi' - lo')%R) by (field; lra).
    rewrite F in Q. lra.
  - intros [P Z0]. rewrite (proj2 (pos_true _) P), Z0. f_equal. unfold Rdiv. ring.
Qed.

Lemma round_half_even_0 : round_half_even 0 = 0.
Proof.
  unfold round_half_even.
  assert (E : Int_part 0 = 0).
  { symmetry. apply Int_part_spec. split; simpl; lra. }
  rewrite E. destruct (Rlt_dec (0 - 0) (1 / 2)); [reflexivity|lra].
Qed.

Lemma py_round_0 ndigits : py_round 0 ndigits = 0%R.
Proof.
  unfold py_round. rewrite Rmult_0_l, round_half_even_0. unfold Rdiv. ring.
Qed.

Lemma rho_value_lt c1 c2 N :
  2 <= N -> 1 < c1 -> c1 < c2 -> (rho_value c1 N < rho_value c2 N)%R.
Proof.
  intros HN H1 H2. unfold rho_value.
  destruct (Z.ltb_spec 1 c1); [|lia]. destruct (Z.ltb_spec 1 c2); [|lia].
  pose proof (ln_IZR_pos N ltac:(lia)) as LN.
  unfold Rdiv. apply Rmult_lt_compat_r; [now apply Rinv_0_lt_compat|].
  apply ln_increasing; [apply IZR_lt; lia|now apply IZR_lt].
Qed.

Lemma table_of_limit_7 :
  length [1; 1; 2; 3; 2; 5; 6; 7] = Z.to_nat (7 + 1)
  /\ forall n, 0 <= n <= 7 -> entry [1; 1; 2; 3; 2; 5; 6; 7] n = radical n.
Proof.
  assert (E : Rigid.sieve_radicals 7 = Ok ([1; 1; 2; 3; 2; 5; 6; 7], [2; 3; 5; 7]))
    by reflexivity.
  destruct (sieve_radicals_table 7 _ _ ltac:(lia) E) as (_ & L & T & _). auto.
Qed.

Lemma scan_10_rows :
  Rigid.scan_N 10 [1; 1; 2; 3; 2; 5; 6; 7] [2; 3; 5; 7]
  = Ok [Rigid.mkRow 3 7 3 7 275625 (rho_value 275625 10) Goldbach;
        Rigid.mkRow 4 6 1 3 5625 (rho_value 5625 10) Composite;
        Rigid.mkRow 5 5 5 5 390625 (rho_value 390625 10) Goldbach].
Proof.
  rewrite (scan_N_rows 10 7) by (apply table_of_limit_7 || lia).
  change (py_range 3 (10 / 2 + 1) 1) with [3; 4; 5]. cbn [map].
  unfold rigid_row_of. repeat f_equal; reflexivity.
Qed.

(** C1 fails as stated, in two ways.  In [export_data.py] a Goldbach
    bandwidth of 0 next to a Composite bandwidth of 1 gives the ratio 0, not a
    sentinel.  In [goldbach_rigid_scan.py] the scan of [N = 10] (sieve built
    to 7) has two Goldbach decompositions and one Composite decomposition
    with rho > 0: the Composite class is not empty and the ratio is 0. *)
Lemma ratio_zero_without_empty_composite :
  (py_max [1%R] = Ok 1%R /\ py_min [1%R] = Ok 1%R
   /\ Rigid.bandwidth [1%R; 2%R] = Ok 1%R
   /\ exists row, ExportData.series_stats 16 4 [1%R] [1%R; 2%R] = Ok (Some row)
                  /\ ExportData.ratio row = 0%R)
  /\ (Rigid.sieve_radicals 7 = Ok ([1; 1; 2; 3; 2; 5; 6; 7], [2; 3; 5; 7])
      /\ exists rows line,
           Rigid.scan_N 10 [1; 1; 2; 3; 2; 5; 6; 7] [2; 3; 5; 7] = Ok rows
           /\ Rigid.comp_k rows = [rho_value 5625 10]
           /\ Rigid.series_stats 10 0 rows = Ok (Some line)
           /\ Rigid.ratio line = Rigid.Finite 0).
Proof.
  split.
  - split; [reflexivity|]. split; [reflexivity|]. split.
    + unfold Rigid.bandwidth, py_max, py_min. cbn [fold_left bind].
      rewrite Rmax_right, Rmin_left by lra. f_equal. lra.
    + unfold ExportData.series_stats.
      cbn [ExportData.is_empty negb andb py_max py_min fold_left bind].
      eexists. split; [reflexivity|]. cbn [ExportData.ratio].
      rewrite (proj2 (pos_false (1 - 1))) by lra. apply py_round_0.
  - split; [reflexivity|].
    pose proof (rho_value_pos 5625 10 ltac:(lia) ltac:(lia)) as Pb.
    pose proof (rho_value_lt 275625 390625 10 ltac:(lia) ltac:(lia) ltac:(lia)) as Lac.
    eexists. eexists. split; [exact scan_10_rows|].
    assert (Ec : Rigid.comp_k
                   [Rigid.mkRow 3 7 3 7 275625 (rho_value 275625 10) Goldbach;
                    Rigid.mkRow 4 6 1 3 5625 (rho_value 5625 10) Composite;
                    Rigid.mkRow 5 5 5 5 390625 (rho_value 390625 10) Goldbach]
                 = [rho_value 5625 10]).
    { unfold Rigid.comp_k. cbn [filter map Rigid.cat Rigid.rho category_eqb andb].
      rewrite (proj2 (pos_true _) Pb). reflexivity. }
    split; [exact Ec|].
    unfold Rigid.series_stats. rewrite Ec.
    cbn [Rigid.gb_k filter map Rigid.cat Rigid.rho category_eqb
         Rigid.is_empty negb andb].
    unfold Rigid.bandwidth, py_max, py_min. cbn [fold_left bind].
    split; [reflexivity|]. cbn [Rigid.ratio].
    rewrite Rmax_right, Rmin_left by lra.
    rewrite (proj2 (pos_true _)) by lra. f_equal. unfold Rdiv. ring.
Qed.

(** * The stripping loop on arbitrary integers *)

(** The loop [while t % d == 0: t //= d] never leaves [t = 0]: the model
    reports divergence there with any fuel. *)
Lemma divide_out_zero fuel d : divide_out fuel d 0 = None.
Proof.
  induction fuel as [|fuel IH]; cbn [divide_out]; [reflexivity|].
  now rewrite Zmod_0_l, Zdiv_0_l.
Qed.

Lemma divide_out_nonzero_fuel d : forall fuel t,
  2 <= d -> t <> 0 -> Z.abs t < 2 ^ Z.of_nat fuel ->
  exists t' k, divide_out (S fuel) d t = Some t'
               /\ 0 <= k /\ t = d ^ k * t' /\ t' <> 0 /\ t' mod d <> 0.
Proof.
  induction fuel as [|fuel IH]; intros t Hd Ht Hlt.
  - simpl in Hlt. lia.
  - cbn [divide_out]. destruct (Z.eqb_spec (t mod d) 0) as [e|ne].
    + apply Z.mod_divide in e; [|lia]. destruct e as [c ->].
      rewrite Z.div_mul by lia.
      assert (Hc : c <> 0) by (intros ->; lia).
      assert (Hc2 : Z.abs c < 2 ^ Z.of_nat fuel).
      { rewrite Nat2Z.inj_succ, Z.pow_succ_r in Hlt by lia.
        rewrite Z.abs_mul, (Z.abs_eq d) in Hlt by lia. nia. }
      destruct (IH c Hd Hc Hc2) as (t' & k & E & Hk & Hck & Ht' & Hm).
      exists t', (k + 1). cbn [divide_out] in E. rewrite E.
      repeat split; auto; try lia.
      rewrite Z.pow_add_r, Z.pow_1_r by lia. rewrite Hck at 1. ring.
    + exists t, 0. repeat split; auto; try lia.
Qed.

(** With the fuel the model gives it, the loop leaves every nonzero [t],
    negative ones included: [Diverges] is reported for [t = 0] only. *)
Lemma divide_out_nonzero d t :
  2 <= d -> t <> 0 ->
  exists t' k, divide_out (divide_fuel t) d t = Some t'
               /\ 0 <= k /\ t = d ^ k * t' /\ t' <> 0 /\ t' mod d <> 0.
Proof.
  intros Hd Ht. unfold divide_fuel. apply divide_out_nonzero_fuel; try assumption.
  destruct (Z.log2_spec (Z.abs t) ltac:(lia)) as [_ H].
  rewrite Nat2Z.inj_succ, Z2Nat.id by apply Z.log2_nonneg. exact H.
Qed.

Lemma odd_rad_outcome x rads :
  (exists v, Rigid.odd_rad x rads = Ok v /\ 1 <= v /\ Z.odd v = true)
  \/ Rigid.odd_rad x rads = Raise IndexError
  \/ (Rigid.odd_rad x rads = Diverges /\ getitem rads x = Ok 0).
Proof.
  unfold Rigid.odd_rad. destruct (getitem rads x) as [r|e|] eqn:E; cbn [bind].
  - destruct (Z.eq_dec r 0) as [->|Hr].
    + right. right. now rewrite divide_out_zero.
    + left. destruct (divide_out_nonzero 2 r ltac:(lia) Hr)
        as (t' & k & -> & _ & _ & Ht' & Hm).
      eexists. split; [reflexivity|].
      destruct (Z.ltb_spec 0 t'); [|split; [lia|reflexivity]].
      split; [lia|]. rewrite Zmod_odd in Hm. destruct (Z.odd t'); [reflexivity|lia].
  - right. left. unfold getitem in E.
    destruct (py_index rads x); [|congruence].
    destruct (nth_error rads n); congruence.
  - exfalso. unfold getitem in E.
    destruct (py_index rads x); [|discriminate].
    destruct (nth_error rads n); discriminate.
Qed.

(** * Further properties of the radical and of the odd radical *)

Lemma in_divides_product x l : In x l -> (x | product l).
Proof.
  unfold product. induction l as [|a l IH]; intros H; [destruct H|].
  cbn [fold_right]. destruct H as [->|H].
  - apply Z.divide_factor_l.
  - apply Z.divide_mul_r. now apply IH.
Qed.

Lemma prime_divides_product p l :
  is_prime_b p = true -> (forall x, In x l -> is_prime_b x = true) ->
  (p | product l) -> In p l.
Proof.
  intros Hp. unfold product. induction l as [|a l IH]; intros Hl Hd; cbn [fold_right] in Hd.
  - apply is_prime_b_ge2 in Hp. apply Z.divide_pos_le in Hd; lia.
  - apply prime_divides_mul in Hd; [|assumption]. destruct Hd as [Hd|Hd].
    + left. symmetry. apply prime_divides_self_only; auto. apply Hl. now left.
    + right. apply IH; [|assumption]. intros x Hx. apply Hl. now right.
Qed.

Lemma pprod_prime_divisor lo hi n p :
  is_prime_b p = true ->
  (p | pprod lo hi n) <-> lo <= p <= hi /\ n mod p = 0.
Proof.
  intros Hp. split.
  - intros Hd. apply prime_divides_product in Hd; [|assumption|].
    + apply pprod_factors in Hd. tauto.
    + intros x Hx. apply pprod_factors in Hx. tauto.
  - intros [Hr Hm]. apply in_divides_product. apply pprod_factors. tauto.
Qed.

Lemma pprod_squarefree lo hi n p :
  is_prime_b p = true -> ~ (p * p | pprod lo hi n).
Proof.
  intros Hp. pose proof (is_prime_b_ge2 _ Hp) as Hp2.
  destruct (Z_lt_le_dec hi (lo - 1)) as [Hlt|Hle].
  { rewrite pprod_empty by lia. intros H. apply Z.divide_pos_le in H; nia. }
  revert hi Hle. apply upward_ind.
  - rewrite pprod_empty by lia. intros H. apply Z.divide_pos_le in H; nia.
  - intros h Hh IH. rewrite pprod_snoc by lia.
    destruct (is_prime_b (h + 1)) eqn:Eq; cbn [andb]; [|now rewrite Z.mul_1_r].
    destruct (Z.eqb_spec (n mod (h + 1)) 0) as [e|ne]; [|now rewrite Z.mul_1_r].
    intros Hd. destruct (Z.eq_dec p (h + 1)) as [->|Hne].
    + apply Z.mul_divide_cancel_r in Hd; [|lia].
      apply pprod_prime_divisor in Hd; [lia|assumption].
    + apply IH. apply Z.gauss with (h + 1).
      * rewrite (Z.mul_comm (h + 1)). exact Hd.
      * apply Z.coprime_mul_l; apply primes_coprime; assumption.
Qed.

Lemma pprod_beyond lo hi n : 1 <= n -> n <= hi -> pprod lo hi n = pprod lo n n.
Proof.
  intros Hn Hhi. destruct (Z_le_gt_dec lo (n + 1)) as [H|H].
  - now apply pprod_stable.
  - rewrite (pprod_empty lo n) by lia. apply pprod_none.
    intros x Hx _ Hm. rewrite Z.mod_small in Hm by lia. lia.
Qed.

(** The odd part of the radical depends only on the odd primes dividing the
    number. *)
Lemma odd_part_of_radical_ext a b :
  1 <= a -> 1 <= b ->
  (forall p, is_prime_b p = true -> 3 <= p -> (a mod p = 0 <-> b mod p = 0)) ->
  odd_part_of_radical a = odd_part_of_radical b.
Proof.
  intros Ha Hb H. unfold odd_part_of_radical.
  rewrite <- (pprod_beyond 3 (Z.max (Z.max a b) 2) a) by lia.
  rewrite <- (pprod_beyond 3 (Z.max (Z.max a b) 2) b) by lia.
  unfold pprod, prime_divisors_in. f_equal. apply filter_ext_in.
  intros x Hx. apply py_range_unit_In in Hx.
  destruct (is_prime_b x) eqn:Ep; cbn [andb]; [|reflexivity].
  apply eq_true_iff_eq. rewrite !Z.eqb_eq. apply H; [assumption|lia].
Qed.

Lemma odd_part_of_radical_divisor n p :
  1 <= n -> is_prime_b p = true ->
  (p | odd_part_of_radical n) <-> (p | n) /\ p <> 2.
Proof.
  intros Hn Hp. pose proof (is_prime_b_ge2 _ Hp) as Hp2.
  unfold odd_part_of_radical. rewrite pprod_prime_divisor by assumption.
  rewrite Z.mod_divide by lia. split.
  - intros [Hr Hd]. split; [assumption|lia].
  - intros [Hd Hne]. split; [|assumption]. split; [lia|].
    apply Z.divide_pos_le; [lia|assumption].
Qed.

Lemma odd_part_of_radical_idempotent n :
  odd_part_of_radical (odd_part_of_radical n) = odd_part_of_radical n.
Proof.
  destruct (Z_le_gt_dec n 0) as [Hn|Hn].
  { rewrite (odd_part_of_radical_small n) by lia. reflexivity. }
  pose proof (odd_part_of_radical_pos n).
  apply odd_part_of_radical_ext; try lia.
  intros p Hp Hp3. rewrite !Z.mod_divide by lia.
  rewrite odd_part_of_radical_divisor by (assumption || lia).
  split; [tauto|]. intros Hd. split; [assumption|lia].
Qed.

Lemma odd_part_of_radical_double n :
  1 <= n -> odd_part_of_radical (2 * n) = odd_part_of_radical n.
Proof.
  intros Hn. apply odd_part_of_radical_ext; try lia.
  intros p Hp Hp3. rewrite !Z.mod_divide by lia. split.
  - intros Hd. apply prime_divides_mul in Hd; [|assumption].
    destruct Hd as [Hd|Hd]; [|assumption]. apply Z.divide_pos_le in Hd; lia.
  - intros Hd. now apply Z.divide_mul_r.
Qed.

Lemma odd_part_of_radical_square n :
  1 <= n -> odd_part_of_radical (n * n) = odd_part_of_radical n.
Proof.
  intros Hn. apply odd_part_of_radical_ext; try nia.
  intros p Hp Hp3. rewrite !Z.mod_divide by lia. split.
  - intros Hd. apply prime_divides_mul in Hd; tauto.
  - intros Hd. now apply Z.divide_mul_r.
Qed.

Lemma pprod_mul_coprime lo a b :
  Z.gcd a b = 1 ->
  forall hi, lo - 1 <= hi ->
  pprod lo hi (a * b) = pprod lo hi a * pprod lo hi b.
Proof.
  intros Hg. apply upward_ind.
  - rewrite !pprod_empty by lia. reflexivity.
  - intros h Hh IH. rewrite !pprod_snoc by lia. rewrite IH.
    destruct (is_prime_b (h + 1)) eqn:Ep; cbn [andb]; [|ring].
    pose proof (is_prime_b_ge2 _ Ep) as H2.
    destruct (Z.eqb_spec (a mod (h + 1)) 0) as [ea|na];
      destruct (Z.eqb_spec (b mod (h + 1)) 0) as [eb|nb];
      destruct (Z.eqb_spec ((a * b) mod (h + 1)) 0) as [eab|nab]; try ring; exfalso.
    + apply Z.mod_divide in ea, eb; try lia.
      pose proof (Z.gcd_greatest _ _ _ ea eb) as G. rewrite Hg in G.
      apply Z.divide_pos_le in G; lia.
    + apply nab. apply Z.mod_divide; [lia|]. apply Z.divide_mul_l.
      apply Z.mod_divide; [lia|assumption].
    + apply nab. apply Z.mod_divide; [lia|]. apply Z.divide_mul_l.
      apply Z.mod_divide; [lia|assumption].
    + apply nab. apply Z.mod_divide; [lia|]. apply Z.divide_mul_r.
      apply Z.mod_divide; [lia|assumption].
    + apply Z.mod_divide in eab; [|lia]. apply prime_divides_mul in eab; [|assumption].
      destruct eab as [H|H]; apply Z.mod_divide in H; lia.
Qed.

Lemma odd_part_of_radical_mul a b :
  1 <= a -> 1 <= b -> Z.gcd a b = 1 ->
  odd_part_of_radical (a * b) = odd_part_of_radical a * odd_part_of_radical b.
Proof.
  intros Ha Hb Hg. destruct (Z_le_gt_dec 2 (a * b)) as [H2|H2].
  2:{ assert (a = 1) by nia. assert (b = 1) by nia. subst. reflexivity. }
  unfold odd_part_of_radical.
  rewrite (pprod_mul_coprime 3 a b Hg) by nia.
  rewrite (pprod_beyond 3 (a * b) a) by nia.
  rewrite (pprod_beyond 3 (a * b) b) by nia. reflexivity.
Qed.

(** * Edge behaviour of the sieves *)

(** X1.  Neither sieve accepts a limit below 1: [sieve_radicals] raises
    [ValueError] (negative array size) for [limit <= -2] and [IndexError] for
    [limit = -1] and [limit = 0], and the export script's [sieve] raises
    [IndexError] for every [limit <= 0]; no minimal table is returned. *)
Theorem sieves_reject_limit_below_1 limit :
  limit <= 0 ->
  Rigid.sieve_radicals limit
  = Raise (if limit <? -1 then ValueError else IndexError)
  /\ ExportData.sieve limit = Raise IndexError.
Proof.
  intros H. split.
  - unfold Rigid.sieve_radicals. destruct (Z.ltb_spec (limit + 1) 0) as [H1|H1].
    + destruct (Z.ltb_spec limit (-1)); [reflexivity|lia].
    + destruct (Z.ltb_spec limit (-1)); [lia|].
      assert (C : limit = -1 \/ limit = 0) by lia. destruct C as [-> | ->]; reflexivity.
  - unfold ExportData.sieve. destruct (Z.eq_dec limit 0) as [->|Hne]; [reflexivity|].
    replace (Z.to_nat (limit + 1)) with 0%nat by lia. reflexivity.
Qed.

Lemma sieves_reject_limit_below_1_witness :
  0 <= 0
  /\ Rigid.sieve_radicals 0 = Raise IndexError
  /\ ExportData.sieve 0 = Raise IndexError.
Proof.
  assert (H : 0 <= 0) by lia.
  split; [exact H|]. exact (sieves_reject_limit_below_1 0 H).
Defined.

(** * The odd radical on arbitrary tables and arguments *)

(** X2.  On any table, [odd_rad] raises [IndexError] exactly when the index
    designates no position, never leaves its loop exactly when the entry is
    0, and otherwise returns an odd integer of at least 1: the odd part of a
    positive entry, and 1 for a negative entry. *)
Theorem odd_rad_outcomes x rads :
  (py_index rads x = None -> Rigid.odd_rad x rads = Raise IndexError)
  /\ (getitem rads x = Ok 0 -> Rigid.odd_rad x rads = Diverges)
  /\ (forall r, getitem rads x = Ok r -> r <> 0 ->
        exists v k, Rigid.odd_rad x rads = Ok v
                    /\ 1 <= v /\ Z.odd v = true /\ 0 <= k
                    /\ (0 < r -> r = 2 ^ k * v)
                    /\ (r < 0 -> v = 1)).
Proof.
  split; [|split].
  - intros H. unfold Rigid.odd_rad, getitem. now rewrite H.
  - intros H. unfold Rigid.odd_rad. rewrite H. cbn [bind]. now rewrite divide_out_zero.
  - intros r H Hr. unfold Rigid.odd_rad. rewrite H. cbn [bind].
    destruct (divide_out_nonzero 2 r ltac:(lia) Hr) as (t' & k & -> & Hk & Hf & Ht' & Hm).
    assert (Hpow : 0 < 2 ^ k) by (apply Z.pow_pos_nonneg; lia).
    assert (Ho : Z.odd t' = true).
    { rewrite Zmod_odd in Hm. destruct (Z.odd t'); [reflexivity|lia]. }
    destruct (Z.ltb_spec 0 t') as [Hp|Hn].
    + exists t', k. split; [reflexivity|]. split; [lia|]. split; [exact Ho|].
      split; [exact Hk|]. split; [intros _; exact Hf|intros Hneg; nia].
    + exists 1, k. split; [reflexivity|]. split; [lia|]. split; [reflexivity|].
      split; [exact Hk|]. split; [intros Hpos; nia|intros _; reflexivity].
Qed.

(** X3.  The trial-division [odd_radical] returns for every integer; its
    value is odd and at least 1, is 1 for [n <= 1], and for [n >= 1] it
    divides [n], is square-free, and is divisible by exactly the odd primes
    that divide [n]. *)
Theorem odd_radical_is_odd_squarefree_divisor n :
  exists v, ExportData.odd_radical n = Ok v
            /\ 1 <= v /\ Z.odd v = true
            /\ (n <= 1 -> v = 1)
            /\ (1 <= n ->
                (v | n) /\ v <= n
                /\ forall p, Z.prime p ->
                     ((p | v) <-> (p | n) /\ p <> 2) /\ ~ (p * p | v)).
Proof.
  exists (odd_part_of_radical n). split; [apply odd_radical_correct|].
  split; [apply odd_part_of_radical_pos|].
  split; [apply pprod_odd; lia|].
  split; [intros H; apply odd_part_of_radical_small; lia|].
  intros Hn. split; [apply pprod_divides|]. split; [now apply pprod_le|].
  intros p Hp. apply is_prime_b_prime in Hp. split.
  - now apply odd_part_of_radical_divisor.
  - now apply pprod_squarefree.
Qed.

(** X4.  [odd_radical] ignores factors of 2 and multiplicities and is
    multiplicative on coprime arguments: for [n, a, b >= 1],
    [odd_radical(2 n) = odd_radical(n * n) = odd_radical(n)],
    [odd_radical(odd_radical(n)) = odd_radical(n)], and
    [odd_radical(a b) = odd_radical(a) * odd_radical(b)] when
    [gcd(a, b) = 1]. *)
Theorem odd_radical_algebra n a b :
  1 <= n -> 1 <= a -> 1 <= b -> Z.gcd a b = 1 ->
  exists v va vb,
    ExportData.odd_radical n = Ok v
    /\ ExportData.odd_radical (2 * n) = Ok v
    /\ ExportData.odd_radical (n * n) = Ok v
    /\ ExportData.odd_radical v = Ok v
    /\ ExportData.odd_radical a = Ok va
    /\ ExportData.odd_radical b = Ok vb
    /\ ExportData.odd_radical (a * b) = Ok (va * vb).
Proof.
  intros Hn Ha Hb Hg.
  exists (odd_part_of_radical n), (odd_part_of_radical a), (odd_part_of_radical b).
  rewrite !odd_radical_correct.
  rewrite odd_part_of_radical_double, odd_part_of_radical_square,
    odd_part_of_radical_idempotent, odd_part_of_radical_mul by assumption.
  repeat split; reflexivity.
Qed.

Lemma odd_radical_algebra_witness :
  exists v va vb,
    ExportData.odd_radical 45 = Ok v
    /\ ExportData.odd_radical (2 * 45) = Ok v
    /\ ExportData.odd_radical (45 * 45) = Ok v
    /\ ExportData.odd_radical v = Ok v
    /\ ExportData.odd_radical 12 = Ok va
    /\ ExportData.odd_radical 35 = Ok vb
    /\ ExportData.odd_radical (12 * 35) = Ok (va * vb).
Proof.
  apply (odd_radical_algebra 45 12 35).
  - lia.
  - lia.
  - lia.
  - reflexivity.
Defined.

(** X5.  In the table returned by [sieve_radicals], every entry at
    [n >= 1] divides [n] (so lies in [1, n]), is square-free, and is
    divisible by exactly the primes that divide [n]; the entry at a prime is
    the prime itself. *)
Theorem radical_table_entries limit rads primes_set n :
  limit < 2 ^ 63 ->
  Rigid.sieve_radicals limit = Ok (rads, primes_set) ->
  1 <= n <= limit ->
  exists v, getitem rads n = Ok v
            /\ (v | n) /\ 1 <= v <= n
            /\ (forall p, Z.prime p -> ((p | v) <-> (p | n)) /\ ~ (p * p | v))
            /\ (Z.prime n -> v = n).
Proof.
  intros Hbig E Hn.
  destruct (sieve_radicals_table _ _ _ Hbig E) as (Hl & L & T & _).
  exists (radical n). rewrite getitem_in_range by lia. rewrite T by lia.
  split; [reflexivity|]. split; [apply pprod_divides|].
  split; [split; [apply pprod_pos|apply pprod_le; lia]|]. split.
  - intros p Hp. apply is_prime_b_prime in Hp. pose proof (is_prime_b_ge2 _ Hp).
    split; [|now apply pprod_squarefree].
    unfold radical. rewrite pprod_prime_divisor by assumption.
    rewrite Z.mod_divide by lia. split; [tauto|].
    intros Hd. split; [|assumption]. split; [lia|].
    apply Z.divide_pos_le; [lia|assumption].
  - intros Hp. apply is_prime_b_prime in Hp. pose proof (is_prime_b_ge2 _ Hp).
    unfold radical. rewrite (pprod_split 2 (n - 1) n n) by lia.
    replace (n - 1 + 1) with n by lia.
    rewrite pprod_single by (assumption || apply Z_mod_same_full).
    rewrite pprod_none; [ring|].
    intros y Hy Hyp Hym. assert (y = n); [|lia].
    apply prime_divides_self_only; try assumption. apply Z.mod_divide; [lia|assumption].
Qed.

Lemma radical_table_entries_witness :
  exists v, getitem [1; 1; 2; 3; 2; 5; 6] 4 = Ok v
            /\ (v | 4) /\ 1 <= v <= 4
            /\ (forall p, Z.prime p -> ((p | v) <-> (p | 4)) /\ ~ (p * p | v))
            /\ (Z.prime 4 -> v = 4).
Proof.
  apply (radical_table_entries 6 [1; 1; 2; 3; 2; 5; 6] [2; 3; 5] 4).
  - lia.
  - reflexivity.
  - lia.
Defined.

(** * Shape of the scans on arbitrary tables *)

Lemma for_each_Forall2 {A B : Type} (body : list B -> A -> result (list B))
      (Q : A -> B -> Prop) xs :
  (forall acc x acc', In x xs -> body acc x = Ok acc' ->
     exists r, acc' = acc ++ [r] /\ Q x r) ->
  forall acc rows, for_each xs acc body = Ok rows ->
  exists rs, rows = acc ++ rs /\ Forall2 Q xs rs.
Proof.
  induction xs as [|x xs IH]; intros Hb acc rows E; cbn [for_each] in E.
  - injection E as <-. exists []. now rewrite app_nil_r.
  - apply bind_Ok_inv in E. destruct E as (acc' & E1 & E2).
    destruct (Hb acc x acc' (or_introl eq_refl) E1) as (r & -> & HQ).
    destruct (IH (fun a y a' Hy => Hb a y a' (or_intror Hy)) _ _ E2) as (rs & -> & F).
    exists (r :: rs). rewrite <- app_assoc. split; [reflexivity|now constructor].
Qed.

Lemma for_each_Raise {A S : Type} (body : S -> A -> result S) e xs : forall acc,
  for_each xs acc body = Raise e ->
  exists acc' x, In x xs /\ body acc' x = Raise e.
Proof.
  induction xs as [|x xs IH]; intros acc E; cbn [for_each] in E; [discriminate|].
  destruct (body acc x) as [s'|e'|] eqn:Eb; cbn [bind] in E; try discriminate.
  - destruct (IH _ E) as (acc' & y & Hy & Ey). exists acc', y. split; [now right|assumption].
  - injection E as ->. exists acc, x. split; [now left|assumption].
Qed.

Lemma odd_rad_Ok_inv x rads v :
  Rigid.odd_rad x rads = Ok v -> 1 <= v /\ Z.odd v = true.
Proof.
  intros E. destruct (odd_rad_outcome x rads) as [(v' & E' & H)|[E'|[E' _]]];
    rewrite E in E'; [injection E' as <-; exact H|discriminate|discriminate].
Qed.

Lemma odd_rad_Raise_inv x rads e : Rigid.odd_rad x rads = Raise e -> e = IndexError.
Proof.
  intros E. destruct (odd_rad_outcome x rads) as [(v' & E' & H)|[E'|[E' _]]];
    rewrite E in E'; [discriminate|now injection E'|discriminate].
Qed.

Lemma rigid_scan_step_shape N rads primes_set acc x acc' :
  3 <= x -> 2 * x <= N ->
  Rigid.scan_step N rads primes_set acc x = Ok acc' ->
  exists r, acc' = acc ++ [r]
            /\ Rigid.p r = x /\ Rigid.q r = N - x
            /\ Rigid.odd_rad x rads = Ok (Rigid.rad_odd_p r)
            /\ Rigid.odd_rad (N - x) rads = Ok (Rigid.rad_odd_q r)
            /\ (exists rM, Rigid.odd_rad (N / 2) rads = Ok rM
                           /\ Rigid.conductor_proxy r
                              = (Rigid.rad_odd_p r * Rigid.rad_odd_q r * rM * rM) ^ 2)
            /\ 1 <= Rigid.conductor_proxy r
            /\ Rigid.rho r = rho_value (Rigid.conductor_proxy r) N
            /\ Rigid.cat r = classify (mem x primes_set) (mem (N - x) primes_set).
Proof.
  intros Hx1 Hx2. unfold Rigid.scan_step. destruct (Z.leb_spec (N - x) 1); [lia|].
  intros E.
  apply bind_Ok_inv in E. destruct E as (rp & Ep & E).
  apply bind_Ok_inv in E. destruct E as (rq & Eq & E).
  apply bind_Ok_inv in E. destruct E as (rM & EM & E).
  rewrite chen_rho_value in E by lia. cbn [bind] in E. injection E as <-.
  pose proof (odd_rad_Ok_inv _ _ _ Ep) as [Hp _].
  pose proof (odd_rad_Ok_inv _ _ _ Eq) as [Hq _].
  pose proof (odd_rad_Ok_inv _ _ _ EM) as [HM _].
  eexists. split; [reflexivity|].
  cbn [Rigid.p Rigid.q Rigid.rad_odd_p Rigid.rad_odd_q Rigid.conductor_proxy
       Rigid.rho Rigid.cat].
  split; [reflexivity|]. split; [reflexivity|]. split; [exact Ep|]. split; [exact Eq|].
  split; [exists rM; split; [exact EM|ring]|].
  split; [nia|]. split; reflexivity.
Qed.

(** X6.  Whatever tables it is given, when [scan_N] returns, its rows are in
    one-to-one order with [p = 3, ..., N // 2] (the [q <= 1] guard never
    skips a [p] of that range); each row has [p + q = N], [3 <= p <= q], the
    odd radicals looked up for [p] and [q], a conductor proxy that is the
    square [(rp rq rM rM)^2 >= 1], the rho of that proxy, and the category
    given by the two membership tests.  The scan raises nothing but
    [IndexError]. *)
Theorem scan_N_rows_shape N rads primes_set :
  (forall rows, Rigid.scan_N N rads primes_set = Ok rows ->
     map Rigid.p rows = py_range 3 (N / 2 + 1) 1
     /\ Z.of_nat (length rows) = Z.max 0 (N / 2 - 2)
     /\ forall r, In r rows ->
          3 <= Rigid.p r <= Rigid.q r /\ Rigid.p r + Rigid.q r = N
          /\ Rigid.odd_rad (Rigid.p r) rads = Ok (Rigid.rad_odd_p r)
          /\ Rigid.odd_rad (Rigid.q r) rads = Ok (Rigid.rad_odd_q r)
          /\ (exists rM, Rigid.odd_rad (N / 2) rads = Ok rM
                         /\ Rigid.conductor_proxy r
                            = (Rigid.rad_odd_p r * Rigid.rad_odd_q r * rM * rM) ^ 2)
          /\ 1 <= Rigid.conductor_proxy r
          /\ Rigid.rho r = rho_value (Rigid.conductor_proxy r) N
          /\ Rigid.cat r = classify (mem (Rigid.p r) primes_set)
                                    (mem (Rigid.q r) primes_set))
  /\ (forall e, Rigid.scan_N N rads primes_set = Raise e -> e = IndexError).
Proof.
  split.
  - intros rows E. unfold Rigid.scan_N in E.
    destruct (for_each_Forall2 _
                (fun x r => Rigid.p r = x /\ Rigid.q r = N - x
                   /\ Rigid.odd_rad x rads = Ok (Rigid.rad_odd_p r)
                   /\ Rigid.odd_rad (N - x) rads = Ok (Rigid.rad_odd_q r)
                   /\ (exists rM, Rigid.odd_rad (N / 2) rads = Ok rM
                           /\ Rigid.conductor_proxy r
                              = (Rigid.rad_odd_p r * Rigid.rad_odd_q r * rM * rM) ^ 2)
                   /\ 1 <= Rigid.conductor_proxy r
                   /\ Rigid.rho r = rho_value (Rigid.conductor_proxy r) N
                   /\ Rigid.cat r = classify (mem x primes_set) (mem (N - x) primes_set))
                (py_range 3 (N / 2 + 1) 1)
                (fun acc x acc' Hx =>
                   rigid_scan_step_shape N rads primes_set acc x acc'
                     (proj1 (scan_range_bounds N x Hx)) (proj2 (scan_range_bounds N x Hx)))
                _ _ E) as (rs & -> & F).
    cbn [app].
    assert (Mp : map Rigid.p rs = py_range 3 (N / 2 + 1) 1).
    { clear E. induction F as [|x r xs rs' (Hp & _) F IH]; cbn [map]; [reflexivity|].
      now rewrite Hp, IH. }
    split; [exact Mp|]. split.
    + rewrite <- (length_map Rigid.p), Mp.
      destruct (Z_le_gt_dec 3 (N / 2 + 1)) as [H|H].
      * rewrite py_range_unit_length by lia. lia.
      * rewrite py_range_empty by lia. simpl. lia.
    + intros r Hr.
      assert (G : exists x, In x (py_range 3 (N / 2 + 1) 1)
                            /\ Rigid.p r = x /\ Rigid.q r = N - x
                   /\ Rigid.odd_rad x rads = Ok (Rigid.rad_odd_p r)
                   /\ Rigid.odd_rad (N - x) rads = Ok (Rigid.rad_odd_q r)
                   /\ (exists rM, Rigid.odd_rad (N / 2) rads = Ok rM
                           /\ Rigid.conductor_proxy r
                              = (Rigid.rad_odd_p r * Rigid.rad_odd_q r * rM * rM) ^ 2)
                   /\ 1 <= Rigid.conductor_proxy r
                   /\ Rigid.rho r = rho_value (Rigid.conductor_proxy r) N
                   /\ Rigid.cat r = classify (mem x primes_set) (mem (N - x) primes_set)).
      { clear E Mp. induction F as [|x r' xs rs' HQ F IH]; [destruct Hr|].
        destruct Hr as [->|Hr].
        - exists x. split; [now left|exact HQ].
        - destruct (IH Hr) as (y & Hy & HQy). exists y. split; [now right|exact HQy]. }
      destruct G as (x & Hx & Hp & Hq & Ep & Eq & EM & Hc & Hrho & Hcat).
      apply scan_range_bounds in Hx. rewrite Hp, Hq.
      repeat split; auto; lia.
  - intros e E. unfold Rigid.scan_N in E.
    destruct (for_each_Raise _ _ _ _ E) as (acc & x & Hx & Es).
    apply scan_range_bounds in Hx. unfold Rigid.scan_step in Es.
    destruct (Z.leb_spec (N - x) 1); [lia|].
    destruct (Rigid.odd_rad x rads) as [rp|e1|] eqn:E1; cbn [bind] in Es;
      [|injection Es as <-; now apply (odd_rad_Raise_inv x rads)|discriminate].
    destruct (Rigid.odd_rad (N - x) rads) as [rq|e2|] eqn:E2; cbn [bind] in Es;
      [|injection Es as <-; now apply (odd_rad_Raise_inv (N - x) rads)|discriminate].
    destruct (Rigid.odd_rad (N / 2) rads) as [rM|e3|] eqn:E3; cbn [bind] in Es;
      [|injection Es as <-; now apply (odd_rad_Raise_inv (N / 2) rads)|discriminate].
    rewrite chen_rho_value in Es by lia. discriminate.
Qed.

Lemma export_scan_step_beyond N is_prime :
  6 <= N -> Z.of_nat (length is_prime) <= N - 3 ->
  ExportData.scan_step N is_prime [] 3 = Raise IndexError.
Proof.
  intros HN HL. unfold ExportData.scan_step. destruct (Z.leb_spec (N - 3) 1); [lia|].
  rewrite !odd_radical_correct. cbn [bind]. rewrite chen_rho_value by lia. cbn [bind].
  assert (Q : getitem is_prime (N - 3) = Raise IndexError) by (apply getitem_beyond; lia).
  unfold ExportData.both_prime, ExportData.neither_prime.
  destruct (Z_le_gt_dec (Z.of_nat (length is_prime)) 3) as [H3|H3].
  - now rewrite (getitem_beyond is_prime 3) by lia.
  - rewrite (getitem_in_range is_prime 3) by lia. cbn [bind].
    destruct (truthy (entry is_prime 3)); cbn [bind negb]; now rewrite Q.
Qed.

(** X7.  Whatever the flags hold, the export scan succeeds exactly when
    [N <= 5] or the flags reach position [N - 3]: it then returns one row
    per [p = 3, ..., N // 2], each with [p + q = N], [3 <= p <= q], the
    trial-division odd radicals, the conductor proxy [(rp rq)^2 >= 1] and
    the category read off the two flags; for [N >= 6] and shorter flags it
    raises [IndexError]. *)
Theorem export_scan_outcome N is_prime :
  (N <= 5 \/ N - 3 < Z.of_nat (length is_prime) ->
   exists rows,
     ExportData.scan N is_prime = Ok rows
     /\ map ExportData.p rows = py_range 3 (N / 2 + 1) 1
     /\ forall r, In r rows ->
          ExportData.row_N r = N
          /\ 3 <= ExportData.p r <= ExportData.q r
          /\ ExportData.p r + ExportData.q r = N
          /\ ExportData.odd_radical (ExportData.p r) = Ok (ExportData.rad_odd_p r)
          /\ ExportData.odd_radical (ExportData.q r) = Ok (ExportData.rad_odd_q r)
          /\ ExportData.conductor_proxy r
             = (ExportData.rad_odd_p r * ExportData.rad_odd_q r) ^ 2
          /\ 1 <= ExportData.conductor_proxy r
          /\ ExportData.typ r
             = classify (truthy (entry is_prime (ExportData.p r)))
                        (truthy (entry is_prime (ExportData.q r))))
  /\ (6 <= N -> Z.of_nat (length is_prime) <= N - 3 ->
      ExportData.scan N is_prime = Raise IndexError).
Proof.
  split.
  - intros H.
    assert (E : ExportData.scan N is_prime
                = Ok (map (export_row_of N is_prime) (py_range 3 (N / 2 + 1) 1))).
    { destruct (Z_le_gt_dec N 5) as [Hs|Hs].
      - rewrite export_scan_small by assumption. now rewrite scan_range_empty.
      - apply export_scan_rows. lia. }
    eexists. split; [exact E|]. split.
    + rewrite map_map. cbn [export_row_of ExportData.p]. apply map_id.
    + intros r Hr. apply in_map_iff in Hr. destruct Hr as (x & <- & Hx).
      apply scan_range_bounds in Hx. unfold export_row_of.
      cbn [ExportData.row_N ExportData.p ExportData.q ExportData.rad_odd_p
           ExportData.rad_odd_q ExportData.conductor_proxy ExportData.typ].
      rewrite !odd_radical_correct.
      pose proof (odd_part_of_radical_pos x). pose proof (odd_part_of_radical_pos (N - x)).
      rewrite Z.pow_2_r. repeat split; try reflexivity; try lia; nia.
  - intros HN HL. unfold ExportData.scan.
    assert (3 <= N / 2) by (apply Z.div_le_lower_bound; lia).
    rewrite py_range_unit_cons by lia. cbn [for_each].
    now rewrite export_scan_step_beyond.
Qed.

(** * Categories *)

Lemma classify_cases a b :
  (classify a b = Goldbach <-> a = true /\ b = true)
  /\ (classify a b = Composite <-> a = false /\ b = false)
  /\ (classify a b = Mixed <-> a <> b).
Proof. destruct a, b; cbn; repeat split; intros; try congruence; intuition congruence. Qed.

Lemma mem_primes_in_range limit primes_set x :
  (forall y, mem y primes_set = is_prime_b y && (y <=? limit)) ->
  x <= limit -> mem x primes_set = is_prime_b x.
Proof.
  intros M Hx. rewrite M. destruct (Z.leb_spec x limit); [apply andb_true_r|lia].
Qed.

Lemma flags_truthy limit is_prime x :
  ExportData.sieve limit = Ok is_prime -> 0 <= x <= limit ->
  truthy (entry is_prime x) = is_prime_b x.
Proof.
  intros E Hx. pose proof (sieve_needs_limit _ _ E) as Hl.
  destruct (sieve_correct limit Hl) as (isp & Es & Ls & T).
  rewrite E in Es. injection Es as <-. rewrite T by lia.
  destruct (is_prime_b x); reflexivity.
Qed.

Lemma is_prime_b_false_iff x : is_prime_b x = false <-> ~ Z.prime x.
Proof.
  rewrite <- is_prime_b_prime. destruct (is_prime_b x); intuition congruence.
Qed.

(** X8.  With sieves covering [0, N - 3], both scans classify by primality:
    a row is Goldbach exactly when [p] and [q] are both prime, Composite
    exactly when neither is, Mixed exactly when one is; and the two scripts
    give the same category to the same [p]. *)
Theorem category_by_primality N limit rads primes_set rows limit' is_prime rows' :
  limit < 2 ^ 63 -> N - 3 <= limit ->
  Rigid.sieve_radicals limit = Ok (rads, primes_set) ->
  Rigid.scan_N N rads primes_set = Ok rows ->
  N - 3 <= limit' ->
  ExportData.sieve limit' = Ok is_prime ->
  ExportData.scan N is_prime = Ok rows' ->
  (forall r, In r rows ->
     (Rigid.cat r = Goldbach <-> Z.prime (Rigid.p r) /\ Z.prime (Rigid.q r))
     /\ (Rigid.cat r = Composite <-> ~ Z.prime (Rigid.p r) /\ ~ Z.prime (Rigid.q r))
     /\ (Rigid.cat r = Mixed <->
         (Z.prime (Rigid.p r) /\ ~ Z.prime (Rigid.q r))
         \/ (~ Z.prime (Rigid.p r) /\ Z.prime (Rigid.q r))))
  /\ (forall r, In r rows' ->
        (ExportData.typ r = Goldbach <->
         Z.prime (ExportData.p r) /\ Z.prime (ExportData.q r))
        /\ (ExportData.typ r = Composite <->
            ~ Z.prime (ExportData.p r) /\ ~ Z.prime (ExportData.q r))
        /\ (ExportData.typ r = Mixed <->
            (Z.prime (ExportData.p r) /\ ~ Z.prime (ExportData.q r))
            \/ (~ Z.prime (ExportData.p r) /\ Z.prime (ExportData.q r))))
  /\ map Rigid.cat rows = map ExportData.typ rows'
  /\ map Rigid.p rows = map ExportData.p rows'.
Proof.
  intros Hbig Hlim E S Hlim' E' S'.
  destruct (sieve_radicals_table _ _ _ Hbig E) as (Hl & L & T & M).
  rewrite (scan_N_rows N limit rads primes_set L T Hlim) in S. injection S as <-.
  pose proof (sieve_needs_limit _ _ E') as Hl'.
  destruct (sieve_correct limit' Hl') as (isp & Es & Ls & _).
  rewrite E' in Es. injection Es as <-.
  assert (S2 : ExportData.scan N is_prime
               = Ok (map (export_row_of N is_prime) (py_range 3 (N / 2 + 1) 1))).
  { destruct (Z_le_gt_dec N 5) as [Hs|Hs].
    - rewrite export_scan_small by assumption. now rewrite scan_range_empty.
    - apply export_scan_rows. lia. }
  rewrite S2 in S'. injection S' as <-.
  assert (C : forall a b : bool, forall P Q : Prop,
             (a = true <-> P) -> (b = true <-> Q) ->
             (classify a b = Goldbach <-> P /\ Q)
             /\ (classify a b = Composite <-> ~ P /\ ~ Q)
             /\ (classify a b = Mixed <-> (P /\ ~ Q) \/ (~ P /\ Q))).
  { intros a b P Q HP HQ. destruct a, b; cbn; repeat split; intros; try congruence;
      intuition congruence. }
  split; [|split; [|split]].
  - intros r Hr. apply in_map_iff in Hr. destruct Hr as (x & <- & Hx).
    apply scan_range_bounds in Hx. unfold rigid_row_of. cbn [Rigid.cat Rigid.p Rigid.q].
    rewrite !(mem_primes_in_range limit primes_set) by (assumption || lia).
    apply C; apply is_prime_b_prime.
  - intros r Hr. apply in_map_iff in Hr. destruct Hr as (x & <- & Hx).
    apply scan_range_bounds in Hx. unfold export_row_of.
    cbn [ExportData.typ ExportData.p ExportData.q].
    rewrite !(flags_truthy limit' is_prime) by (assumption || lia).
    apply C; apply is_prime_b_prime.
  - rewrite !map_map. apply map_ext_in. intros x Hx. apply scan_range_bounds in Hx.
    unfold rigid_row_of, export_row_of. cbn [Rigid.cat ExportData.typ].
    rewrite !(mem_primes_in_range limit primes_set) by (assumption || lia).
    now rewrite !(flags_truthy limit' is_prime) by (assumption || lia).
  - rewrite !map_map. reflexivity.
Qed.

Lemma category_by_primality_witness :
  exists rows rows',
    Rigid.scan_N 8 [1; 1; 2; 3; 2; 5] [2; 3; 5] = Ok rows
    /\ ExportData.scan 8 [0; 0; 1; 1; 0; 1] = Ok rows'
    /\ map Rigid.cat rows = map ExportData.typ rows'.
Proof.
  exists (map (rigid_row_of 8 [2; 3; 5]) (py_range 3 (8 / 2 + 1) 1)).
  exists (map (export_row_of 8 [0; 0; 1; 1; 0; 1]) (py_range 3 (8 / 2 + 1) 1)).
  assert (E : Rigid.scan_N 8 [1; 1; 2; 3; 2; 5] [2; 3; 5]
              = Ok (map (rigid_row_of 8 [2; 3; 5]) (py_range 3 (8 / 2 + 1) 1))).
  { apply (scan_N_rows 8 5); [apply table_of_limit_5|apply table_of_limit_5|lia]. }
  assert (E' : ExportData.scan 8 [0; 0; 1; 1; 0; 1]
               = Ok (map (export_row_of 8 [0; 0; 1; 1; 0; 1]) (py_range 3 (8 / 2 + 1) 1))).
  { apply export_scan_rows. simpl. lia. }
  split; [exact E|]. split; [exact E'|].
  apply (category_by_primality 8 5 [1; 1; 2; 3; 2; 5] [2; 3; 5] _ 5 [0; 0; 1; 1; 0; 1] _).
  - lia.
  - lia.
  - reflexivity.
  - exact E.
  - lia.
  - reflexivity.
  - exact E'.
Defined.

(** * The two conductor models at an arbitrary N *)

Lemma rho_value_le c1 c2 N :
  2 <= N -> c1 <= c2 -> (rho_value c1 N <= rho_value c2 N)%R.
Proof.
  intros HN H. destruct (Z_le_gt_dec c1 1) as [H1|H1].
  - rewrite (proj2 (rho_value_zero c1 N HN) H1). now apply rho_value_nonneg.
  - destruct (Z.eq_dec c1 c2) as [->|Hne]; [lra|].
    apply Rlt_le. apply rho_value_lt; lia.
Qed.

(** X9.  For every [N] and sieves covering [0, N - 3], the conductor proxy
    of [scan_N] is the product-model proxy of the export scan times
    [rM^4], with [rM = odd_rad(N // 2) >= 1]; so its rho is never below the
    product-model rho, and the two proxies of a decomposition coincide
    exactly when [rM = 1]. *)
Theorem conductor_models_differ_by_rM N limit limit' rads primes_set is_prime :
  limit < 2 ^ 63 -> N - 3 <= limit -> N - 3 <= limit' ->
  Rigid.sieve_radicals limit = Ok (rads, primes_set) ->
  ExportData.sieve limit' = Ok is_prime ->
  exists rM rows rows',
    1 <= rM
    /\ (0 <= N / 2 <= limit -> Rigid.odd_rad (N / 2) rads = Ok rM)
    /\ Rigid.scan_N N rads primes_set = Ok rows
    /\ ExportData.scan N is_prime = Ok rows'
    /\ Forall2 (fun r r' =>
          Rigid.p r = ExportData.p r'
          /\ Rigid.conductor_proxy r = ExportData.conductor_proxy r' * rM ^ 4
          /\ (rho_value (ExportData.conductor_proxy r') N <= Rigid.rho r)%R
          /\ ExportData.rho r' = py_round (rho_value (ExportData.conductor_proxy r') N) 6
          /\ (Rigid.conductor_proxy r = ExportData.conductor_proxy r' <-> rM = 1))
       rows rows'.
Proof.
  intros Hbig Hlim Hlim' E E'.
  destruct (sieve_radicals_table _ _ _ Hbig E) as (Hl & L & T & _).
  pose proof (sieve_needs_limit _ _ E') as Hl'.
  destruct (sieve_correct limit' Hl') as (isp & Es & Ls & _).
  rewrite E' in Es. injection Es as <-.
  pose proof (odd_part_of_radical_pos (N / 2)) as HM.
  exists (odd_part_of_radical (N / 2)).
  exists (map (rigid_row_of N primes_set) (py_range 3 (N / 2 + 1) 1)).
  exists (map (export_row_of N is_prime) (py_range 3 (N / 2 + 1) 1)).
  split; [exact HM|]. split.
  { intros Hh. apply odd_rad_of_radical; [lia|apply T; lia]. }
  split; [now apply (scan_N_rows N limit)|]. split.
  { destruct (Z_le_gt_dec N 5) as [Hs|Hs].
    - rewrite export_scan_small by assumption. now rewrite scan_range_empty.
    - apply export_scan_rows. lia. }
  assert (G : forall xs, (forall x, In x xs -> 3 <= x /\ 2 * x <= N) ->
            Forall2 (fun r r' =>
              Rigid.p r = ExportData.p r'
              /\ Rigid.conductor_proxy r
                 = ExportData.conductor_proxy r' * odd_part_of_radical (N / 2) ^ 4
              /\ (rho_value (ExportData.conductor_proxy r') N <= Rigid.rho r)%R
              /\ ExportData.rho r' = py_round (rho_value (ExportData.conductor_proxy r') N) 6
              /\ (Rigid.conductor_proxy r = ExportData.conductor_proxy r'
                  <-> odd_part_of_radical (N / 2) = 1))
            (map (rigid_row_of N primes_set) xs) (map (export_row_of N is_prime) xs)).
  { induction xs as [|x xs IH]; intros Hxs; cbn [map]; constructor.
    - destruct (Hxs x (or_introl eq_refl)) as [Hx1 Hx2].
      unfold rigid_row_of, export_row_of.
      cbn [Rigid.p Rigid.conductor_proxy Rigid.rho ExportData.p
           ExportData.conductor_proxy ExportData.rho].
      pose proof (odd_part_of_radical_pos x) as Hp.
      pose proof (odd_part_of_radical_pos (N - x)) as Hq.
      set (rp := odd_part_of_radical x) in *.
      set (rq := odd_part_of_radical (N - x)) in *.
      set (rM := odd_part_of_radical (N / 2)) in *.
      assert (C : rp * rq * rM * rM * (rp * rq * rM * rM) = (rp * rq) ^ 2 * rM ^ 4) by ring.
      rewrite C.
      assert (P2 : 1 <= (rp * rq) ^ 2) by (rewrite Z.pow_2_r; nia).
      assert (P4 : 1 <= rM ^ 4).
      { replace (rM ^ 4) with (rM * rM * (rM * rM)) by ring. nia. }
      split; [reflexivity|]. split; [reflexivity|]. split.
      { apply rho_value_le; [lia|nia]. }
      split; [reflexivity|]. split.
      + intros H. replace (rM ^ 4) with (rM * rM * (rM * rM)) in * by ring. nia.
      + intros ->. ring.
    - apply IH. intros y Hy. apply Hxs. now right. }
  apply G. intros x Hx. now apply scan_range_bounds.
Qed.

Lemma conductor_models_differ_by_rM_witness :
  exists rM rows rows',
    1 <= rM
    /\ Rigid.scan_N 10 [1; 1; 2; 3; 2; 5; 6; 7] [2; 3; 5; 7] = Ok rows
    /\ ExportData.scan 10 [0; 0; 1; 1; 0; 1; 0; 1] = Ok rows'
    /\ Forall2 (fun r r' =>
          Rigid.conductor_proxy r = ExportData.conductor_proxy r' * rM ^ 4)
       rows rows'.
Proof.
  destruct (conductor_models_differ_by_rM 10 7 7
              [1; 1; 2; 3; 2; 5; 6; 7] [2; 3; 5; 7] [0; 0; 1; 1; 0; 1; 0; 1])
    as (rM & rows & rows' & H1 & _ & S & S' & F).
  - lia.
  - lia.
  - lia.
  - reflexivity.
  - reflexivity.
  - exists rM, rows, rows'. split; [exact H1|]. split; [exact S|]. split; [exact S'|].
    eapply Forall2_impl; [|exact F]. intros r r' H. apply H.
Defined.

(** * Bounds on Chen's ratio *)

Lemma ln_IZR_lt a b : 0 < a -> a < b -> (ln (IZR a) < ln (IZR b))%R.
Proof.
  intros Ha Hab. apply ln_increasing; [apply IZR_lt; lia|now apply IZR_lt].
Qed.

Lemma ln_IZR_mul a b : 0 < a -> 0 < b -> ln (IZR (a * b)) = (ln (IZR a) + ln (IZR b))%R.
Proof.
  intros Ha Hb. rewrite mult_IZR. apply ln_mult; apply IZR_lt; lia.
Qed.

Lemma rho_value_below cond N e :
  2 <= N -> 1 <= e -> cond < N ^ e -> (rho_value cond N < IZR e)%R.
Proof.
  intros HN He Hc. pose proof (ln_IZR_pos N ltac:(lia)) as LN.
  assert (Pw : forall k, 0 <= k -> ln (IZR (N ^ k)) = (IZR k * ln (IZR N))%R).
  { intros k Hk. pattern k. apply natlike_ind; [| |assumption].
    - rewrite Z.pow_0_r, ln_1. lra.
    - intros x Hx IH. rewrite Z.pow_succ_r by assumption.
      rewrite ln_IZR_mul by (try apply Z.pow_pos_nonneg; lia).
      rewrite IH, succ_IZR. lra. }
  unfold rho_value. destruct (Z.ltb_spec 1 cond) as [H1|H1].
  - apply Rmult_lt_reg_r with (ln (IZR N)); [assumption|].
    unfold Rdiv. rewrite Rmult_assoc, Rinv_l by lra. rewrite Rmult_1_r.
    rewrite <- Pw by lia. apply ln_IZR_lt; lia.
  - apply IZR_lt. lia.
Qed.

Lemma odd_part_of_radical_le n : 1 <= n -> odd_part_of_radical n <= n.
Proof. apply pprod_le. Qed.

(** X10.  With sieves covering [0, N - 3], Chen's ratio is bounded: the
    product-model conductor proxy is below [N^4], so the rho the export scan
    computes lies in [0, 4); the proxy of [scan_N] is below [N^8], so its rho
    lies in [0, 8). *)
Theorem rho_is_bounded N limit limit' rads primes_set is_prime :
  limit < 2 ^ 63 -> N - 3 <= limit -> N - 3 <= limit' ->
  Rigid.sieve_radicals limit = Ok (rads, primes_set) ->
  ExportData.sieve limit' = Ok is_prime ->
  exists rows rows',
    Rigid.scan_N N rads primes_set = Ok rows
    /\ ExportData.scan N is_prime = Ok rows'
    /\ (forall r, In r rows ->
          1 <= Rigid.conductor_proxy r < N ^ 8 /\ (0 <= Rigid.rho r < 8)%R)
    /\ (forall r', In r' rows' ->
          1 <= ExportData.conductor_proxy r' < N ^ 4
          /\ exists rho, ExportData.rho r' = py_round rho 6 /\ (0 <= rho < 4)%R).
Proof.
  intros Hbig Hlim Hlim' E E'.
  destruct (sieve_radicals_table _ _ _ Hbig E) as (Hl & L & T & _).
  pose proof (sieve_needs_limit _ _ E') as Hl'.
  destruct (sieve_correct limit' Hl') as (isp & Es & Ls & _).
  rewrite E' in Es. injection Es as <-.
  exists (map (rigid_row_of N primes_set) (py_range 3 (N / 2 + 1) 1)).
  exists (map (export_row_of N is_prime) (py_range 3 (N / 2 + 1) 1)).
  split; [now apply (scan_N_rows N limit)|]. split.
  { destruct (Z_le_gt_dec N 5) as [Hs|Hs].
    - rewrite export_scan_small by assumption. now rewrite scan_range_empty.
    - apply export_scan_rows. lia. }
  assert (B : forall x, 3 <= x -> 2 * x <= N ->
            1 <= odd_part_of_radical x * odd_part_of_radical (N - x) < N * N
            /\ 1 <= odd_part_of_radical (N / 2) * odd_part_of_radical (N / 2) < N * N).
  { intros x Hx1 Hx2.
    assert (3 <= N / 2) by (apply Z.div_le_lower_bound; lia).
    assert (2 * (N / 2) <= N) by (apply Z.mul_div_le; lia).
    pose proof (odd_part_of_radical_pos x). pose proof (odd_part_of_radical_pos (N - x)).
    pose proof (odd_part_of_radical_pos (N / 2)).
    pose proof (odd_part_of_radical_le x ltac:(lia)).
    pose proof (odd_part_of_radical_le (N - x) ltac:(lia)).
    pose proof (odd_part_of_radical_le (N / 2) ltac:(lia)).
    split; nia. }
  split.
  - intros r Hr. apply in_map_iff in Hr. destruct Hr as (x & <- & Hx).
    apply scan_range_bounds in Hx. destruct (B x (proj1 Hx) (proj2 Hx)) as [Ba Bm].
    unfold rigid_row_of. cbn [Rigid.conductor_proxy Rigid.rho].
    set (a := odd_part_of_radical x * odd_part_of_radical (N - x)) in *.
    set (m := odd_part_of_radical (N / 2)) in *.
    assert (C : 1 <= a * m * m * (a * m * m) < N ^ 8).
    { replace (N ^ 8) with (N * N * (N * N) * (N * N * (N * N))) by ring.
      replace (a * m * m) with (a * (m * m)) by ring.
      assert (1 <= a * (m * m) < N * N * (N * N)) by nia. nia. }
    split; [exact C|]. split; [apply rho_value_nonneg; lia|].
    apply (rho_value_below _ N 8); lia.
  - intros r Hr. apply in_map_iff in Hr. destruct Hr as (x & <- & Hx).
    apply scan_range_bounds in Hx. destruct (B x (proj1 Hx) (proj2 Hx)) as [Ba _].
    unfold export_row_of. cbn [ExportData.conductor_proxy ExportData.rho].
    set (a := odd_part_of_radical x * odd_part_of_radical (N - x)) in *.
    assert (C : 1 <= a ^ 2 < N ^ 4).
    { replace (N ^ 4) with (N * N * (N * N)) by ring. rewrite Z.pow_2_r. nia. }
    split; [exact C|]. eexists. split; [reflexivity|].
    split; [apply rho_value_nonneg; lia|]. apply (rho_value_below _ N 4); lia.
Qed.

Lemma rho_is_bounded_witness :
  exists rows rows',
    Rigid.scan_N 10 [1; 1; 2; 3; 2; 5; 6; 7] [2; 3; 5; 7] = Ok rows
    /\ ExportData.scan 10 [0; 0; 1; 1; 0; 1; 0; 1] = Ok rows'
    /\ (forall r, In r rows ->
          1 <= Rigid.conductor_proxy r < 10 ^ 8 /\ (0 <= Rigid.rho r < 8)%R)
    /\ (forall r', In r' rows' ->
          1 <= ExportData.conductor_proxy r' < 10 ^ 4
          /\ exists rho, ExportData.rho r' = py_round rho 6 /\ (0 <= rho < 4)%R).
Proof.
  apply (rho_is_bounded 10 7 7).
  - lia.
  - lia.
  - lia.
  - reflexivity.
  - reflexivity.
Defined.

(** * The ground state and the printed table *)

Lemma insert_by_rho_sorted r l :
  StronglySorted (fun a b => (Rigid.rho a <= Rigid.rho b)%R) l ->
  StronglySorted (fun a b => (Rigid.rho a <= Rigid.rho b)%R) (Rigid.insert_by_rho r l).
Proof.
  induction 1 as [|h t Hs IH Hh]; cbn [Rigid.insert_by_rho].
  - constructor; constructor.
  - destruct (Rle_dec (Rigid.rho r) (Rigid.rho h)) as [Hle|Hgt].
    + constructor; [now constructor|].
      constructor; [assumption|].
      apply Forall_forall. intros x Hx.
      rewrite Forall_forall in Hh. specialize (Hh x Hx). lra.
    + constructor; [assumption|].
      apply Forall_forall. intros x Hx.
      apply (Permutation_in _ (insert_by_rho_perm r t)) in Hx.
      destruct Hx as [<-|Hx]; [lra|].
      rewrite Forall_forall in Hh. now apply Hh.
Qed.

(** The model of [l.sort(key=rho)] returns an ascending rearrangement. *)
Lemma sort_by_rho_sorted l :
  StronglySorted (fun a b => (Rigid.rho a <= Rigid.rho b)%R) (Rigid.sort_by_rho l).
Proof.
  unfold Rigid.sort_by_rho. induction l as [|h t IH]; cbn [fold_right].
  - constructor.
  - now apply insert_by_rho_sorted.
Qed.

Lemma sorted_head_least l g t :
  Rigid.sort_by_rho l = g :: t ->
  In g l /\ forall r, In r l -> (Rigid.rho g <= Rigid.rho r)%R.
Proof.
  intros E. pose proof (sort_by_rho_sorted l) as S. pose proof (sort_by_rho_perm l) as P.
  rewrite E in S, P. split.
  - apply (Permutation_in _ P). now left.
  - intros r Hr. apply (Permutation_in _ (Permutation_sym P)) in Hr.
    destruct Hr as [<-|Hr]; [lra|].
    inversion S as [|? ? _ F]; subst. rewrite Forall_forall in F. now apply F.
Qed.

Lemma getitem_0_head {A : Type} (l : list A) g :
  getitem l 0 = Ok g -> exists t, l = g :: t.
Proof.
  destruct l as [|a l]; unfold getitem, py_index; cbn.
  - discriminate.
  - replace (0 <? Z.pos (Pos.of_succ_nat (length l))) with true by (symmetry; apply Z.ltb_lt; lia).
    cbn. intros E. injection E as <-. eauto.
Qed.

Lemma goldbach_rho_increasing N limit primes_set x y :
  (forall z, mem z primes_set = is_prime_b z && (z <=? limit)) ->
  3 <= x -> x < y -> 2 * y <= N ->
  Rigid.cat (rigid_row_of N primes_set x) = Goldbach ->
  Rigid.cat (rigid_row_of N primes_set y) = Goldbach ->
  (Rigid.rho (rigid_row_of N primes_set x) < Rigid.rho (rigid_row_of N primes_set y))%R.
Proof.
  intros M Hx Hxy Hy Cx Cy.
  destruct (rigid_row_goldbach N limit primes_set x M Hx ltac:(lia) Cx)
    as (Px & Qx & _ & _ & Kx & _).
  destruct (rigid_row_goldbach N limit primes_set y M ltac:(lia) Hy Cy)
    as (Py & Qy & _ & _ & Ky & _).
  unfold rigid_row_of. cbn [Rigid.rho Rigid.conductor_proxy].
  rewrite (odd_part_of_radical_prime x), (odd_part_of_radical_prime (N - x)),
    (odd_part_of_radical_prime y), (odd_part_of_radical_prime (N - y))
    by (assumption || lia).
  clear Kx Ky Cx Cy.
  pose proof (odd_part_of_radical_pos (N / 2)) as HM.
  set (rM := odd_part_of_radical (N / 2)) in *.
  assert (H1 : x * (N - x) < y * (N - y)) by nia.
  assert (H2 : 9 <= x * (N - x)) by nia.
  assert (H3 : 1 <= rM * rM) by nia.
  assert (H4 : x * (N - x) * rM * rM < y * (N - y) * rM * rM).
  { replace (x * (N - x) * rM * rM) with (x * (N - x) * (rM * rM)) by ring.
    replace (y * (N - y) * rM * rM) with (y * (N - y) * (rM * rM)) by ring.
    apply Z.mul_lt_mono_pos_r; lia. }
  assert (H5 : 9 <= x * (N - x) * rM * rM).
  { replace (x * (N - x) * rM * rM) with (x * (N - x) * (rM * rM)) by ring.
    apply (Z.le_trans _ (x * (N - x) * 1)); [lia|].
    apply Z.mul_le_mono_nonneg_l; lia. }
  apply rho_value_lt; [lia| |].
  - apply (Z.lt_le_trans _ (9 * 9)); [lia|].
    apply Z.mul_le_mono_nonneg; lia.
  - apply Z.mul_lt_mono_nonneg; lia.
Qed.

(** X11.  With an adequate sieve, rho is strictly increasing in [p] over the
    Goldbach rows of a scan.  So when the summary returns, its ground state
    [gb[0]] is a Goldbach row of the scan, it is the Goldbach row with the
    smallest [p] (the first one in scan order), its rho is the reported
    Goldbach minimum, and every other Goldbach row has a strictly larger
    rho. *)
Theorem ground_state_is_first_goldbach N limit rads primes_set rows :
  limit < 2 ^ 63 -> N - 3 <= limit ->
  Rigid.sieve_radicals limit = Ok (rads, primes_set) ->
  Rigid.scan_N N rads primes_set = Ok rows ->
  (forall r1 r2, In r1 rows -> In r2 rows ->
     Rigid.cat r1 = Goldbach -> Rigid.cat r2 = Goldbach ->
     Rigid.p r1 < Rigid.p r2 -> (Rigid.rho r1 < Rigid.rho r2)%R)
  /\ (forall rep, Rigid.summary rows = Ok rep ->
        In (Rigid.ground_state rep) rows
        /\ Rigid.cat (Rigid.ground_state rep) = Goldbach
        /\ Rigid.rho (Rigid.ground_state rep) = Rigid.rho_min (Rigid.goldbach_stats rep)
        /\ forall r, In r rows -> Rigid.cat r = Goldbach ->
             Rigid.p (Rigid.ground_state rep) <= Rigid.p r
             /\ (Rigid.rho (Rigid.ground_state rep) <= Rigid.rho r)%R
             /\ (r <> Rigid.ground_state rep ->
                 (Rigid.rho (Rigid.ground_state rep) < Rigid.rho r)%R)).
Proof.
  intros Hbig Hlim E S.
  destruct (sieve_radicals_table _ _ _ Hbig E) as (Hl & L & T & M).
  rewrite (scan_N_rows N limit rads primes_set L T Hlim) in S. injection S as <-.
  set (rows := map (rigid_row_of N primes_set) (py_range 3 (N / 2 + 1) 1)).
  assert (Mono : forall r1 r2, In r1 rows -> In r2 rows ->
            Rigid.cat r1 = Goldbach -> Rigid.cat r2 = Goldbach ->
            Rigid.p r1 < Rigid.p r2 -> (Rigid.rho r1 < Rigid.rho r2)%R).
  { intros r1 r2 H1 H2 C1 C2 Hp. apply in_map_iff in H1, H2.
    destruct H1 as (x & <- & Hx). destruct H2 as (y & <- & Hy).
    apply scan_range_bounds in Hx, Hy. cbn [rigid_row_of Rigid.p] in Hp.
    apply (goldbach_rho_increasing N limit); auto; lia. }
  assert (Same : forall r1 r2, In r1 rows -> In r2 rows ->
            Rigid.p r1 = Rigid.p r2 -> r1 = r2).
  { intros r1 r2 H1 H2 Hp. apply in_map_iff in H1, H2.
    destruct H1 as (x & <- & _). destruct H2 as (y & <- & _).
    cbn [rigid_row_of Rigid.p] in Hp. now subst. }
  split; [exact Mono|].
  intros rep Hs. unfold Rigid.summary in Hs.
  apply bind_Ok_inv in Hs. destruct Hs as (g & Eg & Hs).
  apply bind_Ok_inv in Hs. destruct Hs as (m & _ & Hs).
  apply bind_Ok_inv in Hs. destruct Hs as (c & _ & Hs).
  apply bind_Ok_inv in Hs. destruct Hs as (ground & Egr & Hs).
  apply bind_Ok_inv in Hs. destruct Hs as (bg & _ & Hs).
  apply bind_Ok_inv in Hs. destruct Hs as (bc & _ & Hs).
  apply bind_Ok_inv in Hs. destruct Hs as (num & _ & Hs).
  apply bind_Ok_inv in Hs. destruct Hs as (den & _ & Hs).
  apply bind_Ok_inv in Hs. destruct Hs as (ratio & _ & Hs).
  injection Hs as <-. cbn [Rigid.ground_state Rigid.goldbach_stats].
  destruct (getitem_0_head _ _ Egr) as (t & Et).
  destruct (sorted_head_least _ _ _ Et) as [Hin Hleast].
  unfold Rigid.of_cat in Hin. apply filter_In in Hin. destruct Hin as [Hin Hcat].
  assert (Cg : Rigid.cat ground = Goldbach)
    by (destruct (Rigid.cat ground); [reflexivity|discriminate|discriminate]).
  assert (Least : forall r, In r rows -> Rigid.cat r = Goldbach ->
            (Rigid.rho ground <= Rigid.rho r)%R).
  { intros r Hr Cr. apply Hleast. unfold Rigid.of_cat. apply filter_In.
    split; [assumption|]. now rewrite Cr. }
  split; [exact Hin|]. split; [exact Cg|]. split.
  - apply range_mean_spec in Eg. destruct Eg as ((Imin & Bmin) & _).
    unfold Rigid.gb_rhos in Imin, Bmin. rewrite Et in Imin, Bmin.
    apply Rle_antisym.
    + apply in_map_iff in Imin. destruct Imin as (r & <- & Hr).
      apply Hleast. apply (Permutation_in _ (sort_by_rho_perm _)). now rewrite Et.
    + apply Bmin. cbn [map]. now left.
  - intros r Hr Cr. pose proof (Least r Hr Cr) as Hle.
    assert (Hp : Rigid.p ground <= Rigid.p r).
    { destruct (Z_le_gt_dec (Rigid.p ground) (Rigid.p r)) as [H|H]; [assumption|].
      pose proof (Mono r ground Hr Hin Cr Cg ltac:(lia)). lra. }
    split; [exact Hp|]. split; [exact Hle|].
    intros Hne. apply Mono; auto.
    destruct (Z.eq_dec (Rigid.p ground) (Rigid.p r)) as [e|ne]; [|lia].
    exfalso. apply Hne. symmetry. now apply Same.
Qed.

Lemma ground_state_is_first_goldbach_witness :
  exists rows,
    Rigid.scan_N 10 [1; 1; 2; 3; 2; 5; 6; 7] [2; 3; 5; 7] = Ok rows
    /\ forall r1 r2, In r1 rows -> In r2 rows ->
         Rigid.cat r1 = Goldbach -> Rigid.cat r2 = Goldbach ->
         Rigid.p r1 < Rigid.p r2 -> (Rigid.rho r1 < Rigid.rho r2)%R.
Proof.
  eexists. split; [exact scan_10_rows|].
  apply (ground_state_is_first_goldbach 10 7 [1; 1; 2; 3; 2; 5; 6; 7] [2; 3; 5; 7]).
  - lia.
  - lia.
  - reflexivity.
  - exact scan_10_rows.
Defined.

(** * Powers of two and decompositions with rho = 0 *)

Lemma land_pred_pow2 N :
  1 <= N -> Z.land N (N - 1) = 0 <-> exists k, 0 <= k /\ N = 2 ^ k.
Proof.
  intros HN. split.
  - intros H0. exists (Z.log2 N). split; [apply Z.log2_nonneg|].
    destruct (Z.log2_spec N ltac:(lia)) as [Hlo Hhi].
    destruct (Z.eq_dec N (2 ^ Z.log2 N)) as [e|ne]; [exact e|exfalso].
    assert (L : Z.log2 (N - 1) = Z.log2 N).
    { apply Z.log2_unique; [apply Z.log2_nonneg|]. lia. }
    assert (B1 : Z.testbit N (Z.log2 N) = true) by (apply Z.bit_log2; lia).
    assert (B2 : Z.testbit (N - 1) (Z.log2 N) = true).
    { rewrite <- L. apply Z.bit_log2.
      pose proof (Z.pow_pos_nonneg 2 (Z.log2 N) ltac:(lia) (Z.log2_nonneg N)). lia. }
    assert (B : Z.testbit (Z.land N (N - 1)) (Z.log2 N) = true)
      by (rewrite Z.land_spec, B1, B2; reflexivity).
    rewrite H0, Z.bits_0 in B. discriminate.
  - intros (k & Hk & ->). apply Z.bits_inj'. intros n Hn.
    rewrite Z.land_spec, Z.bits_0, Z.pow2_bits_eqb by assumption.
    destruct (Z.eqb_spec k n) as [<-|ne]; [|reflexivity].
    cbn [andb]. replace (2 ^ k - 1) with (Z.ones k) by (rewrite Z.ones_equiv; lia).
    apply Z.ones_spec_high. lia.
Qed.

(** A positive integer whose odd radical is 1 is a power of two. *)
Lemma odd_part_trivial_pow2 m :
  1 <= m -> odd_part_of_radical m = 1 -> exists k, 0 <= k /\ m = 2 ^ k.
Proof.
  revert m.
  assert (G : forall n m, m <= Z.of_nat n -> 1 <= m -> odd_part_of_radical m = 1 ->
              exists k, 0 <= k /\ m = 2 ^ k).
  { induction n as [|n IH]; intros m Hb Hm H1; [lia|].
    destruct (Z.eq_dec m 1) as [->|Hne]; [exists 0; split; [lia|reflexivity]|].
    destruct (prime_divisor_exists m ltac:(lia)) as (d & Hd & Hdiv).
    destruct (Z.eq_dec d 2) as [->|Hd2].
    - destruct Hdiv as [m' ->]. rewrite (Z.mul_comm m' 2) in *.
      rewrite odd_part_of_radical_double in H1 by lia.
      destruct (IH m' ltac:(lia) ltac:(lia) H1) as (k & Hk & ->).
      exists (k + 1). split; [lia|]. rewrite Z.pow_add_r by lia. ring.
    - exfalso.
      assert (D : (d | odd_part_of_radical m)) by (apply odd_part_of_radical_divisor; auto; lia).
      rewrite H1 in D. pose proof (is_prime_b_ge2 _ Hd).
      apply Z.divide_1_r_nonneg in D; lia. }
  intros m Hm. apply (G (Z.to_nat m)); lia.
Qed.

Lemma pow2_ge3_even a p : 0 <= a -> p = 2 ^ a -> 3 <= p -> exists h, 2 <= h /\ p = 2 * h.
Proof.
  intros Ha -> Hp.
  assert (2 <= a).
  { destruct (Z.eq_dec a 0) as [->|]; [cbn in Hp; lia|].
    destruct (Z.eq_dec a 1) as [->|]; [cbn in Hp; lia|]. lia. }
  exists (2 ^ (a - 1)). split.
  - replace 2 with (2 ^ 1) at 1 by reflexivity. apply Z.pow_le_mono_r; lia.
  - replace a with (1 + (a - 1)) at 1 by lia. rewrite Z.pow_add_r by lia. reflexivity.
Qed.

Lemma pow2_ge3_not_prime a p : 0 <= a -> p = 2 ^ a -> 3 <= p -> is_prime_b p = false.
Proof.
  intros Ha E Hp. destruct (pow2_ge3_even a p Ha E Hp) as (h & Hh & Eh).
  destruct (is_prime_b p) eqn:P; [exfalso|reflexivity].
  apply is_prime_b_spec in P. destruct P as [_ P]. apply (P 2); [lia|].
  rewrite Eh, Z.mul_comm. apply Z_mod_mult.
Qed.

Lemma mul_eq_1 a b : 1 <= a -> 1 <= b -> a * b = 1 -> a = 1 /\ b = 1.
Proof. intros Ha Hb H. nia. Qed.

Lemma export_rho_zero N p :
  3 <= p -> 2 * p <= N ->
  export_rho_of N p = 0%R
  <-> (exists a, 0 <= a /\ p = 2 ^ a) /\ (exists b, 0 <= b /\ N - p = 2 ^ b).
Proof.
  intros Hp Hq. unfold export_rho_of. rewrite rho_value_zero by lia.
  pose proof (odd_part_of_radical_pos p) as Rp.
  pose proof (odd_part_of_radical_pos (N - p)) as Rq.
  split.
  - intros H. rewrite Z.pow_2_r in H.
    assert (E : odd_part_of_radical p * odd_part_of_radical (N - p) = 1) by nia.
    apply mul_eq_1 in E; [|assumption|assumption]. destruct E as [E1 E2].
    split; apply odd_part_trivial_pow2; (assumption || lia).
  - intros [(a & Ha & Ea) (b & Hb & Eb)]. rewrite Eb, Ea.
    rewrite !odd_part_of_radical_pow2 by assumption. cbn. lia.
Qed.

Lemma rigid_rho_zero N primes_set p :
  3 <= p -> 2 * p <= N ->
  Rigid.rho (rigid_row_of N primes_set p) = 0%R
  <-> (exists k, 0 <= k /\ N = 2 ^ k) /\ 2 * p = N.
Proof.
  intros Hp Hq. unfold rigid_row_of. cbn [Rigid.rho]. rewrite rho_value_zero by lia.
  pose proof (odd_part_of_radical_pos p) as Rp.
  pose proof (odd_part_of_radical_pos (N - p)) as Rq.
  pose proof (odd_part_of_radical_pos (N / 2)) as RM.
  split.
  - intros H.
    set (rp := odd_part_of_radical p) in *.
    set (rq := odd_part_of_radical (N - p)) in *.
    set (rM := odd_part_of_radical (N / 2)) in *.
    assert (B1 : 1 <= rp * rq) by nia.
    assert (B2 : 1 <= rp * rq * rM) by nia.
    assert (B3 : 1 <= rp * rq * rM * rM) by nia.
    assert (E : rp * rq * rM * rM = 1) by nia.
    apply mul_eq_1 in E; [|assumption|assumption]. destruct E as [E EM].
    apply mul_eq_1 in E; [|assumption|assumption]. destruct E as [E _].
    apply mul_eq_1 in E; [|assumption|assumption]. destruct E as [Ep Eq].
    subst rp rq rM.
    assert (Hh : 3 <= N / 2) by (apply Z.div_le_lower_bound; lia).
    destruct (odd_part_trivial_pow2 p ltac:(lia) Ep) as (a & Ha & Ea).
    destruct (odd_part_trivial_pow2 (N - p) ltac:(lia) Eq) as (b & Hb & Eb).
    destruct (odd_part_trivial_pow2 (N / 2) ltac:(lia) EM) as (c & Hc & Ec).
    destruct (pow2_ge3_even a p Ha Ea Hp) as (hp & _ & Ep2).
    destruct (pow2_ge3_even b (N - p) Hb Eb ltac:(lia)) as (hq & _ & Eq2).
    assert (EN : N = 2 * (N / 2)).
    { assert (N = (hp + hq) * 2) as -> by lia. rewrite Z.div_mul by lia. lia. }
    assert (EN' : N = 2 ^ (c + 1)).
    { rewrite Z.pow_add_r by lia. change (2 ^ 1) with 2. lia. }
    split; [exists (c + 1); split; [lia|exact EN']|].
    assert (Hbc : b = c).
    { assert (c <= b).
      { apply (Z.pow_le_mono_r_iff 2); [lia|assumption|]. lia. }
      assert (b < c + 1).
      { apply (Z.pow_lt_mono_r_iff 2); [lia|lia|]. lia. }
      lia. }
    subst b. lia.
  - intros [(k & Hk & Ek) Hhalf].
    assert (Eh : N / 2 = p).
    { rewrite <- Hhalf, Z.mul_comm. apply Z.div_mul. lia. }
    assert (EM : odd_part_of_radical (N / 2) = 1)
      by (rewrite Ek; now apply odd_part_of_radical_half_pow2).
    replace (N - p) with p by lia. rewrite Eh in EM |- *. rewrite EM. lia.
Qed.

Lemma rigid_zero_rho_composite N limit primes_set p :
  (forall y, mem y primes_set = is_prime_b y && (y <=? limit)) ->
  3 <= p -> 2 * p <= N ->
  Rigid.rho (rigid_row_of N primes_set p) = 0%R ->
  rigid_row_of N primes_set p = Rigid.mkRow (N / 2) (N / 2) 1 1 1 0 Composite.
Proof.
  intros M Hp Hq H0. pose proof H0 as H.
  apply rigid_rho_zero in H; [|assumption|assumption].
  destruct H as [(k & Hk & Ek) Hhalf].
  assert (Eh : N / 2 = p).
  { rewrite <- Hhalf, Z.mul_comm. apply Z.div_mul. lia. }
  assert (EM : odd_part_of_radical (N / 2) = 1)
    by (rewrite Ek; now apply odd_part_of_radical_half_pow2).
  destruct (odd_part_trivial_pow2 p ltac:(lia) ltac:(now rewrite <- Eh)) as (a & Ha & Ea).
  assert (NP : is_prime_b p = false) by (apply (pow2_ge3_not_prime a); assumption).
  unfold rigid_row_of in *. cbn [Rigid.rho] in H0.
  replace (N - p) with p in * by lia. rewrite Eh in *. rewrite EM in *.
  rewrite M, NP. cbn [andb classify orb].
  change (1 * 1 * 1 * 1 * (1 * 1 * 1 * 1)) with 1 in *. now rewrite H0.
Qed.

(** X12.  Which decompositions get rho = 0, with adequate sieves.  In
    [scan_N] it is the single row [p = q = N/2] at [N] a power of two, and
    no other row at any [N]; in the product model of the export script it
    is every row whose [p] and [N - p] are both powers of two (so also
    [(4, 8)] at [N = 12]).  Such a row is always Composite, so the
    [rho > 0] filter on the Mixed rows of the summary removes nothing. *)
Theorem zero_rho_decompositions N limit rads primes_set :
  limit < 2 ^ 63 -> N - 3 <= limit ->
  Rigid.sieve_radicals limit = Ok (rads, primes_set) ->
  exists rows,
    Rigid.scan_N N rads primes_set = Ok rows
    /\ (forall r, In r rows ->
          (Rigid.rho r = 0%R <-> (exists k, 0 <= k /\ N = 2 ^ k) /\ 2 * Rigid.p r = N)
          /\ (Rigid.rho r = 0%R ->
              r = Rigid.mkRow (N / 2) (N / 2) 1 1 1 0 Composite)
          /\ (export_rho_of N (Rigid.p r) = 0%R
              <-> (exists a, 0 <= a /\ Rigid.p r = 2 ^ a)
                  /\ (exists b, 0 <= b /\ Rigid.q r = 2 ^ b)))
    /\ Rigid.mix_rhos rows = map Rigid.rho (Rigid.of_cat Mixed rows).
Proof.
  intros Hbig Hlim E.
  destruct (sieve_radicals_table _ _ _ Hbig E) as (Hl & L & T & M).
  exists (map (rigid_row_of N primes_set) (py_range 3 (N / 2 + 1) 1)).
  split; [now apply (scan_N_rows N limit)|].
  assert (A : forall r, In r (map (rigid_row_of N primes_set) (py_range 3 (N / 2 + 1) 1)) ->
            exists p, r = rigid_row_of N primes_set p /\ 3 <= p /\ 2 * p <= N).
  { intros r Hr. apply in_map_iff in Hr. destruct Hr as (p & <- & Hp).
    apply scan_range_bounds in Hp. eauto. }
  split.
  - intros r Hr. destruct (A r Hr) as (p & -> & Hp1 & Hp2).
    split; [now apply rigid_rho_zero|].
    split; [now apply (rigid_zero_rho_composite N limit)|].
    cbn [rigid_row_of Rigid.p Rigid.q]. now apply export_rho_zero.
  - unfold Rigid.mix_rhos. f_equal. apply forallb_filter_id. apply forallb_forall.
    intros r Hr. unfold Rigid.of_cat in Hr. apply filter_In in Hr. destruct Hr as [Hr Hc].
    destruct (A r Hr) as (p & -> & Hp1 & Hp2).
    unfold pos. destruct (Rlt_dec 0 (Rigid.rho (rigid_row_of N primes_set p))) as [|Hn];
      [reflexivity|exfalso].
    assert (H0 : Rigid.rho (rigid_row_of N primes_set p) = 0%R).
    { pose proof (rho_value_nonneg
                    (Rigid.conductor_proxy (rigid_row_of N primes_set p)) N ltac:(lia)).
      unfold rigid_row_of in *. cbn [Rigid.rho Rigid.conductor_proxy] in *. lra. }
    rewrite (rigid_zero_rho_composite N limit primes_set p M Hp1 Hp2 H0) in Hc.
    discriminate.
Qed.

Lemma zero_rho_decompositions_witness :
  exists rows,
    Rigid.scan_N 10 [1; 1; 2; 3; 2; 5; 6; 7] [2; 3; 5; 7] = Ok rows
    /\ Rigid.mix_rhos rows = map Rigid.rho (Rigid.of_cat Mixed rows).
Proof.
  destruct (zero_rho_decompositions 10 7 [1; 1; 2; 3; 2; 5; 6; 7] [2; 3; 5; 7])
    as (rows & S & _ & Hm).
  - lia.
  - lia.
  - reflexivity.
  - exists rows. split; assumption.
Defined.

(** * When the summary and the series return *)

Lemma In_nonempty {A : Type} (x : A) l : In x l -> l <> [].
Proof. intros H ->. destruct H. Qed.

Lemma range_mean_nonempty l : l <> [] -> exists st, Rigid.range_mean l = Ok st.
Proof. destruct l; [congruence|]. intros _. cbn. eauto. Qed.

Lemma bandwidth_nonempty l : l <> [] -> exists b, Rigid.bandwidth l = Ok b.
Proof. destruct l; [congruence|]. intros _. cbn. eauto. Qed.

Lemma bandwidth_positive l a b bw :
  In a l -> In b l -> (a < b)%R -> Rigid.bandwidth l = Ok bw -> (0 < bw)%R.
Proof.
  intros Ha Hb Hab E. apply bandwidth_spec in E.
  destruct E as (lo & hi & Elo & Ehi & ->).
  apply py_min_spec in Elo. apply py_max_spec in Ehi.
  pose proof (proj2 Elo a Ha). pose proof (proj2 Ehi b Hb). lra.
Qed.

Lemma getitem_0_cons {A : Type} (g : A) t : getitem (g :: t) 0 = Ok g.
Proof.
  unfold getitem, py_index. cbn [length].
  replace (0 <? Z.of_nat (S (length t))) with true by (symmetry; apply Z.ltb_lt; lia).
  reflexivity.
Qed.

Lemma gb_rhos_In rows r :
  In r rows -> Rigid.cat r = Goldbach -> In (Rigid.rho r) (Rigid.gb_rhos rows).
Proof.
  intros Hr Hc. unfold Rigid.gb_rhos. apply in_map.
  apply (Permutation_in _ (Permutation_sym (sort_by_rho_perm _))).
  unfold Rigid.of_cat. apply filter_In. split; [assumption|now rewrite Hc].
Qed.

Lemma mix_rhos_In rows r :
  In r rows -> Rigid.cat r = Mixed -> (0 < Rigid.rho r)%R ->
  In (Rigid.rho r) (Rigid.mix_rhos rows).
Proof.
  intros Hr Hc Hp. unfold Rigid.mix_rhos. apply in_map. apply filter_In.
  split; [|now apply pos_true].
  unfold Rigid.of_cat. apply filter_In. split; [assumption|now rewrite Hc].
Qed.

Lemma comp_rhos_In rows r :
  In r rows -> Rigid.cat r = Composite -> (0 < Rigid.rho r)%R ->
  In (Rigid.rho r) (Rigid.comp_rhos rows).
Proof.
  intros Hr Hc Hp. unfold Rigid.comp_rhos. apply in_map. apply filter_In.
  split; [|now apply pos_true].
  apply (Permutation_in _ (Permutation_sym (sort_by_rho_perm _))).
  unfold Rigid.of_cat. apply filter_In. split; [assumption|now rewrite Hc].
Qed.

Lemma gb_k_In rows r :
  In r rows -> Rigid.cat r = Goldbach -> In (Rigid.rho r) (Rigid.gb_k rows).
Proof.
  intros Hr Hc. unfold Rigid.gb_k. apply in_map. apply filter_In.
  split; [assumption|now rewrite Hc].
Qed.

Lemma comp_k_In rows r :
  In r rows -> Rigid.cat r = Composite -> (0 < Rigid.rho r)%R ->
  In (Rigid.rho r) (Rigid.comp_k rows).
Proof.
  intros Hr Hc Hp. unfold Rigid.comp_k. apply in_map. apply filter_In.
  split; [assumption|]. rewrite Hc. cbn [category_eqb andb]. now apply pos_true.
Qed.

(** The summary returns when its three lists are non-empty and the Goldbach
    bandwidth is not 0. *)
Lemma summary_returns rows :
  Rigid.gb_rhos rows <> [] -> Rigid.mix_rhos rows <> [] -> Rigid.comp_rhos rows <> [] ->
  (forall b, Rigid.bandwidth (Rigid.gb_rhos rows) = Ok b -> b <> 0%R) ->
  exists rep,
    Rigid.summary rows = Ok rep
    /\ Rigid.bandwidth (Rigid.gb_rhos rows) = Ok (Rigid.bandwidth_goldbach rep)
    /\ Rigid.bandwidth (Rigid.comp_rhos rows) = Ok (Rigid.bandwidth_composite rep)
    /\ Rigid.bandwidth_ratio rep
       = (Rigid.bandwidth_composite rep / Rigid.bandwidth_goldbach rep)%R.
Proof.
  intros Hg Hm Hc Hb. unfold Rigid.summary.
  destruct (range_mean_nonempty _ Hg) as (g & ->).
  destruct (range_mean_nonempty _ Hm) as (m & ->).
  destruct (range_mean_nonempty _ Hc) as (c & ->).
  destruct (bandwidth_nonempty _ Hg) as (bg & Eg).
  destruct (bandwidth_nonempty _ Hc) as (bc & Ec).
  rewrite Eg, Ec. cbn [bind].
  assert (Hs : Rigid.sort_by_rho (Rigid.of_cat Goldbach rows) <> []).
  { intros E. apply Hg. unfold Rigid.gb_rhos. now rewrite E. }
  destruct (Rigid.sort_by_rho (Rigid.of_cat Goldbach rows)) as [|g0 t]; [congruence|].
  rewrite getitem_0_cons. cbn [bind]. unfold py_div.
  destruct (Req_dec_T bg 0) as [e|ne]; [exfalso; now apply (Hb bg)|].
  cbn [bind]. eexists. split; [reflexivity|].
  cbn [Rigid.bandwidth_goldbach Rigid.bandwidth_composite Rigid.bandwidth_ratio]. auto.
Qed.

Lemma export_series_stats_total Nk k gb comp :
  gb <> [] -> comp <> [] ->
  exists row, ExportData.series_stats Nk k gb comp = Ok (Some row).
Proof.
  intros Hg Hc. unfold ExportData.series_stats.
  destruct gb as [|g gb]; [congruence|]. destruct comp as [|c comp]; [congruence|].
  cbn [ExportData.is_empty negb andb py_max py_min bind]. eauto.
Qed.

(** ** The scans of 12, 14 and 16 *)

Lemma table_of_limit_9 :
  length [1; 1; 2; 3; 2; 5; 6; 7; 2; 3] = Z.to_nat (9 + 1)
  /\ forall n, 0 <= n <= 9 -> entry [1; 1; 2; 3; 2; 5; 6; 7; 2; 3] n = radical n.
Proof.
  assert (E : Rigid.sieve_radicals 9
              = Ok ([1; 1; 2; 3; 2; 5; 6; 7; 2; 3], [2; 3; 5; 7])) by reflexivity.
  destruct (sieve_radicals_table 9 _ _ ltac:(lia) E) as (_ & L & T & _). auto.
Qed.

Lemma scan_12_rows :
  Rigid.scan_N 12 [1; 1; 2; 3; 2; 5; 6; 7; 2; 3] [2; 3; 5; 7]
  = Ok [Rigid.mkRow 3 9 3 3 6561 (rho_value 6561 12) Mixed;
        Rigid.mkRow 4 8 1 1 81 (rho_value 81 12) Composite;
        Rigid.mkRow 5 7 5 7 99225 (rho_value 99225 12) Goldbach;
        Rigid.mkRow 6 6 3 3 6561 (rho_value 6561 12) Composite].
Proof.
  rewrite (scan_N_rows 12 9) by (apply table_of_limit_9 || lia).
  change (py_range 3 (12 / 2 + 1) 1) with [3; 4; 5; 6]. cbn [map].
  unfold rigid_row_of. repeat f_equal; reflexivity.
Qed.

Lemma table_of_limit_11 :
  length [1; 1; 2; 3; 2; 5; 6; 7; 2; 3; 10; 11] = Z.to_nat (11 + 1)
  /\ forall n, 0 <= n <= 11 ->
       entry [1; 1; 2; 3; 2; 5; 6; 7; 2; 3; 10; 11] n = radical n.
Proof.
  assert (E : Rigid.sieve_radicals 11
              = Ok ([1; 1; 2; 3; 2; 5; 6; 7; 2; 3; 10; 11], [2; 3; 5; 7; 11]))
    by reflexivity.
  destruct (sieve_radicals_table 11 _ _ ltac:(lia) E) as (_ & L & T & _). auto.
Qed.

Lemma scan_14_rows :
  Rigid.scan_N 14 [1; 1; 2; 3; 2; 5; 6; 7; 2; 3; 10; 11] [2; 3; 5; 7; 11]
  = Ok [Rigid.mkRow 3 11 3 11 2614689 (rho_value 2614689 14) Goldbach;
        Rigid.mkRow 4 10 1 5 60025 (rho_value 60025 14) Composite;
        Rigid.mkRow 5 9 5 3 540225 (rho_value 540225 14) Mixed;
        Rigid.mkRow 6 8 3 1 21609 (rho_value 21609 14) Composite;
        Rigid.mkRow 7 7 7 7 5764801 (rho_value 5764801 14) Goldbach].
Proof.
  rewrite (scan_N_rows 14 11) by (apply table_of_limit_11 || lia).
  change (py_range 3 (14 / 2 + 1) 1) with [3; 4; 5; 6; 7]. cbn [map].
  unfold rigid_row_of. repeat f_equal; reflexivity.
Qed.

(** On the scan of 14 the summary returns, with a positive Goldbach
    bandwidth. *)
Lemma summary_14_returns rows :
  Rigid.scan_N 14 [1; 1; 2; 3; 2; 5; 6; 7; 2; 3; 10; 11] [2; 3; 5; 7; 11] = Ok rows ->
  (exists rep, Rigid.summary rows = Ok rep /\ (0 < Rigid.bandwidth_goldbach rep)%R)
  /\ exists line, Rigid.series_stats 14 0 rows = Ok (Some line).
Proof.
  rewrite scan_14_rows. intros E. injection E as <-.
  set (rows := [Rigid.mkRow 3 11 3 11 2614689 (rho_value 2614689 14) Goldbach;
                Rigid.mkRow 4 10 1 5 60025 (rho_value 60025 14) Composite;
                Rigid.mkRow 5 9 5 3 540225 (rho_value 540225 14) Mixed;
                Rigid.mkRow 6 8 3 1 21609 (rho_value 21609 14) Composite;
                Rigid.mkRow 7 7 7 7 5764801 (rho_value 5764801 14) Goldbach]).
  pose proof (rho_value_lt 2614689 5764801 14 ltac:(lia) ltac:(lia) ltac:(lia)) as Lt.
  assert (G3 : In (rho_value 2614689 14) (Rigid.gb_rhos rows)).
  { apply (gb_rhos_In rows (Rigid.mkRow 3 11 3 11 2614689 (rho_value 2614689 14) Goldbach));
      [cbn; tauto|reflexivity]. }
  assert (G7 : In (rho_value 5764801 14) (Rigid.gb_rhos rows)).
  { apply (gb_rhos_In rows (Rigid.mkRow 7 7 7 7 5764801 (rho_value 5764801 14) Goldbach));
      [cbn; tauto|reflexivity]. }
  assert (M5 : In (rho_value 540225 14) (Rigid.mix_rhos rows)).
  { apply (mix_rhos_In rows (Rigid.mkRow 5 9 5 3 540225 (rho_value 540225 14) Mixed));
      [cbn; tauto|reflexivity|apply rho_value_pos; lia]. }
  assert (C4 : In (rho_value 60025 14) (Rigid.comp_rhos rows)).
  { apply (comp_rhos_In rows (Rigid.mkRow 4 10 1 5 60025 (rho_value 60025 14) Composite));
      [cbn; tauto|reflexivity|apply rho_value_pos; lia]. }
  split.
  - destruct (summary_returns rows (In_nonempty _ _ G3) (In_nonempty _ _ M5)
                (In_nonempty _ _ C4)) as (rep & Es & Eb & _).
    + intros b Eb. pose proof (bandwidth_positive _ _ _ _ G3 G7 Lt Eb). lra.
    + exists rep. split; [exact Es|]. exact (bandwidth_positive _ _ _ _ G3 G7 Lt Eb).
  - apply rigid_series_stats_total.
    + apply (In_nonempty (rho_value 2614689 14)).
      apply (gb_k_In rows (Rigid.mkRow 3 11 3 11 2614689 (rho_value 2614689 14) Goldbach));
        [cbn; tauto|reflexivity].
    + apply (In_nonempty (rho_value 60025 14)).
      apply (comp_k_In rows (Rigid.mkRow 4 10 1 5 60025 (rho_value 60025 14) Composite));
        [cbn; tauto|reflexivity|apply rho_value_pos; lia].
Qed.

(** With the flags of [sieve(13)] the evolution loop of the export script
    appends a row at [k = 4]. *)
Lemma export_series_row_16 :
  ExportData.sieve 13 = Ok [0; 0; 1; 1; 0; 1; 0; 1; 0; 0; 0; 1; 0; 1]
  /\ exists row,
       ExportData.series_row_of 4 [0; 0; 1; 1; 0; 1; 0; 1; 0; 0; 0; 1; 0; 1]
       = Ok (Some row).
Proof.
  assert (E : ExportData.sieve 13 = Ok [0; 0; 1; 1; 0; 1; 0; 1; 0; 0; 0; 1; 0; 1])
    by reflexivity.
  split; [exact E|]. unfold ExportData.series_row_of.
  rewrite (export_series_lists 13 _ (2 ^ 4) E) by (cbn; lia). cbn [bind].
  apply export_series_stats_total.
  - apply (In_nonempty (export_rho_of (2 ^ 4) 3)). unfold export_positive_rhos.
    apply in_map. apply filter_In. split; [apply py_range_unit_In; cbn; lia|].
    apply andb_true_iff. split; [reflexivity|].
    apply pos_true. unfold export_rho_of. apply rho_value_pos; [cbn; lia|].
    replace (odd_part_of_radical 3) with 3 by reflexivity.
    replace (odd_part_of_radical (2 ^ 4 - 3)) with 13 by reflexivity. lia.
  - apply (In_nonempty (export_rho_of (2 ^ 4) 4)). unfold export_positive_rhos.
    apply in_map. apply filter_In. split; [apply py_range_unit_In; cbn; lia|].
    apply andb_true_iff. split; [reflexivity|].
    apply pos_true. unfold export_rho_of. apply rho_value_pos; [cbn; lia|].
    replace (odd_part_of_radical 4) with 1 by reflexivity.
    replace (odd_part_of_radical (2 ^ 4 - 4)) with 3 by reflexivity. lia.
Qed.

Lemma scan_12_lists rows :
  Rigid.scan_N 12 [1; 1; 2; 3; 2; 5; 6; 7; 2; 3] [2; 3; 5; 7] = Ok rows ->
  Rigid.gb_k rows = [rho_value 99225 12] /\ Rigid.comp_k rows <> [].
Proof.
  rewrite scan_12_rows. intros E. injection E as <-. split.
  - reflexivity.
  - apply (In_nonempty (rho_value 81 12)).
    apply (comp_k_In _ (Rigid.mkRow 4 8 1 1 81 (rho_value 81 12) Composite));
      [cbn; tauto|reflexivity|apply rho_value_pos; lia].
Qed.

Lemma bandwidth_singleton x : Rigid.bandwidth [x] = Ok 0%R.
Proof. unfold Rigid.bandwidth. cbn. f_equal. lra. Qed.

(** The scan of [N = 12] with the sieve built to 9 has one Goldbach
    decomposition, [(5, 7)], and two Composite decompositions with rho > 0:
    a line is produced, its Goldbach bandwidth is 0 and its ratio is the
    infinity sentinel. *)
Lemma degenerate_ratio_is_infinity_witness :
  exists rows line,
    Rigid.sieve_radicals 9 = Ok ([1; 1; 2; 3; 2; 5; 6; 7; 2; 3], [2; 3; 5; 7])
    /\ Rigid.scan_N 12 [1; 1; 2; 3; 2; 5; 6; 7; 2; 3] [2; 3; 5; 7] = Ok rows
    /\ Rigid.gb_k rows <> [] /\ Rigid.comp_k rows <> []
    /\ Rigid.series_stats 12 0 rows = Ok (Some line)
    /\ Rigid.BW_goldbach line = 0%R
    /\ Rigid.ratio line = Rigid.Infinity.
Proof.
  destruct (scan_12_lists _ scan_12_rows) as [Eg Hc].
  assert (Hg : Rigid.gb_k
                 [Rigid.mkRow 3 9 3 3 6561 (rho_value 6561 12) Mixed;
                  Rigid.mkRow 4 8 1 1 81 (rho_value 81 12) Composite;
                  Rigid.mkRow 5 7 5 7 99225 (rho_value 99225 12) Goldbach;
                  Rigid.mkRow 6 6 3 3 6561 (rho_value 6561 12) Composite] <> [])
    by (rewrite Eg; discriminate).
  destruct (degenerate_ratio_is_infinity 12 0
              [Rigid.mkRow 3 9 3 3 6561 (rho_value 6561 12) Mixed;
               Rigid.mkRow 4 8 1 1 81 (rho_value 81 12) Composite;
               Rigid.mkRow 5 7 5 7 99225 (rho_value 99225 12) Goldbach;
               Rigid.mkRow 6 6 3 3 6561 (rho_value 6561 12) Composite])
    as (_ & Total & Spec).
  destruct (Total Hg Hc) as (line & El).
  destruct (Spec line El) as (_ & _ & Bg & _ & _ & _ & Inf & _).
  assert (B0 : Rigid.BW_goldbach line = 0%R).
  { rewrite Eg, bandwidth_singleton in Bg. now injection Bg. }
  eexists. exists line.
  split; [reflexivity|]. split; [exact scan_12_rows|].
  split; [exact Hg|]. split; [exact Hc|]. split; [exact El|].
  split; [exact B0|]. exact (Inf B0).
Defined.

(** The scan of [N = 14] with the sieve built to 11 has two Goldbach, one
    Mixed and two Composite decompositions, all with rho > 0: the summary
    returns and the 2^k statistics produce a line; with the flags of
    [sieve(13)] the export loop appends a row at [k = 4]. *)
Lemma statistics_over_positive_members_witness :
  exists rows rep line row,
    Rigid.sieve_radicals 11
    = Ok ([1; 1; 2; 3; 2; 5; 6; 7; 2; 3; 10; 11], [2; 3; 5; 7; 11])
    /\ Rigid.scan_N 14 [1; 1; 2; 3; 2; 5; 6; 7; 2; 3; 10; 11] [2; 3; 5; 7; 11] = Ok rows
    /\ (forall c, Permutation (summary_rhos c rows) (positive_rhos c rows))
    /\ Rigid.summary rows = Ok rep
    /\ Rigid.range_mean (positive_rhos Goldbach rows) = Ok (Rigid.goldbach_stats rep)
    /\ Rigid.range_mean (positive_rhos Mixed rows) = Ok (Rigid.mixed_stats rep)
    /\ Rigid.range_mean (positive_rhos Composite rows) = Ok (Rigid.composite_stats rep)
    /\ Rigid.bandwidth (positive_rhos Goldbach rows) = Ok (Rigid.bandwidth_goldbach rep)
    /\ Rigid.bandwidth (positive_rhos Composite rows)
       = Ok (Rigid.bandwidth_composite rep)
    /\ Rigid.series_stats 14 0 rows = Ok (Some line)
    /\ py_min (positive_rhos Goldbach rows) = Ok (Rigid.line_rho_min line)
    /\ py_max (positive_rhos Goldbach rows) = Ok (Rigid.line_rho_max line)
    /\ Rigid.line_rho_mean line = np_mean (positive_rhos Goldbach rows)
    /\ Rigid.bandwidth (positive_rhos Goldbach rows) = Ok (Rigid.BW_goldbach line)
    /\ Rigid.bandwidth (positive_rhos Composite rows) = Ok (Rigid.BW_composite line)
    /\ ExportData.sieve 13 = Ok [0; 0; 1; 1; 0; 1; 0; 1; 0; 0; 0; 1; 0; 1]
    /\ ExportData.series_row_of 4 [0; 0; 1; 1; 0; 1; 0; 1; 0; 0; 0; 1; 0; 1]
       = Ok (Some row)
    /\ exists lo hi lo' hi',
         py_min (export_positive_rhos Goldbach
                   [0; 0; 1; 1; 0; 1; 0; 1; 0; 0; 0; 1; 0; 1] (2 ^ 4)) = Ok lo
         /\ py_max (export_positive_rhos Goldbach
                      [0; 0; 1; 1; 0; 1; 0; 1; 0; 0; 0; 1; 0; 1] (2 ^ 4)) = Ok hi
         /\ py_min (export_positive_rhos Composite
                      [0; 0; 1; 1; 0; 1; 0; 1; 0; 0; 0; 1; 0; 1] (2 ^ 4)) = Ok lo'
         /\ py_max (export_positive_rhos Composite
                      [0; 0; 1; 1; 0; 1; 0; 1; 0; 0; 0; 1; 0; 1] (2 ^ 4)) = Ok hi'
         /\ ExportData.rho_min row = py_round lo 6
         /\ ExportData.rho_max row = py_round hi 6
         /\ ExportData.BW_goldbach row = py_round (hi - lo) 6
         /\ ExportData.BW_composite row = py_round (hi' - lo') 6.
Proof.
  assert (Es : Rigid.sieve_radicals 11
               = Ok ([1; 1; 2; 3; 2; 5; 6; 7; 2; 3; 10; 11], [2; 3; 5; 7; 11]))
    by reflexivity.
  destruct (summary_14_returns _ scan_14_rows) as ((rep & Er & _) & line & El).
  destruct export_series_row_16 as (Ef & row & Ew).
  destruct (statistics_over_positive_members 14 11
              [1; 1; 2; 3; 2; 5; 6; 7; 2; 3; 10; 11] [2; 3; 5; 7; 11] _
              ltac:(lia) ltac:(lia) Es scan_14_rows)
    as (P & Sm & Sr & _ & _ & Ex).
  destruct (Sm rep Er) as (S1 & S2 & S3 & S4 & S5).
  destruct (Sr 14 0 line El) as (L1 & L2 & L3 & L4 & L5).
  destruct (Ex 13 _ 4 row Ef ltac:(cbn; lia) Ew)
    as (lo & hi & lo' & hi' & X1 & X2 & X3 & X4 & X5 & _ & X7 & X8 & X9).
  eexists. exists rep, line, row.
  split; [exact Es|]. split; [exact scan_14_rows|]. split; [exact P|].
  split; [exact Er|]. split; [exact S1|]. split; [exact S2|]. split; [exact S3|].
  split; [exact S4|]. split; [exact S5|]. split; [exact El|].
  split; [exact L1|]. split; [exact L2|]. split; [exact L3|]. split; [exact L4|].
  split; [exact L5|]. split; [exact Ef|]. split; [exact Ew|].
  exists lo, hi, lo', hi'.
  split; [exact X1|]. split; [exact X2|]. split; [exact X3|]. split; [exact X4|].
  split; [exact X5|]. split; [exact X7|]. split; [exact X8|]. exact X9.
Defined.

(** * The banner's power-of-two test *)

(** X13.  For [N >= 1] the banner prints 1 for [rad_odd(N/2)] exactly when
    [N] is a power of two, and then [odd_rad(N // 2)] does return 1 on a
    table that covers [N // 2]; for even [N] the converse holds too, so the
    printed 1 is the value of [odd_rad(N // 2)] and the question mark means
    that it is larger.  (For odd [N] the test can fail although
    [odd_rad(N // 2) = 1], as at [N = 5].) *)
Theorem zero_ramification_note_spec N limit rads primes_set :
  1 <= N -> limit < 2 ^ 63 -> N / 2 <= limit ->
  Rigid.sieve_radicals limit = Ok (rads, primes_set) ->
  (Rigid.zero_ramification_note N = Some 1 <-> exists k, 0 <= k /\ N = 2 ^ k)
  /\ (Rigid.zero_ramification_note N = None <-> ~ exists k, 0 <= k /\ N = 2 ^ k)
  /\ (Rigid.zero_ramification_note N = Some 1 -> Rigid.odd_rad (N / 2) rads = Ok 1)
  /\ (N mod 2 = 0 -> Rigid.odd_rad (N / 2) rads = Ok 1 ->
      Rigid.zero_ramification_note N = Some 1)
  /\ (N mod 2 = 0 -> Rigid.zero_ramification_note N = None ->
      exists r, Rigid.odd_rad (N / 2) rads = Ok r /\ 3 <= r).
Proof.
  intros HN Hbig Hlim E.
  destruct (sieve_radicals_table _ _ _ Hbig E) as (Hl & L & T & _).
  assert (Hh : 0 <= N / 2) by (apply Z.div_pos; lia).
  assert (R : Rigid.odd_rad (N / 2) rads = Ok (odd_part_of_radical (N / 2))).
  { apply odd_rad_of_radical; [lia|apply T; lia]. }
  assert (A : Rigid.zero_ramification_note N = Some 1 <-> exists k, 0 <= k /\ N = 2 ^ k).
  { rewrite <- (land_pred_pow2 N HN). unfold Rigid.zero_ramification_note.
    destruct (Z.eqb_spec (Z.land N (N - 1)) 0); split; intros H;
      (reflexivity || discriminate || assumption || contradiction). }
  assert (B : Rigid.zero_ramification_note N = None <-> ~ exists k, 0 <= k /\ N = 2 ^ k).
  { rewrite <- A. unfold Rigid.zero_ramification_note.
    destruct (Z.land N (N - 1) =? 0); split; intros H;
      (reflexivity || discriminate || (now exfalso; apply H) || (intros ?; discriminate)). }
  assert (C : N mod 2 = 0 -> odd_part_of_radical (N / 2) = 1 -> exists k, 0 <= k /\ N = 2 ^ k).
  { intros Hev H1.
    assert (EN : N = 2 * (N / 2)) by (pose proof (Z.div_mod N 2 ltac:(lia)); lia).
    destruct (odd_part_trivial_pow2 (N / 2) ltac:(lia) H1) as (c & Hc & Ec).
    exists (c + 1). split; [lia|]. rewrite Z.pow_add_r by lia. change (2 ^ 1) with 2. lia. }
  split; [exact A|]. split; [exact B|]. split; [|split].
  - intros H. apply A in H. destruct H as (k & Hk & ->).
    rewrite R. f_equal. now apply odd_part_of_radical_half_pow2.
  - intros Hev H1. apply A. apply C; [assumption|]. rewrite R in H1. now injection H1.
  - intros Hev Hn. exists (odd_part_of_radical (N / 2)). split; [exact R|].
    pose proof (odd_part_of_radical_pos (N / 2)) as P.
    destruct (Z.eq_dec (odd_part_of_radical (N / 2)) 1) as [e|ne].
    + exfalso. apply B in Hn. apply Hn. now apply C.
    + destruct (Z.eq_dec (odd_part_of_radical (N / 2)) 2) as [e2|ne2]; [exfalso|lia].
      assert (D : (2 | odd_part_of_radical (N / 2))) by (rewrite e2; apply Z.divide_refl).
      assert (H1 : 1 <= N / 2) by (pose proof (Z.div_mod N 2 ltac:(lia)); lia).
      apply odd_part_of_radical_divisor in D; [|exact H1|reflexivity]. now destruct D.
Qed.

Lemma zero_ramification_note_spec_witness :
  Rigid.zero_ramification_note 8 = Some 1
  /\ Rigid.odd_rad (8 / 2) [1; 1; 2; 3; 2; 5] = Ok 1.
Proof.
  destruct (zero_ramification_note_spec 8 5 [1; 1; 2; 3; 2; 5] [2; 3; 5])
    as (A & _ & R & _).
  - lia.
  - lia.
  - cbn. lia.
  - reflexivity.
  - assert (H : Rigid.zero_ramification_note 8 = Some 1) by reflexivity.
    split; [exact H|exact (R H)].
Defined.

(** * The printed table *)

Lemma sorted_firstn {A : Type} (R : A -> A -> Prop) n : forall l,
  StronglySorted R l -> StronglySorted R (firstn n l).
Proof.
  induction n as [|n IH]; intros l S; cbn [firstn]; [constructor|].
  destruct l as [|h t]; [constructor|].
  inversion S as [|? ? St F]; subst. constructor; [now apply IH|].
  rewrite Forall_forall in *. intros x Hx. apply F.
  rewrite <- (firstn_skipn n t). apply in_or_app. now left.
Qed.

Lemma sorted_firstn_skipn {A : Type} (R : A -> A -> Prop) n : forall l,
  StronglySorted R l ->
  forall g r, In g (firstn n l) -> In r (skipn n l) -> R g r.
Proof.
  induction n as [|n IH]; intros l S g r Hg Hr; cbn [firstn skipn] in *;
    [destruct Hg|].
  destruct l as [|h t]; [destruct Hg|].
  inversion S as [|? ? St F]; subst. destruct Hg as [<-|Hg].
  - rewrite Forall_forall in F. apply F.
    rewrite <- (firstn_skipn n t). apply in_or_app. now right.
  - now apply (IH t).
Qed.

Lemma firstn_sort_lowest n l :
  lowest_by_rho n (firstn n (Rigid.sort_by_rho l)) l.
Proof.
  pose proof (sort_by_rho_sorted l) as S. pose proof (sort_by_rho_perm l) as P.
  split; [|split].
  - rewrite length_firstn. now rewrite (Permutation_length P).
  - now apply sorted_firstn.
  - exists (skipn n (Rigid.sort_by_rho l)). split.
    + now rewrite firstn_skipn.
    + now apply sorted_firstn_skipn.
Qed.

(** X14.  The table lists, by ascending rho, the five Goldbach rows with
    the lowest rho and then the five Composite rows with the lowest rho
    (all of them when there are fewer); every row left out has a rho at
    least as large as every row listed.  The Composite part is not filtered
    by [rho > 0].  When the summary returns, the first Goldbach row of the
    table is its ground state. *)
Theorem table_lists_lowest_rows rows :
  lowest_by_rho 5 (fst (Rigid.table rows)) (Rigid.of_cat Goldbach rows)
  /\ lowest_by_rho 5 (snd (Rigid.table rows)) (Rigid.of_cat Composite rows)
  /\ (forall rep, Rigid.summary rows = Ok rep ->
        hd_error (fst (Rigid.table rows)) = Some (Rigid.ground_state rep)).
Proof.
  split; [apply firstn_sort_lowest|]. split; [apply firstn_sort_lowest|].
  intros rep Hs. unfold Rigid.summary in Hs.
  apply bind_Ok_inv in Hs. destruct Hs as (g & _ & Hs).
  apply bind_Ok_inv in Hs. destruct Hs as (m & _ & Hs).
  apply bind_Ok_inv in Hs. destruct Hs as (c & _ & Hs).
  apply bind_Ok_inv in Hs. destruct Hs as (ground & Egr & Hs).
  apply bind_Ok_inv in Hs. destruct Hs as (bg & _ & Hs).
  apply bind_Ok_inv in Hs. destruct Hs as (bc & _ & Hs).
  apply bind_Ok_inv in Hs. destruct Hs as (num & _ & Hs).
  apply bind_Ok_inv in Hs. destruct Hs as (den & _ & Hs).
  apply bind_Ok_inv in Hs. destruct Hs as (ratio & _ & Hs).
  injection Hs as <-. cbn [Rigid.ground_state].
  destruct (getitem_0_head _ _ Egr) as (t & Et).
  unfold Rigid.table. cbn [fst]. now rewrite Et.
Qed.

(** * Outcome of the summary *)

Lemma filter_all_but_one {A : Type} (f : A -> bool) l x :
  NoDup l -> In x l -> f x = false -> (forall y, In y l -> y <> x -> f y = true) ->
  S (length (filter f l)) = length l.
Proof.
  induction l as [|h t IH]; intros ND Hin Hf Hall; [destruct Hin|].
  inversion ND as [|? ? Hnot ND']; subst. cbn [filter length].
  destruct Hin as [->|Hin].
  - rewrite Hf. f_equal. f_equal. apply forallb_filter_id. apply forallb_forall.
    intros y Hy. apply Hall; [now right|]. intros ->. contradiction.
  - rewrite (Hall h (or_introl eq_refl)) by (intros ->; contradiction).
    cbn [length]. f_equal. apply IH; auto. intros y Hy. apply Hall. now right.
Qed.

Lemma rigid_rows_NoDup N primes_set :
  NoDup (map (rigid_row_of N primes_set) (py_range 3 (N / 2 + 1) 1)).
Proof.
  apply Injective_map_NoDup; [|apply py_range_NoDup; lia].
  intros x y H. apply (f_equal Rigid.p) in H. exact H.
Qed.

Lemma summary_value_error rows :
  Rigid.of_cat Goldbach rows = [] \/ Rigid.mix_rhos rows = [] \/ Rigid.comp_rhos rows = [] ->
  Rigid.summary rows = Raise ValueError.
Proof.
  intros H. unfold Rigid.summary.
  destruct (Rigid.gb_rhos rows) as [|g gs] eqn:Eg; [reflexivity|].
  destruct H as [H|H].
  { unfold Rigid.gb_rhos in Eg. rewrite H in Eg. discriminate. }
  destruct (Rigid.mix_rhos rows) as [|m ms] eqn:Em; [reflexivity|].
  destruct H as [H|H]; [discriminate|]. rewrite H. reflexivity.
Qed.

Lemma summary_zero_division rows :
  length (Rigid.of_cat Goldbach rows) = 1%nat ->
  Rigid.mix_rhos rows <> [] -> Rigid.comp_rhos rows <> [] ->
  Rigid.summary rows = Raise ZeroDivisionError.
Proof.
  intros H1 Hm Hc. unfold Rigid.summary.
  assert (Eg : exists g, Rigid.gb_rhos rows = [Rigid.rho g]
                         /\ Rigid.sort_by_rho (Rigid.of_cat Goldbach rows) = [g]).
  { unfold Rigid.gb_rhos.
    destruct (Rigid.of_cat Goldbach rows) as [|g [|g' t]]; try discriminate.
    exists g. split; reflexivity. }
  destruct Eg as (g & Eg & Es). rewrite Eg, Es.
  destruct (range_mean_nonempty _ Hm) as (m & ->).
  destruct (range_mean_nonempty _ Hc) as (c & ->).
  destruct (bandwidth_nonempty _ Hc) as (bc & ->).
  rewrite bandwidth_singleton, getitem_0_cons.
  unfold Rigid.range_mean, py_min, py_max. cbn [fold_left bind]. unfold py_div.
  destruct (Req_dec_T 0 0) as [|ne]; [reflexivity|now exfalso].
Qed.

Lemma two_goldbach_rows N limit primes_set :
  (forall z, mem z primes_set = is_prime_b z && (z <=? limit)) ->
  (2 <= length (Rigid.of_cat Goldbach
                  (map (rigid_row_of N primes_set) (py_range 3 (N / 2 + 1) 1))))%nat ->
  exists a b,
    In a (Rigid.gb_rhos (map (rigid_row_of N primes_set) (py_range 3 (N / 2 + 1) 1)))
    /\ In b (Rigid.gb_rhos (map (rigid_row_of N primes_set) (py_range 3 (N / 2 + 1) 1)))
    /\ (a < b)%R.
Proof.
  intros M H2.
  set (rows := map (rigid_row_of N primes_set) (py_range 3 (N / 2 + 1) 1)) in *.
  assert (ND : NoDup (Rigid.of_cat Goldbach rows))
    by (apply NoDup_filter, rigid_rows_NoDup).
  destruct (Rigid.of_cat Goldbach rows) as [|r1 [|r2 t]] eqn:Eo;
    [cbn in H2; lia|cbn in H2; lia|].
  assert (I1 : In r1 (Rigid.of_cat Goldbach rows)) by (rewrite Eo; now left).
  assert (I2 : In r2 (Rigid.of_cat Goldbach rows)) by (rewrite Eo; right; now left).
  assert (Hne : r1 <> r2).
  { inversion ND as [|? ? Hn _]; subst. intros ->. apply Hn. now left. }
  unfold Rigid.of_cat in I1, I2. apply filter_In in I1, I2.
  destruct I1 as [I1 C1]. destruct I2 as [I2 C2].
  assert (G1 : Rigid.cat r1 = Goldbach)
    by (destruct (Rigid.cat r1); [reflexivity|discriminate|discriminate]).
  assert (G2 : Rigid.cat r2 = Goldbach)
    by (destruct (Rigid.cat r2); [reflexivity|discriminate|discriminate]).
  pose proof (gb_rhos_In rows r1 I1 G1) as R1.
  pose proof (gb_rhos_In rows r2 I2 G2) as R2.
  unfold rows in I1, I2. apply in_map_iff in I1, I2.
  destruct I1 as (x & E1 & Hx). destruct I2 as (y & E2 & Hy).
  apply scan_range_bounds in Hx, Hy.
  assert (Hxy : x <> y) by (intros ->; apply Hne; congruence).
  destruct (Z_lt_le_dec x y) as [Hlt|Hge].
  - exists (Rigid.rho r1), (Rigid.rho r2). split; [exact R1|]. split; [exact R2|].
    rewrite <- E1, <- E2 in *.
    apply (goldbach_rho_increasing N limit); auto; lia.
  - exists (Rigid.rho r2), (Rigid.rho r1). split; [exact R2|]. split; [exact R1|].
    rewrite <- E1, <- E2 in *.
    apply (goldbach_rho_increasing N limit); auto; lia.
Qed.

(** X15.  Outcome of the summary on the rows of a scan with an adequate
    sieve.  It raises ValueError ([min] of an empty list) when there is no
    Goldbach row, no Mixed row with rho > 0 or no Composite row with
    rho > 0; with all three present it raises ZeroDivisionError (the
    unguarded ratio) when there is exactly one Goldbach row, and with two or
    more Goldbach rows it returns, with a positive Goldbach bandwidth and
    the ratio [bw_comp / bw_gb >= 0]. *)
Theorem summary_outcome N limit rads primes_set rows :
  limit < 2 ^ 63 -> N - 3 <= limit ->
  Rigid.sieve_radicals limit = Ok (rads, primes_set) ->
  Rigid.scan_N N rads primes_set = Ok rows ->
  (Rigid.of_cat Goldbach rows = [] \/ Rigid.mix_rhos rows = []
   \/ Rigid.comp_rhos rows = [] ->
   Rigid.summary rows = Raise ValueError)
  /\ (length (Rigid.of_cat Goldbach rows) = 1%nat ->
      Rigid.mix_rhos rows <> [] -> Rigid.comp_rhos rows <> [] ->
      Rigid.summary rows = Raise ZeroDivisionError)
  /\ ((2 <= length (Rigid.of_cat Goldbach rows))%nat ->
      Rigid.mix_rhos rows <> [] -> Rigid.comp_rhos rows <> [] ->
      exists rep,
        Rigid.summary rows = Ok rep
        /\ (0 < Rigid.bandwidth_goldbach rep)%R
        /\ (0 <= Rigid.bandwidth_composite rep)%R
        /\ Rigid.bandwidth_ratio rep
           = (Rigid.bandwidth_composite rep / Rigid.bandwidth_goldbach rep)%R
        /\ (0 <= Rigid.bandwidth_ratio rep)%R).
Proof.
  intros Hbig Hlim E S.
  destruct (sieve_radicals_table _ _ _ Hbig E) as (Hl & L & T & M).
  rewrite (scan_N_rows N limit rads primes_set L T Hlim) in S. injection S as <-.
  split; [apply summary_value_error|]. split; [apply summary_zero_division|].
  intros H2 Hm Hc.
  destruct (two_goldbach_rows N limit primes_set M H2) as (a & b & Ia & Ib & Hab).
  destruct (summary_returns _ (In_nonempty _ _ Ia) Hm Hc) as (rep & Es & Eg & Ec & Er).
  { intros bw Eb. pose proof (bandwidth_positive _ _ _ _ Ia Ib Hab Eb). lra. }
  pose proof (bandwidth_positive _ _ _ _ Ia Ib Hab Eg) as Pg.
  assert (Pc : (0 <= Rigid.bandwidth_composite rep)%R).
  { apply bandwidth_spec in Ec. destruct Ec as (lo & hi & Elo & Ehi & ->).
    pose proof (max_above_min _ _ _ Elo Ehi). lra. }
  exists rep. split; [exact Es|]. split; [exact Pg|]. split; [exact Pc|].
  split; [exact Er|]. rewrite Er. apply Rmult_le_pos; [exact Pc|].
  apply Rlt_le. now apply Rinv_0_lt_compat.
Qed.

Lemma summary_outcome_witness :
  Rigid.summary
    [Rigid.mkRow 3 9 3 3 6561 (rho_value 6561 12) Mixed;
     Rigid.mkRow 4 8 1 1 81 (rho_value 81 12) Composite;
     Rigid.mkRow 5 7 5 7 99225 (rho_value 99225 12) Goldbach;
     Rigid.mkRow 6 6 3 3 6561 (rho_value 6561 12) Composite]
  = Raise ZeroDivisionError.
Proof.
  destruct (summary_outcome 12 9 [1; 1; 2; 3; 2; 5; 6; 7; 2; 3] [2; 3; 5; 7] _
              ltac:(lia) ltac:(lia) eq_refl scan_12_rows) as (_ & Z & _).
  apply Z.
  - reflexivity.
  - apply (In_nonempty (rho_value 6561 12)).
    apply (mix_rhos_In _ (Rigid.mkRow 3 9 3 3 6561 (rho_value 6561 12) Mixed));
      [cbn; tauto|reflexivity|apply rho_value_pos; lia].
  - apply (In_nonempty (rho_value 81 12)).
    apply (comp_rhos_In _ (Rigid.mkRow 4 8 1 1 81 (rho_value 81 12) Composite));
      [cbn; tauto|reflexivity|apply rho_value_pos; lia].
Defined.
